(** * LDSC command-line configuration (ldsc/parsers/ldsc_parser.py)

    The repository's parser module declares, through Python's [argparse],
    the options of the four LDSC subcommands ([rg], [h2], [h2-cts],
    [generate-ldscores]).  This development embeds

    - the option declarations of [LDSCconfig.configure_parser] and
      [LDSCconfig._add_subparsers], call by call, in source order;
    - the part of [argparse] (CPython 3.11, Lib/argparse.py) those
      declarations rely on: optional arguments with [store], [store_true],
      [append], [help] and one custom action, mutually exclusive groups,
      parent parsers, parser-level defaults, abbreviations, explicit
      [--opt=value] arguments and chained single-dash flags.

    The [parent_parser] argument of [configure_parser] is a parameter of the
    model; it ranges over parsers built from the same vocabulary.

    The stages that read the configuration ([ldsc.ldscore] and its
    [sumstats], [ldsc.callbacks]) are not part of the module.  Where a
    property is about what they make of an option, the stage is modelled
    from the specification, in a definition that says so, and the property
    relates it to the configuration that the parser returns. *)

From Stdlib Require Import ZArith String Ascii List Bool Floats QArith.
From stdpp Require Import base option gmap strings list.

Open Scope string_scope.
Open Scope Z_scope.
Open Scope list_scope.

(** ** Python values that occur in a parsed namespace *)

#[warnings="-register-all"]
Inductive value :=
| VNone
| VBool (b : bool)
| VInt (n : Z)
| VFloat (x : float)
| VStr (s : string)
| VPath (s : string)            (* pathlib.Path(s) *)
| VList (l : list value)
| VFunc (qualname : string).    (* a function object, e.g. sumstats.estimate_h2 *)

(** Defaults that the declarations use.  [DSuppress] is argparse.SUPPRESS. *)
Inductive pydefault :=
| DNone
| DBool (b : bool)
| DInt (n : Z)
| DPath (s : string)
| DFunc (qualname : string)
| DSuppress.

Definition default_value (d : pydefault) : option value :=
  match d with
  | DNone => Some VNone
  | DBool b => Some (VBool b)
  | DInt n => Some (VInt n)
  | DPath s => Some (VPath s)
  | DFunc f => Some (VFunc f)
  | DSuppress => None
  end.

(** The [type=] converters in use; [TNone] is an omitted [type=]. *)
Inductive pytype := TNone | TStr | TInt | TFloat | TPath.

(** The [action=] keywords in use; [ChecknBlocks] is ldsc.callbacks.ChecknBlocks. *)
Inductive action_kind := Store | StoreTrue | Append | Help | ChecknBlocks.

(** [nargs]: [None] (exactly one argument string) or [0]. *)
Inductive pynargs := NargsNone | NargsZero.

(** ** Errors and outcomes *)

Inductive ArgError :=
(* raised while parsers are being built *)
| ConflictingOptionString (option_strings : list string)
| PyValueError (msg : string)
| PyTypeError (msg : string)
(* raised by parse_args *)
| AmbiguousOption (option : string) (matches : list string)
| ExpectedOneArgument (action : string)
| IgnoredExplicitArgument (action : string) (explicit_arg : string)
| InvalidValue (action : string) (ty : pytype) (arg_string : string)
| NotAllowedWith (action : string) (other : string)
| RequiredArguments (names : list string)
| OneOfRequired (names : list string)
| UnrecognizedArguments (extras : list string)
| UnknownParser (name : string)
| PyAttributeError (msg : string)
(* the spec's ConfigurationError: a check of an option's value *)
| ConfigurationError (action : string) (arg : value).

(** A call either returns, exits with an error (status 2), or -- for the
    [help] action -- prints the help text and exits with status 0. *)
Inductive outcome (A : Type) :=
| Done (a : A)
| Fail (e : ArgError)
| HelpExit.
Arguments Done {A} a.
Arguments Fail {A} e.
Arguments HelpExit {A}.

#[global] Instance outcome_ret : MRet outcome := λ A a, Done a.
#[global] Instance outcome_bind : MBind outcome := λ A B f m,
  match m with
  | Done a => f a
  | Fail e => Fail e
  | HelpExit => HelpExit
  end.

(** A [for] loop that threads a state and stops at the first exception. *)
Fixpoint foldM {A B : Type} (f : B → A → outcome A) (l : list B) (a : A)
  : outcome A :=
  match l with
  | [] => Done a
  | b :: l' => a' ← f b a; foldM f l' a'
  end.

(** ** String helpers (str methods and the regular expressions argparse uses) *)

Fixpoint str_contains (c : ascii) (s : string) : bool :=
  match s with
  | EmptyString => false
  | String x s' => Ascii.eqb x c || str_contains c s'
  end.

(** [s.split(c, 1)] for a string that contains [c]. *)
Fixpoint split_once (c : ascii) (s : string) : string * string :=
  match s with
  | EmptyString => (EmptyString, EmptyString)
  | String x s' =>
      if Ascii.eqb x c then (EmptyString, s')
      else let '(l, r) := split_once c s' in (String x l, r)
  end.

Fixpoint lstrip (c : ascii) (s : string) : string :=
  match s with
  | EmptyString => EmptyString
  | String x s' => if Ascii.eqb x c then lstrip c s' else s
  end.

Fixpoint replace_char (c d : ascii) (s : string) : string :=
  match s with
  | EmptyString => EmptyString
  | String x s' => String (if Ascii.eqb x c then d else x) (replace_char c d s')
  end.

Definition is_digit (c : ascii) : bool :=
  ((48 <=? nat_of_ascii c) && (nat_of_ascii c <=? 57))%nat.

Fixpoint skip_digits (s : string) : nat * string :=
  match s with
  | String x s' =>
      if is_digit x then let '(n, r) := skip_digits s' in (S n, r) else (O, s)
  | EmptyString => (O, s)
  end.

(** [$] matches at the end of the string and before a final newline. *)
Definition at_dollar (s : string) : bool :=
  match s with
  | EmptyString => true
  | String c EmptyString => Ascii.eqb c "010"
  | _ => false
  end.

(** [_negative_number_matcher = re.compile(r'^-\d+$|^-\d*\.\d+$')], on ASCII digits. *)
Definition negative_number_like (s : string) : bool :=
  match s with
  | String "-" t =>
      let '(n1, r1) := skip_digits t in
      ((0 <? n1)%nat && at_dollar r1)
      || match r1 with
         | String "." r2 =>
             let '(n2, r3) := skip_digits r2 in (0 <? n2)%nat && at_dollar r3
         | _ => false
         end
  | _ => false
  end.

(** ** Actions and parsers *)

(** An optional argument.  It has at least one option string: [flag] is the
    first one and identifies the action object. *)
Record Action := mkAction {
  flag : string;
  aliases : list string;
  dest : option string;           (* None is SUPPRESS *)
  nargs : pynargs;
  kind : action_kind;
  type_ : pytype;
  default_ : pydefault;
  required : bool
}.

Definition option_strings (a : Action) : list string := flag a :: aliases a.

Record MutexGroup := mkGroup {
  group_required : bool;
  _group_actions : list string    (* the members, by [flag] *)
}.

Record ArgumentParser := mkParser {
  _actions : list Action;
  _mutually_exclusive_groups : list MutexGroup;
  _defaults : gmap string pydefault
}.

(** [self._option_string_actions[s]], as a lookup in declaration order. *)
Definition _option_string_actions (p : ArgumentParser) (s : string)
  : option Action :=
  find (λ a, bool_decide (s ∈ option_strings a)) (_actions p).

(** [_check_conflict] with the default [conflict_handler='error'], then
    [_add_action]. *)
Definition _add_action (a : Action) (p : ArgumentParser)
  : outcome ArgumentParser :=
  match filter (λ s, is_Some (_option_string_actions p s)) (option_strings a) with
  | [] => Done (mkParser (_actions p ++ [a])
                         (_mutually_exclusive_groups p) (_defaults p))
  | confl => Fail (ConflictingOptionString confl)
  end.

(** Keyword arguments of an [add_argument] call. *)
Record kwargs := KW {
  kw_action : action_kind;
  kw_type : pytype;
  kw_default : option pydefault;   (* None: no [default=] keyword *)
  kw_required : bool
}.

Definition is_prefix_char (c : ascii) : bool := Ascii.eqb c "-".

Definition starts_with_prefix_char (s : string) : bool :=
  match s with
  | String c _ => is_prefix_char c
  | EmptyString => false
  end.

Definition is_long_option (s : string) : bool :=
  match s with
  | String _ (String c _) => is_prefix_char c
  | _ => false
  end.

(** [_get_optional_kwargs]: the destination is inferred from the first long
    option string, else from the first option string. *)
Definition infer_dest (args : list string) : outcome string :=
  if forallb starts_with_prefix_char args then
    let dest_option_string :=
      match filter (λ s, Is_true (is_long_option s)) args with
      | l :: _ => l
      | [] => hd EmptyString args
      end in
    match lstrip "-" dest_option_string with
    | EmptyString => Fail (PyValueError "dest= is required")
    | d => Done (replace_char "-" "_" d)
    end
  else Fail (PyValueError "invalid option string").

(** The default an action class falls back on. *)
Definition class_default (k : action_kind) : pydefault :=
  match k with
  | StoreTrue => DBool false
  | Help => DSuppress
  | _ => DNone
  end.

Definition class_nargs (k : action_kind) : pynargs :=
  match k with
  | StoreTrue | Help => NargsZero
  | _ => NargsNone
  end.

(** The action object an [add_argument] call creates; [defaults] are the
    parser-level defaults, consulted when the call has no [default=]. *)
Definition make_action (args : list string) (kw : kwargs)
  (defaults : gmap string pydefault) : outcome Action :=
  match args with
  | [] => Fail (PyTypeError "missing dest")
  | first :: more =>
      d ← infer_dest args;
      let dflt :=
        match kw_default kw with
        | Some v => v
        | None =>
            match defaults !! d with
            | Some v => v
            | None => class_default (kw_action kw)
            end
        end in
      Done {| flag := first; aliases := more;
              dest := match kw_action kw with Help => None | _ => Some d end;
              nargs := class_nargs (kw_action kw);
              kind := kw_action kw; type_ := kw_type kw;
              default_ := dflt; required := kw_required kw |}
  end.

(** [add_argument] called with option strings and keywords. *)
Definition add_argument (args : list string) (kw : kwargs) (p : ArgumentParser)
  : outcome ArgumentParser :=
  a ← make_action args kw (_defaults p);
  _add_action a p.

(** [set_defaults(dest=v)]: recorded at parser level, and written into every
    action of the parser that has this destination. *)
Definition retarget (d : string) (v : pydefault) (a : Action) : Action :=
  if bool_decide (dest a = Some d)
  then mkAction (flag a) (aliases a) (dest a) (nargs a) (kind a) (type_ a) v
                (required a)
  else a.

Definition set_defaults (d : string) (v : pydefault) (p : ArgumentParser)
  : ArgumentParser :=
  mkParser (map (retarget d v) (_actions p))
           (_mutually_exclusive_groups p)
           (<[d := v]> (_defaults p)).

(** The statements a parser is configured with. *)
Inductive stmt :=
| AddArgument (args : list string) (kw : kwargs)
| AddMutuallyExclusiveGroup (required : bool)
                            (members : list (list string * kwargs))
| SetDefaults (d : string) (v : pydefault).

Definition add_arguments (calls : list (list string * kwargs))
  (p : ArgumentParser) : outcome ArgumentParser :=
  foldM (λ c, add_argument c.1 c.2) calls p.

Definition run_stmt (s : stmt) (p : ArgumentParser) : outcome ArgumentParser :=
  match s with
  | AddArgument args kw => add_argument args kw p
  | AddMutuallyExclusiveGroup req members =>
      p' ← (if existsb (λ c, kw_required c.2) members
            then Fail (PyValueError "mutually exclusive arguments must be optional")
            else add_arguments members p);
      Done (mkParser (_actions p')
              (_mutually_exclusive_groups p'
                 ++ [mkGroup req (map (λ c, hd EmptyString c.1) members)])
              (_defaults p'))
  | SetDefaults d v => Done (set_defaults d v p)
  end.

Definition run_script (script : list stmt) (p : ArgumentParser)
  : outcome ArgumentParser :=
  foldM run_stmt script p.

(** [_add_container_actions(container)]: each mutex group of the container
    is recreated, and every action of the container is added, to the last of
    those groups that lists it if there is one.  [ArgumentParser.__init__]
    then merges the container's parser-level defaults. *)
Fixpoint last_group (groups : list MutexGroup) (i : nat) (n : string)
  : option nat :=
  match groups with
  | [] => None
  | g :: groups' =>
      match last_group groups' (S i) n with
      | Some j => Some j
      | None => if bool_decide (n ∈ _group_actions g) then Some i else None
      end
  end.

Fixpoint copy_groups (i : nat) (todo : list MutexGroup)
  (container : ArgumentParser) : list MutexGroup :=
  match todo with
  | [] => []
  | g :: todo' =>
      mkGroup (group_required g)
        (map flag
           (filter (λ a, last_group (_mutually_exclusive_groups container) 0
                           (flag a) = Some i)
                   (_actions container)))
      :: copy_groups (S i) todo' container
  end.

Definition _add_container_action (container : ArgumentParser) (a : Action)
  (p : ArgumentParser) : outcome ArgumentParser :=
  if required a
     && bool_decide (is_Some (last_group (_mutually_exclusive_groups container)
                                0 (flag a)))
  then Fail (PyValueError "mutually exclusive arguments must be optional")
  else _add_action a p.

Definition _add_container_actions (container p : ArgumentParser)
  : outcome ArgumentParser :=
  p' ← foldM (_add_container_action container) (_actions container)
         (mkParser (_actions p)
            (_mutually_exclusive_groups p
               ++ copy_groups 0 (_mutually_exclusive_groups container)
                    container)
            (_defaults p));
  Done (mkParser (_actions p') (_mutually_exclusive_groups p')
          (_defaults container ∪ _defaults p')).

Definition empty_parser : ArgumentParser := mkParser [] [] ∅.

(** [ArgumentParser(add_help=..., parents=...)]. *)
Definition new_parser (add_help : bool) (parents : list ArgumentParser)
  : outcome ArgumentParser :=
  p ← (if add_help
       then add_argument ["-h"; "--help"] (KW Help TNone (Some DSuppress) false)
                         empty_parser
       else Done empty_parser);
  foldM _add_container_actions parents p.

(** ** The declarations of ldsc_parser.py *)

Definition store_true (d : option pydefault) : kwargs := KW StoreTrue TNone d false.
Definition store (t : pytype) (d : option pydefault) : kwargs := KW Store t d false.

(** [LDSCconfig.configure_parser]: the options shared by all subcommands. *)
Definition common_ldsc_parser_script : list stmt := [
  (* ref_ld_group *)
  AddMutuallyExclusiveGroup false [
    (["--ref-ld"], store TStr (Some DNone));
    (["--ref-ld-chr"], store TPath (Some (DPath "")))
  ];
  (* w_ld_group *)
  AddMutuallyExclusiveGroup false [
    (["--w-ld"], store TStr (Some DNone));
    (["--w-ld-chr"], store TPath (Some DNone))
  ];
  AddArgument ["--overlap-annot"] (store_true (Some (DBool false)));
  AddArgument ["--print-coefficients"] (store_true (Some (DBool false)));
  AddArgument ["--frqfile"] (store TStr None);
  AddArgument ["--frqfile-chr"] (store TStr None);
  AddArgument ["--no-intercept"] (store_true None);
  AddArgument ["--intercept-h2"] (store TNone (Some DNone));
  AddArgument ["--intercept-gencov"] (store TNone (Some DNone));
  AddArgument ["--M"] (store TStr (Some DNone));
  AddArgument ["--two-step"] (store TFloat (Some DNone));
  AddArgument ["--chisq-max"] (store TFloat (Some DNone));
  AddArgument ["--ref-ld-chr-cts"] (store TStr (Some DNone));
  AddArgument ["--print-all-cts"] (store_true (Some (DBool false)));
  AddArgument ["--print-cov"] (store_true (Some (DBool false)));
  AddArgument ["--print-delete-vals"] (store_true (Some (DBool false)));
  AddArgument ["--invert-anyway"] (store_true (Some (DBool false)));
  AddArgument ["--n-blocks"] (KW ChecknBlocks TInt (Some (DInt 200)) false);
  AddArgument ["--not-M-5-50"] (store_true (Some (DBool false)));
  AddArgument ["--no-check-alleles"] (store_true (Some (DBool false)));
  AddArgument ["--samp-prev"] (store TNone (Some DNone));
  AddArgument ["--pop-prev"] (store TNone (Some DNone))
].

(** [LDSCconfig._add_subparsers]: the four subcommands. *)
Definition rg_parser_script : list stmt := [
  AddArgument ["--rg"] (KW Append TPath (Some DNone) false);
  SetDefaults "func" (DFunc "sumstats.estimate_rg")
].

Definition h2_parser_script : list stmt := [
  AddArgument ["--h2"] (store TPath (Some DNone));
  SetDefaults "func" (DFunc "sumstats.estimate_h2")
].

Definition h2_cts_parser_script : list stmt := [
  AddArgument ["--h2-cts"] (store TPath (Some DNone));
  SetDefaults "func" (DFunc "sumstats.cell_type_specific")
].

Definition ldscore_parser_script : list stmt := [
  AddArgument ["--bfile"] (KW Store TStr (Some DNone) true);
  AddArgument ["--l2"] (KW StoreTrue TNone (Some (DBool false)) true);
  AddArgument ["--keep"] (store TPath (Some DNone));
  AddArgument ["--cts-bin"] (store TStr (Some DNone));
  AddArgument ["--cts-breaks"] (store TStr (Some DNone));
  AddArgument ["--cts-names"] (store TStr (Some DNone));
  AddArgument ["--thin-annot"] (store_true (Some (DBool false)));
  (* annot_extract_group *)
  AddMutuallyExclusiveGroup false [
    (["--extract"], store TStr (Some DNone));
    (["--annot"], store TStr (Some DNone))
  ];
  AddArgument ["--maf"] (store TFloat (Some DNone));
  AddArgument ["--ld-wind-snps"] (store TInt (Some DNone));
  AddArgument ["--ld-wind-kb"] (store TFloat (Some DNone));
  AddArgument ["--ld-wind-cm"] (store TFloat (Some DNone));
  AddArgument ["--yes-really"] (store_true (Some (DBool false)));
  AddArgument ["--chunk-size"] (store TInt (Some (DInt 50)));
  AddArgument ["--print-snps"] (store TStr (Some DNone));
  AddArgument ["--no-print-annot"] (store_true (Some (DBool false)));
  (* per_allele_pq_exp_group *)
  AddMutuallyExclusiveGroup false [
    (["--per-allele"], store_true (Some (DBool false)));
    (["--pq-exp"], store TFloat (Some DNone))
  ];
  SetDefaults "func" (DFunc "ld.ldscore")
].

(** [ldsc_subparser.add_parser(name, parents=parent)] followed by the
    subcommand's declarations. *)
Definition add_parser (parent : list ArgumentParser) (script : list stmt)
  : outcome ArgumentParser :=
  p ← new_parser true parent;
  run_script script p.

(** The parents' actions are the same objects in all four subparsers, so a
    [set_defaults] call of one subparser that rewrites a parent action's
    default is seen by the others: after construction, a parent action carries
    what the four calls, in order, leave in it. *)
Definition script_defaults (script : list stmt) : list (string * pydefault) :=
  flat_map (λ s, match s with SetDefaults d v => [(d, v)] | _ => [] end) script.

Definition shared_action (a : Action) : Action :=
  fold_left (λ a dv, retarget dv.1 dv.2 a)
    (flat_map script_defaults
       [rg_parser_script; h2_parser_script; h2_cts_parser_script;
        ldscore_parser_script])
    a.

Definition inherited (parent : list ArgumentParser) (a : Action) : bool :=
  bool_decide (flag a ∈ flat_map (λ q, map flag (_actions q)) parent).

Definition share_parent_actions (parent : list ArgumentParser)
  (p : ArgumentParser) : ArgumentParser :=
  mkParser (map (λ a, if inherited parent a then shared_action a else a)
                (_actions p))
           (_mutually_exclusive_groups p) (_defaults p).

Definition _add_subparsers (parent : list ArgumentParser)
  : outcome (list (string * ArgumentParser)) :=
  rg_parser ← add_parser parent rg_parser_script;
  h2_parser ← add_parser parent h2_parser_script;
  h2_cts_parser ← add_parser parent h2_cts_parser_script;
  ldscore_parser ← add_parser parent ldscore_parser_script;
  Done (map (λ np, (np.1, share_parent_actions parent np.2))
          [("rg", rg_parser); ("h2", h2_parser); ("h2-cts", h2_cts_parser);
           ("generate-ldscores", ldscore_parser)]).

Definition common_ldsc_parser : outcome ArgumentParser :=
  p ← new_parser false [];
  run_script common_ldsc_parser_script p.

(** [configure_parser(parser, parent_parser)] on a [parser] that has no
    subparsers action yet (on one that has, [add_subparsers] raises before
    any subcommand is declared); the result is the name-to-parser map of the
    subparsers action it installs on [parser]. *)
Definition configure_parser (parent_parser : ArgumentParser)
  : outcome (list (string * ArgumentParser)) :=
  common ← common_ldsc_parser;
  _add_subparsers [common; parent_parser].

(** ** Parsing (argparse.ArgumentParser.parse_args) *)

Record state := mkState {
  namespace : gmap string value;
  seen_actions : gset string;
  seen_non_default_actions : gset string;
  extras : list string
}.

(** How an argument string is classified by the first pass of
    [_parse_known_args]: ['A'], ['-'] (the [--] separator), or ['O'] with the
    option tuple of [_parse_optional]. *)
Inductive arg_class :=
| ClsA
| ClsDash
| ClsO (action : option Action) (option_string : string)
       (explicit_arg : option string)
| ClsAmbiguous (arg_string : string) (matches : list string).

Definition option_table (p : ArgumentParser) : list (string * Action) :=
  flat_map (λ a, map (λ s, (s, a)) (option_strings a)) (_actions p).

Definition _has_negative_number_optionals (p : ArgumentParser) : bool :=
  existsb (λ sa, negative_number_like sa.1) (option_table p).

Definition _get_option_tuples (p : ArgumentParser) (option_string : string)
  : list (Action * string * option string) :=
  match option_string with
  | String c0 (String c1 tail) =>
      if is_prefix_char c0 && is_prefix_char c1 then
        (* allow_abbrev is left at its default, True *)
        let '(option_prefix, explicit_arg) :=
          if str_contains "=" option_string
          then let '(l, r) := split_once "=" option_string in (l, Some r)
          else (option_string, None) in
        omap (λ sa, if String.prefix option_prefix sa.1
                    then Some (sa.2, sa.1, explicit_arg) else None)
             (option_table p)
      else if is_prefix_char c0 then
        let short_option_prefix := String c0 (String c1 EmptyString) in
        omap (λ sa, if String.eqb sa.1 short_option_prefix
                    then Some (sa.2, sa.1, Some tail)
                    else if String.prefix option_string sa.1
                    then Some (sa.2, sa.1, None) else None)
             (option_table p)
      else []
  | _ => []
  end.

Definition _parse_optional (p : ArgumentParser) (arg_string : string)
  : arg_class :=
  match arg_string with
  | EmptyString => ClsA
  | String c0 tail =>
      if negb (is_prefix_char c0) then ClsA
      else
        match _option_string_actions p arg_string with
        | Some a => ClsO (Some a) arg_string None
        | None =>
            match tail with
            | EmptyString => ClsA
            | _ =>
                let with_equals :=
                  if str_contains "=" arg_string then
                    let '(option_string, explicit_arg) :=
                      split_once "=" arg_string in
                    match _option_string_actions p option_string with
                    | Some a => Some (ClsO (Some a) option_string
                                          (Some explicit_arg))
                    | None => None
                    end
                  else None in
                match with_equals with
                | Some c => c
                | None =>
                    match _get_option_tuples p arg_string with
                    | [(a, s, e)] => ClsO (Some a) s e
                    | (_ :: _ :: _) as tuples =>
                        ClsAmbiguous arg_string (map (λ t, t.1.2) tuples)
                    | [] =>
                        if negative_number_like arg_string
                           && negb (_has_negative_number_optionals p)
                        then ClsA
                        else if str_contains " " arg_string then ClsA
                        else ClsO None arg_string None
                    end
                end
            end
        end
  end.

(** The first pass: everything after [--] is an argument. *)
Fixpoint classify (p : ArgumentParser) (arg_strings : list string)
  : list arg_class :=
  match arg_strings with
  | [] => []
  | s :: rest =>
      if String.eqb s "--" then ClsDash :: map (λ _, ClsA) rest
      else _parse_optional p s :: classify p rest
  end.

(** An ambiguous abbreviation ends the parse during the first pass. *)
Fixpoint first_ambiguous (cs : list arg_class) : option ArgError :=
  match cs with
  | [] => None
  | ClsAmbiguous s ms :: _ => Some (AmbiguousOption s ms)
  | _ :: cs' => first_ambiguous cs'
  end.

(** [action_conflicts[a]]: for each position of [a] in a group, the members
    before and after it. *)
Fixpoint group_conflicts (before after : list string) (a : string)
  : list string :=
  match after with
  | [] => []
  | x :: rest =>
      (if String.eqb x a then before ++ rest else [])
        ++ group_conflicts (before ++ [x]) rest a
  end.

Definition action_conflicts (p : ArgumentParser) (a : string) : list string :=
  flat_map (λ g, group_conflicts [] (_group_actions g) a)
           (_mutually_exclusive_groups p).

Fixpoint remove_first (x : string) (l : list string) : list string :=
  match l with
  | [] => []
  | y :: l' => if String.eqb x y then l' else y :: remove_first x l'
  end.

(** [argument_values is action.default]: converted values are fresh objects,
    except that CPython hands out one object per integer in -5..256. *)
Definition same_object (v : value) (d : pydefault) : bool :=
  match v, d with
  | VInt n, DInt m => (n =? m) && (-5 <=? n) && (n <=? 256)
  | _, _ => false
  end.

(** [setattr] on an action with [dest=SUPPRESS] writes under that very name. *)
Definition dest_attr (a : Action) : string :=
  match dest a with
  | Some d => d
  | None => "==SUPPRESS=="
  end.

(** Modelled from the spec: ldsc.callbacks.ChecknBlocks, the action class
    attached to [--n-blocks], is not among the sources.  An action is called
    with the parser, the namespace, the converted value and the option
    string, so what it can check is the value: [n_blocks_ok] is that check.
    A value it refuses is reported as a configuration error, as the spec
    asks of a bad block count; a value it accepts is stored like [store]
    does. *)
Definition ChecknBlocks_call (n_blocks_ok : value → bool) (a : Action)
  (ns : gmap string value) (values : value) : outcome (gmap string value) :=
  if n_blocks_ok values
  then Done (<[dest_attr a := values]> ns)
  else Fail (ConfigurationError (flag a) values).

Section Parsing.

(** [int] and [float] applied to an argument string ([None]: ValueError), and
    the check that [ChecknBlocks] applies to a supplied block count. *)
Context (py_int : string → option Z) (py_float : string → option float)
        (n_blocks_ok : value → bool).

Definition _get_value (a : Action) (arg_string : string) : outcome value :=
  match type_ a with
  | TNone | TStr => Done (VStr arg_string)
  | TPath => Done (VPath arg_string)
  | TInt =>
      match py_int arg_string with
      | Some n => Done (VInt n)
      | None => Fail (InvalidValue (flag a) TInt arg_string)
      end
  | TFloat =>
      match py_float arg_string with
      | Some x => Done (VFloat x)
      | None => Fail (InvalidValue (flag a) TFloat arg_string)
      end
  end.

Fixpoint _get_value_list (a : Action) (arg_strings : list string)
  : outcome (list value) :=
  match arg_strings with
  | [] => Done []
  | s :: rest =>
      v ← _get_value a s; vs ← _get_value_list a rest; Done (v :: vs)
  end.

(** [_get_values]: the first [--] is dropped; one string with [nargs=None]
    gives one value, anything else a list. *)
Definition _get_values (a : Action) (arg_strings : list string)
  : outcome value :=
  match nargs a, remove_first "--" arg_strings with
  | NargsNone, [s] => _get_value a s
  | _, strings => vs ← _get_value_list a strings; Done (VList vs)
  end.

(** [action(parser, namespace, values, option_string)]. *)
Definition call_action (a : Action) (ns : gmap string value) (values : value)
  : outcome (gmap string value) :=
  match kind a with
  | Store => Done (<[dest_attr a := values]> ns)
  | StoreTrue => Done (<[dest_attr a := VBool true]> ns)
  | Append =>
      match ns !! dest_attr a with
      | None | Some VNone => Done (<[dest_attr a := VList [values]]> ns)
      | Some (VList items) =>
          Done (<[dest_attr a := VList (items ++ [values])]> ns)
      | Some _ => Fail (PyAttributeError "append")
      end
  | Help => HelpExit
  | ChecknBlocks => ChecknBlocks_call n_blocks_ok a ns values
  end.

Definition take_action (p : ArgumentParser) (a : Action)
  (argument_strings : list string) (st : state) : outcome state :=
  let seen := {[flag a]} ∪ seen_actions st in
  argument_values ← _get_values a argument_strings;
  non_default ←
    (if same_object argument_values (default_ a)
     then Done (seen_non_default_actions st)
     else
       let nd := {[flag a]} ∪ seen_non_default_actions st in
       match filter (λ c, c ∈ nd) (action_conflicts p (flag a)) with
       | [] => Done nd
       | c :: _ => Fail (NotAllowedWith (flag a) c)
       end);
  ns ← call_action a (namespace st) argument_values;
  Done (mkState ns seen non_default (extras st)).

Definition take_actions (p : ArgumentParser)
  (action_tuples : list (Action * list string)) (st : state) : outcome state :=
  foldM (λ t, take_action p t.1 t.2) action_tuples st.

(** [match_argument(action, arg_strings_pattern[start:])] for an option: the
    argument strings it takes from what follows, and whether it took one. *)
Definition match_following (a : Action) (next : option string)
  : outcome (list string * bool) :=
  match nargs a, next with
  | NargsZero, _ => Done ([], false)
  | NargsNone, Some v => Done ([v], true)
  | NargsNone, None => Fail (ExpectedOneArgument (flag a))
  end.

(** The loop of [consume_optional] while there is an explicit argument. *)
Fixpoint explicit_loop (p : ArgumentParser) (next : option string)
  (a : Action) (option_string explicit_arg : string)
  (action_tuples : list (Action * list string)) {struct explicit_arg}
  : outcome (list (Action * list string) * bool) :=
  match nargs a with
  | NargsNone => Done (action_tuples ++ [(a, [explicit_arg])], false)
  | NargsZero =>
      match option_string with
      | String c0 (String c1 _) =>
          if is_prefix_char c1
          then Fail (IgnoredExplicitArgument (flag a) explicit_arg)
          else
            match explicit_arg with
            | EmptyString =>
                Fail (IgnoredExplicitArgument (flag a) explicit_arg)
            | String x new_explicit_arg =>
                let option_string' := String c0 (String x EmptyString) in
                match _option_string_actions p option_string' with
                | None => Fail (IgnoredExplicitArgument (flag a) explicit_arg)
                | Some a' =>
                    let action_tuples' := action_tuples ++ [(a, [])] in
                    match new_explicit_arg with
                    | EmptyString =>
                        m ← match_following a' next;
                        Done (action_tuples' ++ [(a', m.1)], m.2)
                    | _ =>
                        explicit_loop p next a' option_string'
                          new_explicit_arg action_tuples'
                    end
                end
            end
      | _ => Fail (PyTypeError "string index out of range")
      end
  end.

Definition following_argument (toks : list (string * arg_class))
  : option string :=
  match toks with
  | (v, ClsA) :: _ => Some v
  | _ => None
  end.

(** [consume_optional]: the action tuples of one option string. *)
Definition consume_optional (p : ArgumentParser) (next : option string)
  (a : Action) (option_string : string) (explicit_arg : option string)
  : outcome (list (Action * list string) * bool) :=
  match explicit_arg with
  | Some e => explicit_loop p next a option_string e []
  | None => m ← match_following a next; Done ([(a, m.1)], m.2)
  end.

Definition add_extra (s : string) (st : state) : state :=
  mkState (namespace st) (seen_actions st) (seen_non_default_actions st)
          (extras st ++ [s]).

(** The main loop of [_parse_known_args] for a parser without positionals:
    options are consumed left to right, every other string is an extra. *)
Fixpoint consume (p : ArgumentParser) (toks : list (string * arg_class))
  (st : state) {struct toks} : outcome state :=
  match toks with
  | [] => Done st
  | (s, ClsO (Some a) option_string explicit_arg) :: rest =>
      plan ← consume_optional p (following_argument rest) a option_string
                explicit_arg;
      st' ← take_actions p plan.1 st;
      match plan.2, rest with
      | true, _ :: rest' => consume p rest' st'
      | _, _ => consume p rest st'
      end
  | (s, _) :: rest => consume p rest (add_extra s st)
  end.

Definition parser_default_value (d : pydefault) : value :=
  match default_value d with
  | Some v => v
  | None => VStr "==SUPPRESS=="
  end.

(** The namespace [parse_known_args] starts from: action defaults in
    declaration order, then parser-level defaults, each only if absent. *)
Definition initial_namespace (p : ArgumentParser) : gmap string value :=
  fold_left
    (λ ns a, match dest a, default_value (default_ a) with
             | Some d, Some v =>
                 match ns !! d with None => <[d := v]> ns | Some _ => ns end
             | _, _ => ns
             end)
    (_actions p) ∅
  ∪ (parser_default_value <$> _defaults p).

Definition missing_required (p : ArgumentParser) (st : state) : list string :=
  omap (λ a, if required a && negb (bool_decide (flag a ∈ seen_actions st))
             then Some (flag a) else None)
       (_actions p).

Definition unmet_groups (p : ArgumentParser) (st : state) : list MutexGroup :=
  filter (λ g, Is_true (group_required g
                        && forallb (λ n, negb (bool_decide
                                      (n ∈ seen_non_default_actions st)))
                                   (_group_actions g)))
         (_mutually_exclusive_groups p).

Definition parse_known_args (p : ArgumentParser) (arg_strings : list string)
  : outcome (gmap string value * list string) :=
  let classes := classify p arg_strings in
  match first_ambiguous classes with
  | Some e => Fail e
  | None =>
      st ← consume p (zip arg_strings classes)
             (mkState (initial_namespace p) ∅ ∅ []);
      match missing_required p st with
      | [] =>
          match unmet_groups p st with
          | [] => Done (namespace st, extras st)
          | g :: _ => Fail (OneOfRequired (_group_actions g))
          end
      | names => Fail (RequiredArguments names)
      end
  end.

Definition parse_args (p : ArgumentParser) (arg_strings : list string)
  : outcome (gmap string value) :=
  r ← parse_known_args p arg_strings;
  match r.2 with
  | [] => Done r.1
  | extras => Fail (UnrecognizedArguments extras)
  end.

(** [_SubParsersAction.__call__], once the top-level parser has taken
    [parser_name] as the value of the subparsers action: the name selects the
    subparser and the rest of the command line is parsed by it; what it
    leaves over is reported by the top-level [parse_args].  The top-level
    parser itself, with the options it reads before the subcommand name
    ([-h] among them), belongs to the caller and is not modelled. *)
Definition invoke (subparsers : list (string * ArgumentParser))
  (parser_name : string) (arg_strings : list string)
  : outcome (gmap string value) :=
  match find (λ np, String.eqb np.1 parser_name) subparsers with
  | None => Fail (UnknownParser parser_name)
  | Some np => parse_args np.2 arg_strings
  end.

End Parsing.

(** ** Sample converters and a sample parent, for the examples

    Plain decimal literals only, read as [int] and [float] read them (the
    theorems hold for any converters); a parent parser that declares one
    option, [--out]. *)

Fixpoint digits_value (s : string) (acc : Z) : option Z :=
  match s with
  | EmptyString => Some acc
  | String c s' =>
      if is_digit c
      then digits_value s' (10 * acc + Z.of_nat (nat_of_ascii c - 48))
      else None
  end.

Definition sample_int (s : string) : option Z :=
  match s with
  | EmptyString => None
  | String "-" EmptyString => None
  | String "-" t => Z.opp <$> digits_value t 0
  | _ => digits_value s 0
  end.

Definition float_of_Z (z : Z) : float :=
  if z <? 0 then PrimFloat.opp (PrimFloat.of_uint63 (Uint63.of_Z (- z)))
  else PrimFloat.of_uint63 (Uint63.of_Z z).

Definition sample_float (s : string) : option float :=
  if str_contains "." s then
    let '(i, f) := split_once "." s in
    match f with
    | EmptyString => None
    | _ =>
        m ← sample_int (String.append i f);
        Some (PrimFloat.div (float_of_Z m)
                (float_of_Z (10 ^ Z.of_nat (String.length f))))
    end
  else float_of_Z <$> sample_int s.

(** A decimal literal as a rational number (0 for anything else). *)
Definition sample_number (s : string) : Q :=
  if str_contains "." s then
    let '(i, f) := split_once "." s in
    match sample_int (String.append i f) with
    | Some m => Qmake m (Z.to_pos (10 ^ Z.of_nat (String.length f)))
    | None => 0
    end
  else
    match sample_int s with
    | Some m => inject_Z m
    | None => 0
    end.

Definition sample_parent : ArgumentParser :=
  mkParser [mkAction "--out" [] (Some "out") NargsNone Store TStr DNone false]
           [] ∅.

(** A sample check for [--n-blocks]: a positive count, at most [bound]. *)
Definition block_count_within (bound : Z) (v : value) : bool :=
  match v with
  | VInt n => (1 <=? n) && (n <=? bound)
  | _ => false
  end.

Definition sample_check : value → bool := block_count_within 1000.

Definition sample_invoke (bound : Z) (parser_name : string)
  (arg_strings : list string) : outcome (gmap string value) :=
  subparsers ← configure_parser sample_parent;
  invoke sample_int sample_float (block_count_within bound) subparsers
    parser_name arg_strings.

(** ** What a command line supplies, and what a namespace enables *)

Definition resolved_flag (c : arg_class) : option string :=
  match c with
  | ClsO (Some a) _ _ => Some (flag a)
  | _ => None
  end.

(** [supplies p o args]: some argument string is recognised, in the first
    pass, as the option whose first option string is [o] (spelled out,
    abbreviated, or with an explicit [=value]). *)
Definition supplies (p : ArgumentParser) (o : string)
  (arg_strings : list string) : bool :=
  bool_decide (Some o ∈ map resolved_flag (classify p arg_strings)).

Definition subparser (subparsers : list (string * ArgumentParser))
  (parser_name : string) : ArgumentParser :=
  match find (λ np, String.eqb np.1 parser_name) subparsers with
  | Some np => np.2
  | None => empty_parser
  end.

Definition subcommands : list string := ["rg"; "h2"; "h2-cts"; "generate-ldscores"].

(** [args.attr], read as a condition. *)
Definition is_set (ns : gmap string value) (attr : string) : bool :=
  match ns !! attr with
  | Some (VBool b) => b
  | _ => false
  end.

(** The attributes [names] of the namespace of an accepted configuration. *)
Definition attributes (names : list string) (o : outcome (gmap string value))
  : option (list (option value)) :=
  match o with
  | Done ns => Some (map (λ k, ns !! k) names)
  | _ => None
  end.

(** ** The stages behind the options, as the spec describes them *)

(** [args.attr is not None]. *)
Definition is_given (ns : gmap string value) (attr : string) : bool :=
  match ns !! attr with
  | None | Some VNone => false
  | Some _ => true
  end.

(** The window options of [generate-ldscores] and their attributes. *)
Definition window_units : list (string * string) :=
  [("--ld-wind-snps", "ld_wind_snps"); ("--ld-wind-kb", "ld_wind_kb");
   ("--ld-wind-cm", "ld_wind_cm")].

Definition active_window_units (ns : gmap string value)
  : list (string * string) :=
  List.filter (λ u, is_given ns u.2) window_units.

(** Modelled from the spec: the boundary of the LD Score Calculator
    (ldsc.ldscore, not among the sources).  Exactly one window unit is active
    per run; two window units set simultaneously are a ConfigurationError,
    reported before computation starts.  The units that the configuration
    sets are counted first, and [compute] runs only when there is exactly
    one. *)
Definition ldscore_stage {A : Type} (compute : gmap string value → A)
  (ns : gmap string value) : outcome A :=
  match active_window_units ns with
  | [_] => Done (compute ns)
  | units =>
      Fail (ConfigurationError "--ld-wind" (VList (map (λ u, VStr u.1) units)))
  end.

Section Solve.

Context {matrix coefficients : Type}.
Context (ill_conditioned : matrix → bool).
Context (inverse_solve pseudo_inverse_solve : matrix → coefficients).

Inductive solve_result :=
| Exact (theta : coefficients)
| Approximate (theta : coefficients)
| SingularDesign.

(** Modelled from the spec: the solve of the Weighted Block-Jackknife
    Estimator (ldsc.ldscore, not among the sources).  An ill-conditioned
    matrix is reported as SingularDesign and fails the run unless the override
    is set; when it is, a pseudo-inverse solve is used and the result is
    flagged as approximate. *)
Definition solve (invert_anyway : bool) (xtwx : matrix) : solve_result :=
  if ill_conditioned xtwx then
    if invert_anyway then Approximate (pseudo_inverse_solve xtwx)
    else SingularDesign
  else Exact (inverse_solve xtwx).

End Solve.

Section Harmonize.

Context {snp : Type}.
Context (alleles_match : snp → bool).

Inductive snp_outcome :=
| Aligned (s : snp)
| AlleleMismatch (s : snp).

(** Modelled from the spec: allele-sign harmonization of the Regression
    Design Builder (ldsc.ldscore.sumstats, not among the sources).  It fails
    with AlleleMismatch for a SNP whose alleles cannot be matched between the
    two studies, unless allele checking is disabled. *)
Definition harmonize_snp (no_check_alleles : bool) (s : snp) : snp_outcome :=
  if no_check_alleles then Aligned s
  else if alleles_match s then Aligned s else AlleleMismatch s.

Record harmonized := mkHarmonized {
  kept : list snp;
  n_allele_mismatch : nat
}.

Definition is_aligned (o : snp_outcome) : option snp :=
  match o with
  | Aligned s => Some s
  | AlleleMismatch _ => None
  end.

(** Modelled from the spec: a mismatching SNP is dropped and a count is
    surfaced; the run fails only if the drop rate exceeds a sanity
    threshold. *)
Definition harmonize (max_drop_rate : Q) (no_check_alleles : bool)
  (snps : list snp) : option harmonized :=
  let outcomes := map (harmonize_snp no_check_alleles) snps in
  let aligned := omap is_aligned outcomes in
  let dropped := (length snps - length aligned)%nat in
  if Qle_bool (inject_Z (Z.of_nat dropped))
              (max_drop_rate * inject_Z (Z.of_nat (length snps)))
  then Some (mkHarmonized aligned dropped)
  else None.

End Harmonize.

Section Liability.

(** The ascertainment-correction factor for a sample and a population
    prevalence. *)
Context (ascertainment_correction : Q → Q → Q).

Inductive liability_result :=
| LiabilityScale (h2 : Q)
| InvalidPrevalence.

Definition in_open_unit_interval (k : Q) : bool :=
  negb (Qle_bool k 0) && negb (Qle_bool 1 k).

(** Modelled from the spec: the liability-scale conversion of the
    Heritability Estimator (ldsc.ldscore, not among the sources).  It fails
    with InvalidPrevalence if either prevalence is outside (0,1). *)
Definition to_liability_scale (samp_prev pop_prev h2_observed : Q)
  : liability_result :=
  if in_open_unit_interval samp_prev && in_open_unit_interval pop_prev
  then LiabilityScale (h2_observed * ascertainment_correction samp_prev pop_prev)
  else InvalidPrevalence.

Record HeritabilityEstimate := mkEstimate {
  h2_observed_scale : Q;
  h2_liability_scale : option liability_result   (* None: not requested *)
}.

(** Modelled from the spec: InvalidPrevalence is fatal only for the
    conversion step; the observed-scale estimate is still returned. *)
Definition summarize (h2_observed : Q) (prevalence : option (Q * Q))
  : HeritabilityEstimate :=
  mkEstimate h2_observed
    ((λ k, to_liability_scale k.1 k.2 h2_observed) <$> prevalence).

End Liability.

(** Modelled from the spec: the prevalences that the Heritability Estimator
    takes from a configuration, the strings that [--samp-prev] and
    [--pop-prev] stored, read as numbers by [to_number]; [None] unless both
    are given. *)
Definition prevalences (to_number : string → Q) (ns : gmap string value)
  : option (Q * Q) :=
  match ns !! "samp_prev", ns !! "pop_prev" with
  | Some (VStr s), Some (VStr p) => Some (to_number s, to_number p)
  | _, _ => None
  end.

(** Modelled from the spec: what the Heritability Estimator returns for a
    configuration.  The liability-scale conversion is requested by giving the
    sample and the population prevalence; the observed-scale estimate is
    returned in every case. *)
Definition heritability_summary (ascertainment_correction : Q → Q → Q)
  (to_number : string → Q) (h2_observed : Q) (ns : gmap string value)
  : HeritabilityEstimate :=
  summarize ascertainment_correction h2_observed (prevalences to_number ns).

Record snp_info := mkSnp {
  maf : Q;
  annot : list Q        (* the weight in each category *)
}.

(** A SNP is counted in the categories where its weight is not zero. *)
Definition in_category (c : nat) (s : snp_info) : bool :=
  negb (Qeq_bool (nth c (annot s) 0%Q) 0).

Definition maf_5_50 (s : snp_info) : bool :=
  negb (Qle_bool (maf s) (5 # 100)) && negb (Qle_bool (1 # 2) (maf s)).





(** ** Tables used by the proofs *)

(** The actions and groups a script declares. *)
Definition declared (c : list string * kwargs) : list Action :=
  match make_action c.1 c.2 ∅ with
  | Done a => [a]
  | _ => []
  end.

Definition stmt_actions (s : stmt) : list Action :=
  match s with
  | AddArgument args kw => declared (args, kw)
  | AddMutuallyExclusiveGroup _ members => flat_map declared members
  | SetDefaults _ _ => []
  end.

Definition script_actions (script : list stmt) : list Action :=
  flat_map stmt_actions script.

Definition stmt_groups (s : stmt) : list MutexGroup :=
  match s with
  | AddMutuallyExclusiveGroup req members =>
      [mkGroup req (map (λ c, hd EmptyString c.1) members)]
  | _ => []
  end.

Definition script_groups (script : list stmt) : list MutexGroup :=
  flat_map stmt_groups script.

Definition help_action : Action :=
  mkAction "-h" ["--help"] None NargsZero Help TNone DSuppress false.

Definition common_actions : list Action :=
  Eval vm_compute in script_actions common_ldsc_parser_script.

Definition common_groups : list MutexGroup :=
  Eval vm_compute in script_groups common_ldsc_parser_script.

Definition subcommand_script (parser_name : string) : list stmt :=
  if String.eqb parser_name "rg" then rg_parser_script
  else if String.eqb parser_name "h2" then h2_parser_script
  else if String.eqb parser_name "h2-cts" then h2_cts_parser_script
  else if String.eqb parser_name "generate-ldscores" then ldscore_parser_script
  else [].

(** The actions of a subcommand that do not come from [parent_parser]. *)
Definition own_actions (parser_name : string) : list Action :=
  help_action :: common_actions
    ++ script_actions (subcommand_script parser_name).

Definition own_groups (parser_name : string) : list MutexGroup :=
  common_groups ++ script_groups (subcommand_script parser_name).

(** An action that a chain of single-dash flags can reach has a
    two-character option string. *)
Definition short_option (a : Action) : bool :=
  existsb (λ s, Nat.eqb (String.length s) 2) (option_strings a).

(** An action whose converted values are never its default object. *)
Definition never_default (a : Action) : bool :=
  match type_ a, default_ a with
  | TInt, DInt _ => false
  | _, _ => true
  end.

(** [parent_parser] leaves the destinations declared here alone. *)
Definition declared_dests : list string :=
  Eval vm_compute in
    remove_dups (flat_map (λ n, omap dest (own_actions n)) subcommands).

Definition parent_dests_fresh (parent_parser : ArgumentParser) : bool :=
  forallb (λ a, negb (bool_decide (dest_attr a ∈ declared_dests)))
          (_actions parent_parser).

(** What holds of every declared option that has a destination: its option
    strings are long, it has a default to start from, and a [store_true]
    flag starts at [False]. *)
Definition option_ok (c : Action) : bool :=
  match dest c with
  | None => true
  | Some _ =>
      negb (short_option c)
      && match default_value (default_ c) with Some _ => true | None => false end
      && match kind c, default_ c with
         | StoreTrue, DBool false => true
         | StoreTrue, _ => false
         | _, _ => true
         end
  end.

(** An option that no group declared here lists. *)
Definition ungrouped (parser_name : string) (o : string) : bool :=
  forallb (λ g, negb (bool_decide (o ∈ _group_actions g)))
          (own_groups parser_name).

(** The three window options of [generate-ldscores]. *)
Definition window_options : list string :=
  ["--ld-wind-snps"; "--ld-wind-kb"; "--ld-wind-cm"].

(** ** Notions the properties are stated with *)

Definition chained (p : ArgumentParser) (t : Action * list string) : Prop :=
  t.1 ∈ _actions p ∧ short_option t.1 = true.

Definition tuple_flags (tuples : list (Action * list string)) : gset string :=
  list_to_set (map (λ t, flag t.1) tuples).

(** Where a mutual-exclusion error comes from. *)
Definition origin (p : ArgumentParser)
  (toks : list (string * arg_class)) (n : string) : Prop :=
  Some n ∈ map (λ t, resolved_flag t.2) toks
  ∨ ∃ a, a ∈ _actions p ∧ short_option a = true ∧ flag a = n.

(** The state [parse_known_args] starts from. *)
Definition start (p : ArgumentParser) : state := mkState (initial_namespace p) ∅ ∅ [].

(** [fresh l q]: no option string of [l] is an option string of [q]. *)
Definition fresh (l q : list Action) : Prop :=
  ∀ a s b, a ∈ l → s ∈ option_strings a → b ∈ q → s ∉ option_strings b.

(** Statements that declare options with an explicit [default=]. *)
Definition explicit_call (c : list string * kwargs) : bool :=
  bool_decide (is_Some (kw_default c.2)).

Definition explicit_stmt (s : stmt) : bool :=
  match s with
  | AddArgument args kw => explicit_call (args, kw)
  | AddMutuallyExclusiveGroup _ members => forallb explicit_call members
  | SetDefaults _ _ => false
  end.

Definition common_value : ArgumentParser :=
  mkParser common_actions common_groups ∅.

Definition with_common_value : ArgumentParser :=
  mkParser (help_action :: common_actions) common_groups ∅.

(** [a] is [b], except perhaps for the default of an action whose
    destination is [func]. *)
Definition same_but_default (a b : Action) : Prop :=
  flag a = flag b ∧ aliases a = aliases b ∧ dest a = dest b
  ∧ nargs a = nargs b ∧ kind a = kind b ∧ type_ a = type_ b
  ∧ required a = required b ∧ (dest b ≠ Some "func" → a = b).

(** What a subparser consists of: the help option, the common options, the
    parent's options, and its own, none of the parent's option strings being
    one declared here. *)
Record built (parent : ArgumentParser) (name : string) (P : ArgumentParser)
  : Prop := mkBuilt {
  built_actions :
    ∃ pa, _actions P
          = help_action :: common_actions ++ pa
              ++ script_actions (subcommand_script name)
          ∧ Forall2 same_but_default pa (_actions parent);
  built_groups :
    _mutually_exclusive_groups P
    = common_groups
        ++ copy_groups 0 (_mutually_exclusive_groups parent) parent
        ++ script_groups (subcommand_script name);
  built_fresh : fresh (_actions parent) (own_actions name)
}.

Definition tables_ok (name : string) : bool :=
  forallb (λ b, negb (bool_decide (dest b = Some "func"))) (own_actions name)
  && bool_decide (NoDup (map flag (own_actions name)))
  && bool_decide (NoDup (map dest_attr (own_actions name)))
  && forallb (λ b, bool_decide (dest b = None)
                   || bool_decide (dest_attr b ∈ declared_dests))
             (own_actions name).

(** [fa] and [fb] are declared for [name], as the two members of a group and
    of no other, with long option strings and values that always count as
    supplied. *)
Definition pair_ok (name fa fb : string) : bool :=
  match find (λ c, String.eqb (flag c) fa) (own_actions name),
        find (λ c, String.eqb (flag c) fb) (own_actions name) with
  | Some ca, Some cb =>
      never_default ca && never_default cb
      && negb (short_option ca) && negb (short_option cb)
      && forallb (λ g, if bool_decide (fa ∈ _group_actions g)
                          || bool_decide (fb ∈ _group_actions g)
                       then bool_decide (_group_actions g = [fa; fb])
                       else true)
                 (own_groups name)
      && existsb (λ g, bool_decide (_group_actions g = [fa; fb]))
                 (own_groups name)
  | _, _ => false
  end.

Definition own_action (name f : string) : option Action :=
  find (λ c, String.eqb (flag c) f) (own_actions name).

Definition found (f : string) (c : Action) : Prop :=
  find (λ c, String.eqb (flag c) f) (help_action :: common_actions) = Some c.

(** No two of the lists share a string: what [_check_conflict] asks of the
    option strings of the actions of one parser. *)
Fixpoint all_disjoint (ls : list (list string)) : bool :=
  match ls with
  | [] => true
  | x :: rest =>
      forallb (λ y, forallb (λ s, negb (bool_decide (s ∈ y))) x) rest
      && all_disjoint rest
  end.

(** The option strings the four subcommands declare, [-h] and [--help]
    included. *)
Definition declared_option_strings : list string :=
  Eval vm_compute in
    remove_dups (flat_map option_strings (flat_map own_actions subcommands)).

(** What [configure_parser] needs of [parent_parser]: no required option in
    one of its mutually exclusive groups, no option string used twice, and
    none that the subcommands declare. *)
Definition parent_compatible (parent_parser : ArgumentParser) : bool :=
  forallb (λ a, negb (required a
                      && bool_decide
                           (is_Some (last_group
                                       (_mutually_exclusive_groups parent_parser)
                                       0 (flag a)))))
          (_actions parent_parser)
  && all_disjoint (map option_strings (_actions parent_parser))
  && forallb (λ a, forallb (λ s, negb (bool_decide
                                         (s ∈ declared_option_strings)))
                           (option_strings a))
             (_actions parent_parser).

(** Declarations that cannot fail by themselves: the option strings are well
    formed, a default is given, and no member of a group is required. *)
Definition call_ok (c : list string * kwargs) : bool :=
  explicit_call c && match declared c with [] => false | _ => true end.

Definition stmt_ok (s : stmt) : bool :=
  match s with
  | AddArgument args kw => call_ok (args, kw)
  | AddMutuallyExclusiveGroup _ members =>
      forallb call_ok members && negb (existsb (λ c, kw_required c.2) members)
  | SetDefaults _ _ => true
  end.

(** ** Sample command lines *)

(** The subcommand table built over [sample_parent]. *)
Definition sample_subparsers : list (string * ArgumentParser) :=
  Eval vm_compute in
    match configure_parser sample_parent with Done s => s | _ => [] end.

Definition namespace_of (o : outcome (gmap string value)) : gmap string value :=
  match o with Done ns => ns | _ => ∅ end.

(** Sample command lines, parsed with [sample_check], and the namespaces
    they are parsed to. *)
Definition h2_argv : list string :=
  ["--h2"; "trait.sumstats.gz"; "--ref-ld-chr"; "eur_w_ld_chr/";
   "--w-ld-chr"; "eur_w_ld_chr/"; "--n-blocks"; "100"; "--invert-anyway";
   "--out"; "trait"].

Definition h2_namespace : gmap string value :=
  Eval vm_compute in namespace_of (sample_invoke 1000 "h2" h2_argv).

Definition rg_argv : list string :=
  ["--rg"; "a.sumstats.gz"; "--rg"; "b.sumstats.gz"; "--ref-ld-chr";
   "eur_w_ld_chr/"; "--w-ld-chr"; "eur_w_ld_chr/"; "--not-M-5-50"].

Definition rg_namespace : gmap string value :=
  Eval vm_compute in namespace_of (sample_invoke 1000 "rg" rg_argv).

Definition ldscore_argv : list string :=
  ["--bfile"; "22"; "--l2"; "--ld-wind-cm"; "1"; "--out"; "22"].

Definition ldscore_namespace : gmap string value :=
  Eval vm_compute in
    namespace_of (sample_invoke 1000 "generate-ldscores" ldscore_argv).

(** A command line that sets two window units. *)
Definition two_windows_argv : list string :=
  ["--bfile"; "22"; "--l2"; "--ld-wind-snps"; "10"; "--ld-wind-kb"; "1.5"].

Definition two_windows_namespace : gmap string value :=
  Eval vm_compute in
    namespace_of (sample_invoke 1000 "generate-ldscores" two_windows_argv).

(** Two command lines that name both members of an exclusive group. *)
Definition both_inclusion_argv : list string :=
  ["--bfile"; "22"; "--l2"; "--extract"; "snps.txt"; "--annot"; "22.annot.gz"].

Definition both_weights_argv : list string :=
  ["--bfile"; "22"; "--l2"; "--pq-exp"; "1"; "--per-allele"].

Definition both_w_ld_argv : list string :=
  ["--h2"; "trait.sumstats.gz"; "--w-ld"; "w"; "--w-ld-chr"; "w_chr/"].

(** Three declared options, as [add_argument] builds them. *)
Definition chunk_size_action : Action :=
  mkAction "--chunk-size" [] (Some "chunk_size") NargsNone Store TInt (DInt 50)
           false.

Definition no_intercept_action : Action :=
  mkAction "--no-intercept" [] (Some "no_intercept") NargsZero StoreTrue TNone
           (DBool false) false.

Definition frqfile_chr_action : Action :=
  mkAction "--frqfile-chr" [] (Some "frqfile_chr") NargsNone Store TStr DNone
           false.

(** Sample inputs of the stages behind the options. *)
Definition sample_alleles_match (s : string * string) : bool :=
  String.eqb s.1 s.2.

Definition sample_correction (samp_prev pop_prev : Q) : Q :=
  (pop_prev / samp_prev)%Q.



(** * Properties *)

Set Warnings "-clear-no-such-hyp".

(** ** Outcomes and loops *)

Lemma bind_Done {A B : Type} (m : outcome A) (f : A → outcome B) (b : B) :
  m ≫= f = Done b → ∃ a, m = Done a ∧ f a = Done b.
Proof. destruct m as [a| |]; simpl; intros H; try discriminate. eauto. Qed.

Lemma bind_Fail {A B : Type} (m : outcome A) (f : A → outcome B) (e : ArgError) :
  m ≫= f = Fail e → m = Fail e ∨ ∃ a, m = Done a ∧ f a = Fail e.
Proof.
  destruct m as [a| |]; simpl; intros H; try discriminate.
  - right. eauto.
  - left. by inversion H.
Qed.

Ltac inv_bind H :=
  let a := fresh "r" in
  let H1 := fresh H "_m" in
  let H2 := fresh H "_k" in
  apply bind_Done in H as (a & H1 & H2).

Lemma foldM_inv {A B : Type} (f : B → A → outcome A) (I : A → Prop)
  (Q : B → Prop) :
  (∀ b a a', Q b → I a → f b a = Done a' → I a') →
  ∀ l a a', Forall Q l → I a → foldM f l a = Done a' → I a'.
Proof.
  intros Hstep l. induction l as [|b l IH]; simpl; intros a a' HQ Ha H.
  - by inversion H; subst.
  - inv_bind H. inversion HQ as [|? ? Hb Hl]; subst.
    apply (IH r a' Hl); [|exact H_k].
    exact (Hstep b a r Hb Ha H_m).
Qed.

(** ** One action *)

Lemma call_action_other n_blocks_ok a ns v ns' k :
  call_action n_blocks_ok a ns v = Done ns' → k ≠ dest_attr a → ns' !! k = ns !! k.
Proof.
  unfold call_action, ChecknBlocks_call. intros H Hk.
  destruct (kind a); try discriminate.
  - inversion H; subst. by rewrite lookup_insert_ne.
  - inversion H; subst. by rewrite lookup_insert_ne.
  - destruct (ns !! dest_attr a) as [[]|]; inversion H; subst;
      by rewrite lookup_insert_ne.
  - destruct (n_blocks_ok v); inversion H; subst. by rewrite lookup_insert_ne.
Qed.

Lemma take_action_Done py_int py_float n_blocks_ok p a args st st' :
  take_action py_int py_float n_blocks_ok p a args st = Done st' →
  ∃ v, _get_values py_int py_float a args = Done v
       ∧ call_action n_blocks_ok a (namespace st) v = Done (namespace st')
       ∧ seen_actions st' = {[flag a]} ∪ seen_actions st
       ∧ extras st' = extras st
       ∧ ((same_object v (default_ a) = true
           ∧ seen_non_default_actions st' = seen_non_default_actions st)
          ∨ (same_object v (default_ a) = false
             ∧ seen_non_default_actions st'
               = {[flag a]} ∪ seen_non_default_actions st
             ∧ ∀ c, c ∈ action_conflicts p (flag a)
                    → c ∉ seen_non_default_actions st')).
Proof.
  unfold take_action. intros H.
  inv_bind H. rename r into v. exists v. split; [done|].
  inv_bind H_k. rename r into nd. inv_bind H_k_k. rename r into ns.
  inversion H_k_k_k; subst; simpl. repeat split; try done.
  destruct (same_object v (default_ a)).
  - left. inversion H_k_m; subst. done.
  - right. split; [done|].
    destruct (filter _ _) as [|c l] eqn:Hf; inversion H_k_m; subst.
    split; [done|]. intros c Hc Hin.
    assert (c ∈ filter (λ c, c ∈ {[flag a]} ∪ seen_non_default_actions st)
                  (action_conflicts p (flag a))) as Hcf
      by (apply list_elem_of_filter; done).
    rewrite Hf in Hcf. by apply not_elem_of_nil in Hcf.
Qed.

(** ** The tuples of one option string *)

Lemma option_string_actions_Some p s a :
  _option_string_actions p s = Some a → a ∈ _actions p ∧ s ∈ option_strings a.
Proof.
  unfold _option_string_actions. intros H. apply find_some in H as [Hin Hb].
  split; [by apply list_elem_of_In|]. by apply bool_decide_eq_true in Hb.
Qed.

Lemma option_string_actions_None p s a :
  _option_string_actions p s = None → a ∈ _actions p → s ∉ option_strings a.
Proof.
  unfold _option_string_actions. intros H Hin Hs.
  apply list_elem_of_In in Hin.
  pose proof (find_none _ _ H a Hin) as Hb. simpl in Hb.
  apply bool_decide_eq_false in Hb. done.
Qed.

Lemma match_following_next a next m :
  match_following a next = Done m → m.2 = true → is_Some next.
Proof.
  unfold match_following. destruct (nargs a), next; intros H; inversion H; subst;
    simpl; intros; done.
Qed.

Lemma explicit_loop_tuples p next e : ∀ a os acc tuples b,
  explicit_loop p next a os e acc = Done (tuples, b) →
  ∃ args more, tuples = acc ++ (a, args) :: more
               ∧ Forall (chained p) more
               ∧ (b = true → is_Some next).
Proof.
  induction e as [|x e IH]; intros a os acc tuples b H; simpl in H.
  - destruct (nargs a).
    + inversion H; subst. exists [EmptyString], []. repeat split; try done.
    + destruct os as [|c0 [|c1 ?]]; try discriminate.
      destruct (is_prefix_char c1); discriminate.
  - destruct (nargs a).
    + inversion H; subst. eexists _, []. repeat split; try done.
    + destruct os as [|c0 [|c1 ?]]; try discriminate.
      destruct (is_prefix_char c1); try discriminate.
      destruct (_option_string_actions p _) as [a'|] eqn:Ha'; try discriminate.
      apply option_string_actions_Some in Ha' as [Hin Hs].
      assert (chained p (a', [] : list string) ∧ ∀ l, chained p (a', l)) as [_ Hch].
      { split; split; simpl; try done;
          apply existsb_exists; eexists; (split; [by apply list_elem_of_In|done]). }
      destruct e as [|y e'].
      * inv_bind H. inversion H_k; subst.
        exists [], [(a', r.1)]. split; [by rewrite <- app_assoc|].
        split; [constructor; [apply Hch|constructor]|].
        intros Hb. by eapply match_following_next.
      * apply IH in H as (args & more & -> & Hmore & Hb).
        exists [], ((a', args) :: more). split; [by rewrite <- app_assoc|].
        split; [constructor; [apply Hch|done]|done].
Qed.

Lemma consume_optional_tuples p next a os e tuples b :
  consume_optional p next a os e = Done (tuples, b) →
  ∃ args more, tuples = (a, args) :: more
               ∧ Forall (chained p) more
               ∧ (b = true → is_Some next).
Proof.
  unfold consume_optional. destruct e as [e|]; intros H.
  - by apply explicit_loop_tuples in H.
  - inv_bind H. inversion H_k; subst. exists r.1, [].
    repeat split; try done. intros Hb. by eapply match_following_next.
Qed.

(** ** The main loop *)

Section Consume.

Context (py_int : string → option Z) (py_float : string → option float)
        (n_blocks_ok : value → bool) (p : ArgumentParser).

Abbreviation take_action' := (take_action py_int py_float n_blocks_ok p).
Abbreviation take_actions' := (take_actions py_int py_float n_blocks_ok p).
Abbreviation consume' := (consume py_int py_float n_blocks_ok p).

Lemma consume_option_eq s a os e rest st :
  consume' ((s, ClsO (Some a) os e) :: rest) st
  = consume_optional p (following_argument rest) a os e
    ≫= λ plan : list (Action * list string) * bool,
         take_actions' plan.1 st
         ≫= λ st', consume' (if plan.2 then tl rest else rest) st'.
Proof.
  simpl. destruct (consume_optional _ _ _ _ _) as [[tuples b]| |]; simpl; try done.
  destruct (take_actions' tuples st) as [st1| |]; simpl; try done.
  by destruct b, rest.
Qed.

Lemma consume_extra_eq s c rest st :
  resolved_flag c = None →
  consume' ((s, c) :: rest) st = consume' rest (add_extra s st).
Proof. destruct c as [| |[a|] ? ?|]; simpl; intros H; done. Qed.

(** Induction over a run of the main loop that returns. *)
Lemma consume_Done_ind (R : list (string * arg_class) → state → state → Prop) :
  (∀ st, R [] st st) →
  (∀ s c rest st st',
     resolved_flag c = None →
     R rest (add_extra s st) st' → R ((s, c) :: rest) st st') →
  (∀ s a os e rest st tuples b st1 st',
     consume_optional p (following_argument rest) a os e = Done (tuples, b) →
     take_actions' tuples st = Done st1 →
     R (if b then tl rest else rest) st1 st' →
     R ((s, ClsO (Some a) os e) :: rest) st st') →
  ∀ toks st st', consume' toks st = Done st' → R toks st st'.
Proof.
  intros Hnil Hext Hopt toks.
  remember (length toks) as n eqn:Hn. revert toks Hn.
  induction n as [n IH] using lt_wf_ind. intros toks Hn st st' H.
  destruct toks as [|[s c] rest].
  - inversion H; subst. apply Hnil.
  - destruct (resolved_flag c) as [f|] eqn:Hc.
    + destruct c as [| |[a|] os e|]; try discriminate.
      rewrite consume_option_eq in H.
      inv_bind H. destruct r as [tuples b]. inv_bind H_k. simpl in *.
      eapply Hopt; eauto.
      eapply (IH (length (if b then tl rest else rest))); eauto.
      subst n. destruct b, rest; simpl; lia.
    + rewrite consume_extra_eq in H by done.
      apply Hext; [done|]. eapply (IH (length rest)); eauto. subst n. simpl. lia.
Qed.

(** A property of the state that every action taken and every extra
    preserves holds when the loop returns.  [Q] singles out the actions that
    can be taken: those the first pass resolved, and those a chain of
    single-dash flags reaches. *)
Lemma consume_invariant (I : state → Prop) (Q : Action → Prop) :
  (∀ a args st st', Q a → I st → take_action' a args st = Done st' → I st') →
  (∀ s st, I st → I (add_extra s st)) →
  (∀ a, a ∈ _actions p → short_option a = true → Q a) →
  ∀ toks st st',
    Forall (λ t, ∀ a os e, t.2 = ClsO (Some a) os e → Q a) toks →
    I st → consume' toks st = Done st' → I st'.
Proof.
  intros Htake Hextra Hshort toks st st' Htoks HI H. revert Htoks HI.
  pattern toks, st, st'. revert toks st st' H. apply consume_Done_ind.
  - done.
  - intros s c rest st st' _ IH Htoks HI. apply IH; [|by apply Hextra].
    by inversion Htoks.
  - intros s a os e rest st tuples b st1 st' Hplan Htk IH Htoks HI.
    inversion Htoks as [|? ? Ha Hrest]; subst.
    apply IH.
    + destruct b; [|done]. destruct rest; [done|]. by inversion Hrest.
    + apply consume_optional_tuples in Hplan as (args & more & -> & Hmore & _).
      unfold take_actions in Htk.
      eapply (foldM_inv _ I (λ t, Q t.1)); [| |exact HI|exact Htk].
      * intros [a0 args0] st0 st0' HQ HI0 Hst0. simpl in *. eauto.
      * constructor; [simpl; by eapply Ha|].
        eapply Forall_impl; [exact Hmore|]. intros [a0 args0] [Hin Hsh].
        simpl in *. by apply Hshort.
Qed.

End Consume.

(** ** What has been seen *)

Section Seen.

Context (py_int : string → option Z) (py_float : string → option float)
        (n_blocks_ok : value → bool) (p : ArgumentParser).

Abbreviation take_action' := (take_action py_int py_float n_blocks_ok p).
Abbreviation take_actions' := (take_actions py_int py_float n_blocks_ok p).
Abbreviation consume' := (consume py_int py_float n_blocks_ok p).

Lemma get_value_never_default a s v :
  never_default a = true → _get_value py_int py_float a s = Done v →
  same_object v (default_ a) = false.
Proof.
  unfold never_default, _get_value.
  destruct (type_ a); intros Hnd H;
    try (inversion H; subst; done);
    try (destruct (py_float s); inversion H; subst; done).
  destruct (py_int s); inversion H; subst. simpl.
  destruct (default_ a); done.
Qed.

Lemma get_values_never_default a args v :
  never_default a = true → _get_values py_int py_float a args = Done v →
  same_object v (default_ a) = false.
Proof.
  unfold _get_values. intros Hnd H.
  destruct (nargs a), (remove_first "--" args) as [|s [|s' l]];
    try (by eapply get_value_never_default);
    inv_bind H; inversion H_k; subst; done.
Qed.

Lemma take_action_seen a args st st' :
  take_action' a args st = Done st' →
  seen_actions st' = {[flag a]} ∪ seen_actions st
  ∧ seen_non_default_actions st ⊆ seen_non_default_actions st'
  ∧ seen_non_default_actions st' ⊆ {[flag a]} ∪ seen_non_default_actions st
  ∧ (never_default a = true → flag a ∈ seen_non_default_actions st').
Proof.
  intros H. apply take_action_Done in H
    as (v & Hv & _ & Hseen & _ & [[Hso Hnd]|(Hso & Hnd & _)]).
  - rewrite Hnd. repeat split; [done|done|clear; set_solver|].
    intros Ha. rewrite (get_values_never_default _ _ _ Ha Hv) in Hso. done.
  - rewrite Hnd. repeat split; [done|clear; set_solver|done|clear; set_solver].
Qed.

Lemma take_actions_seen tuples : ∀ st st',
  take_actions' tuples st = Done st' →
  seen_actions st' = tuple_flags tuples ∪ seen_actions st
  ∧ seen_non_default_actions st ⊆ seen_non_default_actions st'
  ∧ seen_non_default_actions st'
      ⊆ tuple_flags tuples ∪ seen_non_default_actions st
  ∧ ∀ t, t ∈ tuples → never_default t.1 = true →
         flag t.1 ∈ seen_non_default_actions st'.
Proof.
  unfold take_actions, tuple_flags.
  induction tuples as [|[a args] tuples IH]; simpl; intros st st' H.
  - inversion H; subst. repeat split; [clear; set_solver|done|clear; set_solver|].
    intros t Ht. by apply not_elem_of_nil in Ht.
  - inv_bind H. apply take_action_seen in H_m as (Hs & Hn1 & Hn2 & Hn3).
    apply IH in H_k as (Hs' & Hn1' & Hn2' & Hn3').
    repeat split.
    { rewrite Hs', Hs. clear. set_solver. }
    { by etrans. }
    { etrans; [exact Hn2'|]. clear -Hn2. set_solver. }
    intros t Ht Hnd. apply elem_of_cons in Ht as [->|Ht]; [|by apply Hn3'].
    apply Hn1'. by apply Hn3.
Qed.

(** An action that has been seen was resolved by the first pass or reached
    by a chain of single-dash flags. *)
Lemma consume_seen_origin toks st st' n :
  consume' toks st = Done st' →
  n ∈ seen_actions st' →
  n ∈ seen_actions st
  ∨ Some n ∈ map (λ t, resolved_flag t.2) toks
  ∨ ∃ a, a ∈ _actions p ∧ short_option a = true ∧ flag a = n.
Proof.
  intros H. revert n. pattern toks, st, st'. revert toks st st' H.
  apply consume_Done_ind.
  - intros st n Hn. by left.
  - intros s c rest st st' Hc IH n Hn.
    destruct (IH n Hn) as [?|[?|?]]; [by left| |by right; right].
    right; left. simpl. by apply elem_of_cons; right.
  - intros s a os e rest st tuples b st1 st' Hplan Htk IH n Hn.
    apply consume_optional_tuples in Hplan as (args & more & -> & Hmore & _).
    apply take_actions_seen in Htk as (Hs & _).
    destruct (IH n Hn) as [Hn1|[Hn1|Hn1]]; [| |by right; right].
    + rewrite Hs in Hn1. unfold tuple_flags in Hn1. simpl in Hn1.
      apply elem_of_union in Hn1 as [Hn1|Hn1]; [|by left].
      apply elem_of_union in Hn1 as [Hn1|Hn1].
      * right; left. simpl. apply elem_of_singleton in Hn1 as ->.
        apply elem_of_cons; by left.
      * right; right. apply elem_of_list_to_set in Hn1.
        apply list_elem_of_fmap in Hn1 as ([a0 args0] & -> & Hin).
        rewrite Forall_forall in Hmore. destruct (Hmore _ Hin) as [Ha0 Hsh].
        by exists a0.
    + right; left. simpl. apply elem_of_cons; right.
      destruct b; [|done]. destruct rest; [done|].
      simpl in *. by apply elem_of_cons; right.
Qed.

(** Every option the first pass resolved has been seen when the loop
    returns. *)
Lemma consume_resolved_seen toks st st' :
  consume' toks st = Done st' →
  seen_actions st ⊆ seen_actions st'
  ∧ seen_non_default_actions st ⊆ seen_non_default_actions st'
  ∧ ∀ s a os e, (s, ClsO (Some a) os e) ∈ toks →
      flag a ∈ seen_actions st'
      ∧ (never_default a = true → flag a ∈ seen_non_default_actions st').
Proof.
  intros H. pattern toks, st, st'. revert toks st st' H.
  apply consume_Done_ind.
  - intros st. split; [done|]. split; [done|]. intros ? ? ? ? Hin.
    by apply not_elem_of_nil in Hin.
  - intros s c rest st st' Hc (IH1 & IH2 & IH3).
    split; [done|]. split; [done|].
    intros s0 a os e Hin. apply elem_of_cons in Hin as [Heq|Hin].
    + inversion Heq; subst. discriminate.
    + by apply (IH3 s0 a os e).
  - intros s a os e rest st tuples b st1 st' Hplan Htk (IH1 & IH2 & IH3).
    apply consume_optional_tuples in Hplan as (args & more & -> & Hmore & Hb).
    apply take_actions_seen in Htk as (Hs & Hn1 & Hn2 & Hn3).
    assert (∀ s0 a0 os0 e0, (s0, ClsO (Some a0) os0 e0) ∈ rest →
            (s0, ClsO (Some a0) os0 e0) ∈ (if b then tl rest else rest)) as Hrest.
    { intros s0 a0 os0 e0 Hin. destruct b; [|done].
      destruct (Hb eq_refl) as [v Hv]. destruct rest as [|[v' c'] rest']; [done|].
      simpl in *. destruct c'; try discriminate.
      apply elem_of_cons in Hin as [Heq|Hin]; [discriminate|done]. }
    split; [|split].
    + etrans; [|exact IH1]. rewrite Hs. clear. set_solver.
    + by etrans.
    + intros s0 a0 os0 e0 Hin. apply elem_of_cons in Hin as [Heq|Hin].
      * inversion Heq; subst. split.
        -- apply IH1. rewrite Hs. unfold tuple_flags. simpl. clear. set_solver.
        -- intros Hnd. apply IH2. apply (Hn3 (a, args)); [|done].
           apply elem_of_cons; by left.
      * by apply (IH3 s0 a0 os0 e0), Hrest.
Qed.

End Seen.

(** ** Mutually exclusive groups *)

Section Mutex.

Context (py_int : string → option Z) (py_float : string → option float)
        (n_blocks_ok : value → bool) (p : ArgumentParser).

Abbreviation take_action' := (take_action py_int py_float n_blocks_ok p).
Abbreviation take_actions' := (take_actions py_int py_float n_blocks_ok p).
Abbreviation consume' := (consume py_int py_float n_blocks_ok p).

(** Two options that exclude each other are never both counted as present. *)
Lemma consume_exclusive toks st st' fa fb :
  fb ∈ action_conflicts p fa → fa ∈ action_conflicts p fb →
  consume' toks st = Done st' →
  ¬ (fa ∈ seen_non_default_actions st ∧ fb ∈ seen_non_default_actions st) →
  ¬ (fa ∈ seen_non_default_actions st' ∧ fb ∈ seen_non_default_actions st').
Proof.
  intros Hab Hba H Hst.
  eapply (consume_invariant py_int py_float n_blocks_ok p
            (λ st, ¬ (fa ∈ seen_non_default_actions st
                      ∧ fb ∈ seen_non_default_actions st))
            (λ _ : Action, True)); [| | | |exact Hst|exact H]; try done.
  - intros a args st0 st0' _ HI Htk [Ha Hb].
    apply take_action_Done in Htk
      as (v & _ & _ & _ & _ & [[_ Hnd]|(_ & Hnd & Hconf)]).
    + rewrite Hnd in Ha, Hb. by apply HI.
    + destruct (decide (flag a = fa)) as [Hfa|Hfa].
      { subst fa. by apply (Hconf fb). }
      destruct (decide (flag a = fb)) as [Hfb|Hfb].
      { subst fb. by apply (Hconf fa). }
      apply HI. rewrite Hnd in Ha, Hb. clear -Ha Hb Hfa Hfb. set_solver.
  - apply Forall_forall. done.
Qed.

Lemma origin_cons t toks n : origin p toks n → origin p (t :: toks) n.
Proof.
  intros [H|H]; [left|by right]. simpl. apply elem_of_cons. by right.
Qed.

Lemma origin_skip (b : bool) t toks n :
  origin p (if b then tl toks else toks) n → origin p (t :: toks) n.
Proof.
  intros H. apply origin_cons. destruct b; [|done].
  destruct toks; [done|]. by apply origin_cons.
Qed.

Lemma get_value_Fail a s e :
  _get_value py_int py_float a s = Fail e → ∃ t, e = InvalidValue (flag a) t s.
Proof.
  unfold _get_value. destruct (type_ a); try discriminate.
  - destruct (py_int s); intros H; inversion H; eauto.
  - destruct (py_float s); intros H; inversion H; eauto.
Qed.

Lemma get_value_list_Fail a l e :
  _get_value_list py_int py_float a l = Fail e → ∃ t s, e = InvalidValue (flag a) t s.
Proof.
  induction l as [|s l IH]; simpl; [discriminate|]. intros H.
  apply bind_Fail in H as [H|(v & _ & H)].
  - apply get_value_Fail in H as [t ->]. eauto.
  - apply bind_Fail in H as [H|(vs & _ & H)]; [by apply IH|discriminate].
Qed.

Lemma get_values_Fail a args e :
  _get_values py_int py_float a args = Fail e → ∃ t s, e = InvalidValue (flag a) t s.
Proof.
  unfold _get_values. intros H.
  destruct (nargs a), (remove_first "--" args) as [|s [|s' l]];
    try (apply get_value_Fail in H as [t ->]; eauto; fail);
    (apply bind_Fail in H as [H|(vs & _ & H)];
     [by eapply get_value_list_Fail|discriminate]).
Qed.

Lemma call_action_Fail a ns v e :
  call_action n_blocks_ok a ns v = Fail e →
  (∃ m, e = PyAttributeError m) ∨ (∃ f w, e = ConfigurationError f w).
Proof.
  unfold call_action, ChecknBlocks_call.
  destruct (kind a); try discriminate.
  - destruct (ns !! dest_attr a) as [[]|]; intros H; inversion H; eauto.
  - destruct (n_blocks_ok v); intros H; inversion H; eauto.
Qed.

Lemma take_action_NotAllowedWith a args st x y :
  take_action' a args st = Fail (NotAllowedWith x y) →
  x = flag a ∧ y ∈ action_conflicts p x
  ∧ y ∈ ({[flag a]} ∪ seen_non_default_actions st : gset string).
Proof.
  unfold take_action. intros H.
  apply bind_Fail in H as [H|(v & _ & H)].
  { apply get_values_Fail in H as (t & s & H). discriminate. }
  apply bind_Fail in H as [H|(nd & _ & H)].
  - destruct (same_object v (default_ a)); [discriminate|].
    destruct (filter _ _) as [|c l] eqn:Hf; inversion H; subst.
    assert (y ∈ filter (λ c, c ∈ {[flag a]} ∪ seen_non_default_actions st)
                  (action_conflicts p (flag a))) as Hin
      by (rewrite Hf; apply elem_of_cons; by left).
    apply list_elem_of_filter in Hin as [? ?]. done.
  - apply bind_Fail in H as [H|(ns & _ & H)]; [|discriminate].
    apply call_action_Fail in H as [[m H]|(f & w & H)]; discriminate.
Qed.

Lemma take_actions_NotAllowedWith tuples : ∀ st x y,
  take_actions' tuples st = Fail (NotAllowedWith x y) →
  y ∈ action_conflicts p x
  ∧ x ∈ tuple_flags tuples
  ∧ y ∈ tuple_flags tuples ∪ seen_non_default_actions st.
Proof.
  unfold take_actions, tuple_flags.
  induction tuples as [|[a args] tuples IH]; simpl; intros st x y H;
    [discriminate|].
  apply bind_Fail in H as [H|(st1 & Hst1 & H)].
  - apply take_action_NotAllowedWith in H as (-> & Hc & Hy).
    split; [done|]. split; [clear; set_solver|clear -Hy; set_solver].
  - apply IH in H as (Hc & Hx & Hy). split; [done|].
    apply take_action_seen in Hst1 as (_ & _ & Hnd & _).
    split; [clear -Hx; set_solver|clear -Hy Hnd; set_solver].
Qed.

Lemma match_following_Fail a next e :
  match_following a next = Fail e → e = ExpectedOneArgument (flag a).
Proof.
  unfold match_following. destruct (nargs a), next; intros H; by inversion H.
Qed.

Lemma explicit_loop_Fail next e : ∀ a os acc x y,
  explicit_loop p next a os e acc ≠ Fail (NotAllowedWith x y).
Proof.
  induction e as [|c e IH]; intros a os acc x y H; simpl in H.
  - destruct (nargs a); [discriminate|].
    destruct os as [|c0 [|c1 ?]]; try discriminate.
    destruct (is_prefix_char c1); discriminate.
  - destruct (nargs a); [discriminate|].
    destruct os as [|c0 [|c1 ?]]; try discriminate.
    destruct (is_prefix_char c1); try discriminate.
    destruct (_option_string_actions p _) as [a'|]; try discriminate.
    destruct e as [|c' e'].
    + apply bind_Fail in H as [H|(m & _ & H)]; [|discriminate].
      apply match_following_Fail in H. discriminate.
    + by eapply IH.
Qed.

Lemma consume_optional_Fail next a os e x y :
  consume_optional p next a os e ≠ Fail (NotAllowedWith x y).
Proof.
  unfold consume_optional. destruct e as [e|].
  - apply explicit_loop_Fail.
  - intros H. apply bind_Fail in H as [H|(m & _ & H)]; [|discriminate].
    apply match_following_Fail in H. discriminate.
Qed.

Lemma tuple_flags_origin s a os e rest args more n :
  Forall (chained p) more →
  n ∈ tuple_flags ((a, args) :: more) →
  origin p ((s, ClsO (Some a) os e) :: rest) n.
Proof.
  unfold tuple_flags. simpl. intros Hmore Hn.
  apply elem_of_union in Hn as [Hn|Hn].
  - left. simpl. apply elem_of_singleton in Hn as ->. apply elem_of_cons; by left.
  - right. apply elem_of_list_to_set in Hn.
    apply list_elem_of_fmap in Hn as ([a0 args0] & -> & Hin).
    rewrite Forall_forall in Hmore. destruct (Hmore _ Hin) as [Ha0 Hsh].
    by exists a0.
Qed.

(** A mutual-exclusion error names two options of one group, both of which
    the command line brought in. *)
Lemma consume_NotAllowedWith toks : ∀ st x y,
  consume' toks st = Fail (NotAllowedWith x y) →
  y ∈ action_conflicts p x
  ∧ origin p toks x
  ∧ (y ∈ seen_non_default_actions st ∨ origin p toks y).
Proof.
  remember (length toks) as n eqn:Hn. revert toks Hn.
  induction n as [n IH] using lt_wf_ind. intros toks Hn st x y H.
  destruct toks as [|[s c] rest]; [discriminate|].
  destruct (resolved_flag c) as [f|] eqn:Hc.
  - destruct c as [| |[a|] os e|]; try discriminate.
    rewrite consume_option_eq in H.
    apply bind_Fail in H as [H|([tuples b] & Hplan & H)].
    { by apply consume_optional_Fail in H. }
    apply consume_optional_tuples in Hplan as (args & more & -> & Hmore & _).
    simpl in H. apply bind_Fail in H as [H|(st1 & Hst1 & H)].
    + apply take_actions_NotAllowedWith in H as (Hc' & Hx & Hy).
      split; [done|]. split; [by eapply tuple_flags_origin|].
      apply elem_of_union in Hy as [Hy|Hy]; [right|by left].
      by eapply tuple_flags_origin.
    + eapply (IH (length (if b then tl rest else rest))) in H; [|subst n|done].
      2: { destruct b, rest; simpl; lia. }
      destruct H as (Hc' & Hx & Hy). split; [done|].
      split; [by eapply origin_skip|].
      destruct Hy as [Hy|Hy]; [|right; by eapply origin_skip].
      apply take_actions_seen in Hst1 as (_ & _ & Hnd & _).
      apply Hnd in Hy. apply elem_of_union in Hy as [Hy|Hy]; [right|by left].
      by eapply tuple_flags_origin.
  - rewrite consume_extra_eq in H by done.
    eapply (IH (length rest)) in H; [|subst n; simpl; lia|done].
    destruct H as (Hc' & Hx & Hy). split; [done|].
    split; [by apply origin_cons|].
    destruct Hy as [Hy|Hy]; [by left|right; by apply origin_cons].
Qed.

End Mutex.

(** ** The first pass *)

Lemma option_table_actions p sa : sa ∈ option_table p → sa.2 ∈ _actions p.
Proof.
  unfold option_table. intros H. apply list_elem_of_In in H.
  apply in_flat_map in H as (a & Ha & Hsa). apply in_map_iff in Hsa as (s & <- & _).
  by apply list_elem_of_In.
Qed.

Lemma get_option_tuples_actions p s t :
  t ∈ _get_option_tuples p s → t.1.1 ∈ _actions p.
Proof.
  unfold _get_option_tuples. destruct s as [|c0 [|c1 tail]]; try by intros ?%not_elem_of_nil.
  destruct (is_prefix_char c0 && is_prefix_char c1).
  - destruct (if str_contains "=" _ then _ else _) as [prefix explicit].
    intros H. apply list_elem_of_omap in H as (sa & Hsa & H).
    destruct (String.prefix _ _); inversion H; subst. simpl.
    by apply option_table_actions.
  - destruct (is_prefix_char c0); [|by intros ?%not_elem_of_nil].
    intros H. apply list_elem_of_omap in H as (sa & Hsa & H).
    destruct (String.eqb _ _); [|destruct (String.prefix _ _)]; inversion H; subst;
      simpl; by apply option_table_actions.
Qed.

Lemma parse_optional_action p s a os e :
  _parse_optional p s = ClsO (Some a) os e → a ∈ _actions p.
Proof.
  unfold _parse_optional. destruct s as [|c0 tail]; [discriminate|].
  destruct (negb (is_prefix_char c0)); [discriminate|].
  destruct (_option_string_actions p (String c0 tail)) as [a0|] eqn:Ha0.
  { intros H; inversion H; subst. by apply option_string_actions_Some in Ha0 as []. }
  destruct tail as [|c1 tail]; [discriminate|].
  destruct (str_contains "=" _).
  - destruct (split_once "=" _) as [l r].
    destruct (_option_string_actions p l) as [a1|] eqn:Ha1.
    { intros H; inversion H; subst. by apply option_string_actions_Some in Ha1 as []. }
    destruct (_get_option_tuples p _) as [|[[a2 s2] e2] [|t2 l2]] eqn:Ht;
      try discriminate.
    + destruct (_ && _); [discriminate|]. destruct (str_contains " " _); discriminate.
    + intros H; inversion H; subst.
      apply (get_option_tuples_actions p (String c0 (String c1 tail)) (a, os, e)).
      rewrite Ht. apply elem_of_cons; by left.
  - destruct (_get_option_tuples p _) as [|[[a2 s2] e2] [|t2 l2]] eqn:Ht;
      try discriminate.
    + destruct (_ && _); [discriminate|]. destruct (str_contains " " _); discriminate.
    + intros H; inversion H; subst.
      apply (get_option_tuples_actions p (String c0 (String c1 tail)) (a, os, e)).
      rewrite Ht. apply elem_of_cons; by left.
Qed.

Lemma classify_length p args : length (classify p args) = length args.
Proof.
  induction args as [|s args IH]; simpl; [done|].
  destruct (String.eqb s "--"); simpl; [|by rewrite IH].
  by rewrite length_map.
Qed.

Lemma classify_actions p args :
  Forall (λ c, ∀ a os e, c = ClsO (Some a) os e → a ∈ _actions p)
         (classify p args).
Proof.
  induction args as [|s args IH]; simpl; [constructor|].
  destruct (String.eqb s "--").
  - constructor; [done|]. apply Forall_forall. intros c Hc.
    apply list_elem_of_fmap in Hc as (? & -> & _). done.
  - constructor; [|done]. intros a os e H. by eapply parse_optional_action.
Qed.

Lemma zip_resolved (args : list string) : ∀ cs : list arg_class,
  length cs = length args →
  map (λ t : string * arg_class, resolved_flag t.2) (zip args cs)
  = map resolved_flag cs.
Proof.
  induction args as [|s args IH]; intros [|c cs] Hl; simpl in *; try done.
  f_equal. apply IH. lia.
Qed.

Lemma zip_Forall_snd (P : arg_class → Prop) (args : list string) :
  ∀ cs, Forall P cs →
        Forall (λ t : string * arg_class, P t.2) (zip args cs).
Proof.
  induction args as [|s args IH]; intros [|c cs] H; simpl; try constructor.
  - by inversion H.
  - apply IH. by inversion H.
Qed.

Lemma zip_elem_snd (args : list string) : ∀ (cs : list arg_class) t,
  t ∈ zip args cs → t.2 ∈ cs.
Proof.
  induction args as [|s args IH]; intros [|c cs] t H; simpl in *;
    try by apply not_elem_of_nil in H.
  apply elem_of_cons in H as [->|H]; apply elem_of_cons; [by left|right].
  by apply IH.
Qed.

Lemma elem_zip_classify (args : list string) : ∀ (cs : list arg_class) c,
  length cs = length args → c ∈ cs → ∃ s, (s, c) ∈ zip args cs.
Proof.
  induction args as [|s args IH]; intros [|c0 cs] c Hl H; simpl in *;
    try done; try by apply not_elem_of_nil in H.
  apply elem_of_cons in H as [->|H].
  - exists s. apply elem_of_cons; by left.
  - destruct (IH cs c) as [s' Hs']; [lia|done|].
    exists s'. apply elem_of_cons; by right.
Qed.

Lemma supplies_spec p o args :
  supplies p o args = true
  ↔ Some o ∈ map (λ t : string * arg_class, resolved_flag t.2)
                 (zip args (classify p args)).
Proof.
  unfold supplies. rewrite zip_resolved by apply classify_length.
  apply bool_decide_eq_true.
Qed.

Lemma supplies_token p o args :
  supplies p o args = true →
  ∃ s a os e, (s, ClsO (Some a) os e) ∈ zip args (classify p args)
              ∧ flag a = o ∧ a ∈ _actions p.
Proof.
  unfold supplies. intros H. apply bool_decide_eq_true in H.
  apply list_elem_of_fmap in H as (c & Hc & Hin).
  destruct c as [| |[a|] os e|]; try discriminate. inversion Hc; subst.
  destruct (elem_zip_classify args (classify p args) _ (classify_length p args) Hin)
    as [s Hs].
  exists s, a, os, e. repeat split; [done|].
  pose proof (classify_actions p args) as Hall. rewrite Forall_forall in Hall.
  by eapply Hall.
Qed.

(** ** [parse_args] *)

Section ParseArgs.

Context (py_int : string → option Z) (py_float : string → option float)
        (n_blocks_ok : value → bool) (p : ArgumentParser).

Abbreviation consume' := (consume py_int py_float n_blocks_ok p).
Abbreviation parse_args' := (parse_args py_int py_float n_blocks_ok p).

Lemma parse_args_Done args ns :
  parse_args' args = Done ns →
  ∃ st, consume' (zip args (classify p args)) (start p) = Done st
        ∧ missing_required p st = []
        ∧ namespace st = ns.
Proof.
  unfold parse_args, parse_known_args. intros H. inv_bind H.
  destruct (first_ambiguous _); [discriminate|].
  inv_bind H_m. exists r0. split; [done|].
  destruct (missing_required p r0); [|discriminate].
  destruct (unmet_groups p r0); [|discriminate].
  inversion H_m_k; subst. simpl in H_k.
  destruct (extras r0); inversion H_k. done.
Qed.

Lemma parse_args_NotAllowedWith args x y :
  parse_args' args = Fail (NotAllowedWith x y) →
  consume' (zip args (classify p args)) (start p) = Fail (NotAllowedWith x y).
Proof.
  unfold parse_args, parse_known_args. intros H.
  apply bind_Fail in H as [H|(r & _ & H)].
  - destruct (first_ambiguous (classify p args)) as [e|] eqn:Hamb.
    { inversion H; subst. clear -Hamb. exfalso.
      induction (classify p args) as [|c cs IH]; simpl in Hamb; [done|].
      destruct c; try (by apply IH); discriminate. }
    apply bind_Fail in H as [H|(st & _ & H)]; [done|].
    destruct (missing_required p st); [|discriminate].
    destruct (unmet_groups p st); discriminate.
  - destruct (r.2); discriminate.
Qed.

Lemma missing_required_nil st a :
  missing_required p st = [] → a ∈ _actions p → required a = true →
  flag a ∈ seen_actions st.
Proof.
  unfold missing_required. intros H Ha Hr.
  destruct (decide (flag a ∈ seen_actions st)) as [|Hn]; [done|].
  assert (flag a ∈ omap (λ a, if required a
                              && negb (bool_decide (flag a ∈ seen_actions st))
                              then Some (flag a) else None) (_actions p)) as Hin.
  { apply list_elem_of_omap. exists a. split; [done|].
    rewrite Hr. simpl. by rewrite bool_decide_eq_false_2. }
  rewrite H in Hin. by apply not_elem_of_nil in Hin.
Qed.

End ParseArgs.

(** ** Building parsers *)

Lemma fresh_nil q : fresh [] q.
Proof. intros a s b Ha. by apply not_elem_of_nil in Ha. Qed.

Lemma fresh_app l1 l2 q : fresh l1 q → fresh l2 q → fresh (l1 ++ l2) q.
Proof.
  intros H1 H2 a s b Ha. apply elem_of_app in Ha as [Ha|Ha]; eauto.
Qed.

Lemma fresh_weaken l q q' : fresh l (q ++ q') → fresh l q.
Proof. intros H a s b Ha Hs Hb. apply (H a s b); try done. apply elem_of_app; by left. Qed.

Lemma add_action_Done a q q' :
  _add_action a q = Done q' →
  q' = mkParser (_actions q ++ [a]) (_mutually_exclusive_groups q) (_defaults q)
  ∧ fresh [a] (_actions q).
Proof.
  unfold _add_action.
  destruct (filter _ _) as [|s0 l] eqn:Hf; intros H; inversion H; subst.
  split; [done|]. intros a0 s b Ha0 Hs Hb.
  apply list_elem_of_singleton in Ha0 as ->.
  destruct (_option_string_actions q s) as [b0|] eqn:Hl.
  - assert (s ∈ filter (λ s, is_Some (_option_string_actions q s))
                (option_strings a)) as Hin.
    { apply list_elem_of_filter. split; [|done]. rewrite Hl. eauto. }
    rewrite Hf in Hin. by apply not_elem_of_nil in Hin.
  - by eapply option_string_actions_None.
Qed.

Lemma foldM_add_container_action c l : ∀ q q',
  foldM (_add_container_action c) l q = Done q' →
  _actions q' = _actions q ++ l
  ∧ _mutually_exclusive_groups q' = _mutually_exclusive_groups q
  ∧ _defaults q' = _defaults q
  ∧ fresh l (_actions q).
Proof.
  induction l as [|a l IH]; simpl; intros q q' H.
  - inversion H; subst. rewrite app_nil_r. repeat split; try done. apply fresh_nil.
  - inv_bind H. unfold _add_container_action in H_m.
    destruct (_ && _); [discriminate|].
    apply add_action_Done in H_m as [-> Hfr].
    apply IH in H_k as (Ha & Hg & Hd & Hfr'). simpl in *.
    rewrite Ha, <- app_assoc. repeat split; try done.
    apply (fresh_app [a] l); [done|]. by eapply fresh_weaken.
Qed.

Lemma add_container_actions_Done c q q' :
  _add_container_actions c q = Done q' →
  _actions q' = _actions q ++ _actions c
  ∧ _mutually_exclusive_groups q'
    = _mutually_exclusive_groups q
        ++ copy_groups 0 (_mutually_exclusive_groups c) c
  ∧ _defaults q' = _defaults c ∪ _defaults q
  ∧ fresh (_actions c) (_actions q).
Proof.
  unfold _add_container_actions. intros H. inv_bind H.
  apply foldM_add_container_action in H_m as (Ha & Hg & Hd & Hfr).
  inversion H_k; subst; simpl in *. rewrite Hd. done.
Qed.

Lemma make_action_explicit args kw d :
  explicit_call (args, kw) = true →
  make_action args kw d = make_action args kw ∅.
Proof.
  unfold explicit_call, make_action. simpl. intros H.
  apply bool_decide_eq_true in H as [v Hv].
  destruct args; [done|]. rewrite Hv. done.
Qed.

Lemma add_argument_Done args kw q q' :
  explicit_call (args, kw) = true →
  add_argument args kw q = Done q' →
  _actions q' = _actions q ++ declared (args, kw)
  ∧ _mutually_exclusive_groups q' = _mutually_exclusive_groups q
  ∧ _defaults q' = _defaults q
  ∧ fresh (declared (args, kw)) (_actions q).
Proof.
  unfold add_argument, declared. intros He H.
  rewrite (make_action_explicit _ _ _ He) in H. simpl.
  inv_bind H. rewrite H_m. apply add_action_Done in H_k as [-> Hfr]. done.
Qed.

Lemma add_arguments_Done members : ∀ q q',
  forallb explicit_call members = true →
  add_arguments members q = Done q' →
  _actions q' = _actions q ++ flat_map declared members
  ∧ _mutually_exclusive_groups q' = _mutually_exclusive_groups q
  ∧ _defaults q' = _defaults q
  ∧ fresh (flat_map declared members) (_actions q).
Proof.
  unfold add_arguments.
  induction members as [|[args kw] members IH]; simpl; intros q q' He H.
  - inversion H; subst. rewrite app_nil_r. repeat split; try done. apply fresh_nil.
  - apply andb_true_iff in He as [He1 He2]. inv_bind H.
    apply add_argument_Done in H_m as (Ha & Hg & Hd & Hfr); [|done].
    apply IH in H_k as (Ha' & Hg' & Hd' & Hfr'); [|done].
    rewrite Ha', Ha, <- app_assoc, Hg', Hg, Hd', Hd. repeat split; try done.
    apply fresh_app; [done|]. rewrite Ha in Hfr'. by eapply fresh_weaken.
Qed.

Lemma run_script_Done script : ∀ q q',
  forallb explicit_stmt script = true →
  run_script script q = Done q' →
  _actions q' = _actions q ++ script_actions script
  ∧ _mutually_exclusive_groups q'
    = _mutually_exclusive_groups q ++ script_groups script
  ∧ _defaults q' = _defaults q
  ∧ fresh (script_actions script) (_actions q).
Proof.
  unfold run_script, script_actions, script_groups.
  induction script as [|s script IH]; simpl; intros q q' He H.
  - inversion H; subst. rewrite !app_nil_r. repeat split; try done. apply fresh_nil.
  - apply andb_true_iff in He as [He1 He2]. inv_bind H.
    apply IH in H_k as (Ha' & Hg' & Hd' & Hfr'); [|done].
    assert (_actions r = _actions q ++ stmt_actions s
            ∧ _mutually_exclusive_groups r
              = _mutually_exclusive_groups q ++ stmt_groups s
            ∧ _defaults r = _defaults q
            ∧ fresh (stmt_actions s) (_actions q)) as (Ha & Hg & Hd & Hfr).
    { destruct s as [args kw|req members|d v]; simpl in *; [| |discriminate].
      - apply add_argument_Done in H_m as (? & ? & ? & ?); [|done].
        rewrite app_nil_r. done.
      - inv_bind H_m. destruct (existsb _ _); [discriminate|].
        apply add_arguments_Done in H_m_m as (? & ? & ? & ?); [|done].
        inversion H_m_k; subst; simpl. repeat split; try done. by f_equal. }
    rewrite Ha', Ha, <- app_assoc, Hg', Hg, <- app_assoc, Hd', Hd.
    repeat split; try done.
    apply fresh_app; [done|]. rewrite Ha in Hfr'. by eapply fresh_weaken.
Qed.

(** ** The parsers [configure_parser] builds *)

Lemma tables_ok_subcommands name : name ∈ subcommands → tables_ok name = true.
Proof.
  unfold subcommands. intros H.
  repeat (apply elem_of_cons in H as [->|H]; [by vm_compute|]).
  by apply not_elem_of_nil in H.
Qed.

(** Each subcommand's script is a list of declarations with explicit
    defaults, followed by [set_defaults(func=...)]. *)
Lemma script_tables name :
  name ∈ subcommands →
  ∃ adds v, subcommand_script name = adds ++ [SetDefaults "func" v]
            ∧ forallb explicit_stmt adds = true.
Proof.
  unfold subcommands. intros H.
  apply elem_of_cons in H as [->|H].
  { exists (removelast rg_parser_script), (DFunc "sumstats.estimate_rg").
    by vm_compute. }
  apply elem_of_cons in H as [->|H].
  { exists (removelast h2_parser_script), (DFunc "sumstats.estimate_h2").
    by vm_compute. }
  apply elem_of_cons in H as [->|H].
  { exists (removelast h2_cts_parser_script),
           (DFunc "sumstats.cell_type_specific").
    by vm_compute. }
  apply elem_of_cons in H as [->|H].
  { exists (removelast ldscore_parser_script), (DFunc "ld.ldscore").
    by vm_compute. }
  by apply not_elem_of_nil in H.
Qed.

Lemma own_not_func name b :
  name ∈ subcommands → b ∈ own_actions name → dest b ≠ Some "func".
Proof.
  intros Hname Hb. pose proof (tables_ok_subcommands _ Hname) as Hok.
  unfold tables_ok in Hok.
  apply andb_true_iff in Hok as [Hok _]. apply andb_true_iff in Hok as [Hok _].
  apply andb_true_iff in Hok as [Hok _].
  rewrite forallb_forall in Hok. apply list_elem_of_In, Hok in Hb.
  by apply negb_true_iff, bool_decide_eq_false in Hb.
Qed.

Lemma common_ldsc_parser_eq : common_ldsc_parser = Done common_value.
Proof. by vm_compute. Qed.

Lemma retarget_other d v a : dest a ≠ Some d → retarget d v a = a.
Proof. unfold retarget. intros H. by rewrite bool_decide_eq_false_2. Qed.

Lemma retarget_same v a : same_but_default (retarget "func" v a) a.
Proof.
  unfold retarget. destruct (bool_decide _) eqn:Hd.
  - apply bool_decide_eq_true in Hd. by repeat split.
  - by repeat split.
Qed.

Lemma same_but_default_trans a b c :
  same_but_default a b → same_but_default b c → same_but_default a c.
Proof.
  intros (H1 & H2 & H3 & H4 & H5 & H6 & H7 & H8)
         (G1 & G2 & G3 & G4 & G5 & G6 & G7 & G8).
  repeat split; try congruence.
  intros Hc. rewrite H8; [by apply G8|]. by rewrite G3.
Qed.

Lemma shared_action_same a : same_but_default (shared_action a) a.
Proof.
  unfold shared_action. simpl.
  repeat (eapply same_but_default_trans; [apply retarget_same|]).
  by repeat split.
Qed.

Lemma foldM_app {A B : Type} (f : B → A → outcome A) l1 : ∀ l2 a,
  foldM f (l1 ++ l2) a = foldM f l1 a ≫= foldM f l2.
Proof.
  induction l1 as [|b l1 IH]; simpl; intros l2 a; [done|].
  destruct (f b a); simpl; try done.
Qed.

Lemma new_parser_eq parent :
  new_parser true [common_value; parent]
  = _add_container_actions parent with_common_value.
Proof.
  unfold new_parser.
  change (add_argument ["-h"; "--help"] (KW Help TNone (Some DSuppress) false)
            empty_parser)
    with (Done (mkParser [help_action] [] ∅)).
  cbn [mbind outcome_bind foldM].
  assert (_add_container_actions common_value (mkParser [help_action] [] ∅)
          = Done with_common_value) as -> by by vm_compute.
  cbn [mbind outcome_bind].
  by destruct (_add_container_actions parent with_common_value).
Qed.

Lemma fresh_sym l q : fresh l q → fresh q l.
Proof. intros H b s a Hb Hs Ha Hs'. by apply (H a s b). Qed.

Lemma fresh_app_r l q1 q2 : fresh l q1 → fresh l q2 → fresh l (q1 ++ q2).
Proof. intros H1 H2. apply fresh_sym, fresh_app; by apply fresh_sym. Qed.

(** What [set_defaults] and the sharing of the parents' actions leave of a
    list of actions none of which, outside the parent's, has destination
    [func]. *)
Lemma finalised_actions parents v (l1 l2 l3 : list Action) :
  (∀ b, b ∈ l1 → dest b ≠ Some "func") →
  (∀ b, b ∈ l3 → dest b ≠ Some "func") →
  ∃ pa, map (λ a, if inherited parents a then shared_action a else a)
            (map (retarget "func" v) (l1 ++ l2 ++ l3))
        = l1 ++ pa ++ l3
        ∧ Forall2 same_but_default pa l2.
Proof.
  intros H1 H3.
  set (g := λ a, if inherited parents (retarget "func" v a)
                 then shared_action (retarget "func" v a)
                 else retarget "func" v a).
  assert (∀ a, same_but_default (g a) a) as Hg.
  { intros a. unfold g. destruct (inherited _ _); [|apply retarget_same].
    eapply same_but_default_trans; [apply shared_action_same|apply retarget_same]. }
  assert (∀ l, (∀ b, b ∈ l → dest b ≠ Some "func") → map g l = l) as Hid.
  { intros l Hl. induction l as [|b l IH]; [done|].
    cbn [map]. rewrite IH.
    - f_equal. apply (Hg b). apply Hl. apply elem_of_cons; by left.
    - intros b' Hb'. apply Hl. apply elem_of_cons; by right. }
  exists (map g l2). split.
  - rewrite map_map. fold g. rewrite !map_app. by rewrite (Hid l1 H1), (Hid l3 H3).
  - clear -Hg. induction l2 as [|a l IH]; cbn [map]; constructor; auto.
Qed.

Lemma add_parser_eq parents script :
  add_parser parents script = new_parser true parents ≫= run_script script.
Proof. reflexivity. Qed.

Lemma add_parser_built parent name p :
  name ∈ subcommands →
  add_parser [common_value; parent] (subcommand_script name) = Done p →
  built parent name (share_parent_actions [common_value; parent] p).
Proof.
  intros Hname H.
  destruct (script_tables name Hname) as (adds & v & Hscript & Hexp).
  pose proof (λ b, own_not_func name b Hname) as Hown.
  unfold own_actions in Hown.
  assert (script_actions (subcommand_script name) = script_actions adds) as Hsa.
  { rewrite Hscript. unfold script_actions.
    rewrite flat_map_app. cbn [flat_map stmt_actions]. by rewrite !app_nil_r. }
  assert (script_groups (subcommand_script name) = script_groups adds) as Hsg.
  { rewrite Hscript. unfold script_groups.
    rewrite flat_map_app. cbn [flat_map stmt_groups]. by rewrite !app_nil_r. }
  rewrite Hsa in Hown. rewrite Hscript in H. clear Hscript.
  rewrite add_parser_eq in H. inv_bind H. rename r into p0.
  rewrite new_parser_eq in H_m.
  apply add_container_actions_Done in H_m as (Ha0 & Hg0 & _ & Hfr0).
  unfold run_script in H_k.
  rewrite foldM_app in H_k. inv_bind H_k. rename r into p1.
  apply run_script_Done in H_k_m as (Ha1 & Hg1 & _ & Hfr1); [|done].
  cbn [foldM run_stmt mbind outcome_bind] in H_k_k.
  inversion H_k_k; subst p. clear H_k_k.
  rewrite Ha0 in Ha1, Hfr1. rewrite Hg0 in Hg1. clear Ha0 Hg0.
  cbn [_actions _mutually_exclusive_groups with_common_value] in *.
  constructor; [rewrite Hsa|rewrite Hsg|unfold own_actions; rewrite Hsa].
  - unfold share_parent_actions, set_defaults. cbn [_actions].
    rewrite Ha1.
    destruct (finalised_actions [common_value; parent] v
                (help_action :: common_actions) (_actions parent)
                (script_actions adds)) as (pa & Hpa & Hsame).
    + intros b Hb. apply Hown. rewrite app_comm_cons. apply elem_of_app; by left.
    + intros b Hb. apply Hown. rewrite app_comm_cons. apply elem_of_app; by right.
    + exists pa. split; [|done]. rewrite <- app_assoc. exact Hpa.
  - unfold share_parent_actions, set_defaults. cbn [_mutually_exclusive_groups].
    rewrite Hg1. by rewrite <- app_assoc.
  - apply fresh_sym in Hfr1. rewrite app_comm_cons.
    apply fresh_app_r; [done|].
    intros a s b Ha. apply (Hfr1 a s b). apply elem_of_app. by right.
Qed.

Lemma bind_Done_l {A B : Type} (a : A) (f : A → outcome B) : Done a ≫= f = f a.
Proof. reflexivity. Qed.

Lemma configure_parser_eq parent :
  configure_parser parent
  = common_ldsc_parser ≫= λ common, _add_subparsers [common; parent].
Proof. reflexivity. Qed.

Lemma add_subparsers_eq parents :
  _add_subparsers parents
  = add_parser parents (subcommand_script "rg") ≫= λ rg_parser,
    add_parser parents (subcommand_script "h2") ≫= λ h2_parser,
    add_parser parents (subcommand_script "h2-cts") ≫= λ h2_cts_parser,
    add_parser parents (subcommand_script "generate-ldscores")
      ≫= λ ldscore_parser,
    Done (map (λ np : string * ArgumentParser,
                 (np.1, share_parent_actions parents np.2))
            [("rg", rg_parser); ("h2", h2_parser); ("h2-cts", h2_cts_parser);
             ("generate-ldscores", ldscore_parser)]).
Proof. reflexivity. Qed.

Lemma configure_parser_built parent subparsers name :
  configure_parser parent = Done subparsers → name ∈ subcommands →
  ∃ P, find (λ np, String.eqb np.1 name) subparsers = Some (name, P)
       ∧ built parent name P.
Proof.
  rewrite configure_parser_eq, common_ldsc_parser_eq, bind_Done_l.
  rewrite add_subparsers_eq. intros H Hname.
  inv_bind H. inv_bind H_k. inv_bind H_k_k. inv_bind H_k_k_k.
  inversion H_k_k_k_k; subst subparsers. clear H_k_k_k_k.
  unfold subcommands in Hname.
  apply elem_of_cons in Hname as [->|Hname].
  { eexists. split; [reflexivity|].
    apply add_parser_built; [|exact H_m]. apply elem_of_cons; by left. }
  apply elem_of_cons in Hname as [->|Hname].
  { eexists. split; [reflexivity|].
    apply add_parser_built; [|exact H_k_m]. do 1 (apply elem_of_cons; right).
    apply elem_of_cons; by left. }
  apply elem_of_cons in Hname as [->|Hname].
  { eexists. split; [reflexivity|].
    apply add_parser_built; [|exact H_k_k_m]. do 2 (apply elem_of_cons; right).
    apply elem_of_cons; by left. }
  apply elem_of_cons in Hname as [->|Hname].
  { eexists. split; [reflexivity|].
    apply add_parser_built; [|exact H_k_k_k_m]. do 3 (apply elem_of_cons; right).
    apply elem_of_cons; by left. }
  destruct (not_elem_of_nil _ Hname).
Qed.

Lemma built_subparser parent subparsers name :
  configure_parser parent = Done subparsers → name ∈ subcommands →
  built parent name (subparser subparsers name)
  ∧ ∀ py_int py_float n_blocks_ok args,
      invoke py_int py_float n_blocks_ok subparsers name args
      = parse_args py_int py_float n_blocks_ok (subparser subparsers name) args.
Proof.
  intros H Hname.
  destruct (configure_parser_built _ _ _ H Hname) as (P & Hfind & HP).
  clear H. unfold subparser, invoke. rewrite Hfind. split; [exact HP|reflexivity].
Qed.

(** ** The tables of a built subparser *)

Lemma group_conflicts_elem after : ∀ before x y,
  y ∈ group_conflicts before after x → x ∈ after ∧ y ∈ before ++ after.
Proof.
  induction after as [|z after IH]; simpl; intros before x y H.
  - by apply not_elem_of_nil in H.
  - apply elem_of_app in H as [H|H].
    + destruct (String.eqb z x) eqn:Hz; [|by apply not_elem_of_nil in H].
      apply String.eqb_eq in Hz as ->. split; [apply elem_of_cons; by left|].
      apply elem_of_app in H as [H|H]; apply elem_of_app; [by left|right].
      apply elem_of_cons; by right.
    + apply IH in H as [Hx Hy]. split; [apply elem_of_cons; by right|].
      rewrite <- app_assoc in Hy. done.
Qed.

Lemma copy_groups_members c todo : ∀ i g n,
  g ∈ copy_groups i todo c → n ∈ _group_actions g → n ∈ map flag (_actions c).
Proof.
  induction todo as [|g0 todo IH]; simpl; intros i g n Hg Hn.
  - by apply not_elem_of_nil in Hg.
  - apply elem_of_cons in Hg as [->|Hg]; [|by eapply IH].
    simpl in Hn. apply list_elem_of_fmap in Hn as (a & -> & Ha).
    apply list_elem_of_filter in Ha as [_ Ha].
    apply list_elem_of_fmap. by exists a.
Qed.

Lemma action_conflicts_elem p x y :
  y ∈ action_conflicts p x ↔
  ∃ g, g ∈ _mutually_exclusive_groups p
       ∧ y ∈ group_conflicts [] (_group_actions g) x.
Proof.
  unfold action_conflicts. rewrite list_elem_of_In, in_flat_map.
  split; intros (g & Hg & Hy); exists g.
  - split; [by apply list_elem_of_In|by apply list_elem_of_In].
  - split; [by apply list_elem_of_In|by apply list_elem_of_In].
Qed.

Section Tables.

Context (parent : ArgumentParser) (name : string) (P : ArgumentParser).
Context (Hname : name ∈ subcommands) (HP : built parent name P).

Lemma own_in_built c : c ∈ own_actions name → c ∈ _actions P.
Proof.
  destruct (built_actions _ _ _ HP) as (pa & -> & _).
  unfold own_actions. intros Hc.
  apply elem_of_cons in Hc as [->|Hc]; [apply elem_of_cons; by left|].
  apply elem_of_cons; right.
  apply elem_of_app in Hc as [Hc|Hc]; apply elem_of_app; [by left|right].
  apply elem_of_app; by right.
Qed.

Lemma built_cases x :
  x ∈ _actions P →
  x ∈ own_actions name
  ∨ ∃ a0, a0 ∈ _actions parent ∧ same_but_default x a0.
Proof.
  destruct (built_actions _ _ _ HP) as (pa & -> & Hpa).
  unfold own_actions. intros Hx.
  apply elem_of_cons in Hx as [->|Hx]; [left; apply elem_of_cons; by left|].
  apply elem_of_app in Hx as [Hx|Hx].
  { left. apply elem_of_cons; right. apply elem_of_app; by left. }
  apply elem_of_app in Hx as [Hx|Hx].
  - right. clear -Hx Hpa. induction Hpa as [|x0 a0 pa l Hs Hpa IH].
    + by apply not_elem_of_nil in Hx.
    + apply elem_of_cons in Hx as [->|Hx].
      * exists a0. split; [apply elem_of_cons; by left|done].
      * destruct (IH Hx) as (a1 & Ha1 & Hs1). exists a1.
        split; [apply elem_of_cons; by right|done].
  - left. apply elem_of_cons; right. apply elem_of_app; by right.
Qed.

Lemma NoDup_map_inj {A B : Type} (f : A → B) l x y :
  NoDup (map f l) → x ∈ l → y ∈ l → f x = f y → x = y.
Proof.
  induction l as [|z l IH]; simpl; intros Hnd Hx Hy Hf.
  - by apply not_elem_of_nil in Hx.
  - apply NoDup_cons in Hnd as [Hz Hnd].
    apply elem_of_cons in Hx as [->|Hx]; apply elem_of_cons in Hy as [->|Hy].
    + done.
    + exfalso. apply Hz. rewrite Hf. apply list_elem_of_fmap. eauto.
    + exfalso. apply Hz. rewrite <- Hf. apply list_elem_of_fmap. eauto.
    + by apply IH.
Qed.

Lemma own_tables :
  NoDup (map flag (own_actions name))
  ∧ NoDup (map dest_attr (own_actions name))
  ∧ ∀ c, c ∈ own_actions name → dest c ≠ None → dest_attr c ∈ declared_dests.
Proof.
  pose proof (tables_ok_subcommands _ Hname) as Hok. unfold tables_ok in Hok.
  repeat (apply andb_true_iff in Hok as [Hok ?]).
  repeat match goal with H : bool_decide _ = true |- _ =>
    apply bool_decide_eq_true in H end.
  split; [done|]. split; [done|]. intros c Hc Hd.
  match goal with H : forallb (λ b, bool_decide (dest b = None) || _) _ = true |- _ =>
    rewrite forallb_forall in H; apply list_elem_of_In, H in Hc end.
  apply orb_true_iff in Hc as [Hc|Hc]; apply bool_decide_eq_true in Hc; done.
Qed.

(** An action of the subparser that carries the first option string of one
    declared here is that action. *)
Lemma built_by_flag x c :
  x ∈ _actions P → c ∈ own_actions name → flag x = flag c → x = c.
Proof.
  intros Hx Hc Hf. destruct (built_cases x Hx) as [Hown|(a0 & Ha0 & Hs)].
  - destruct own_tables as (Hnd & _). by eapply (NoDup_map_inj flag).
  - exfalso. destruct Hs as (Hfl & _).
    apply (built_fresh _ _ _ HP a0 (flag a0) c); try done.
    + apply elem_of_cons; by left.
    + rewrite <- Hfl, Hf. apply elem_of_cons; by left.
Qed.

(** Likewise for the destination, when the parent declares none of ours. *)
Lemma built_by_dest x c :
  parent_dests_fresh parent = true →
  x ∈ _actions P → c ∈ own_actions name → dest c ≠ None →
  dest_attr x = dest_attr c → x = c.
Proof.
  intros Hfresh Hx Hc Hd Hf.
  destruct own_tables as (_ & Hnd & Hdecl).
  destruct (built_cases x Hx) as [Hown|(a0 & Ha0 & Hs)].
  - by eapply (NoDup_map_inj dest_attr).
  - exfalso. destruct Hs as (_ & _ & Hdest & _).
    unfold parent_dests_fresh in Hfresh. rewrite forallb_forall in Hfresh.
    apply list_elem_of_In, Hfresh, negb_true_iff, bool_decide_eq_false in Ha0.
    apply Ha0. unfold dest_attr in *. rewrite <- Hdest. rewrite Hf.
    by apply Hdecl.
Qed.

(** The groups declared here are groups of the subparser ... *)
Lemma own_conflicts x y :
  y ∈ action_conflicts (mkParser [] (own_groups name) ∅) x →
  y ∈ action_conflicts P x.
Proof.
  intros Hc. apply action_conflicts_elem in Hc as (g & Hg & Hy).
  cbn [_mutually_exclusive_groups] in Hg.
  apply action_conflicts_elem. exists g.
  split; [|done]. rewrite (built_groups _ _ _ HP).
  unfold own_groups in Hg.
  apply elem_of_app in Hg as [Hg|Hg]; apply elem_of_app; [by left|right].
  apply elem_of_app; by right.
Qed.

(** ... and no other group of the subparser mentions an option declared
    here. *)
Lemma own_conflicts_inv x y :
  y ∈ action_conflicts P x →
  x ∈ map flag (own_actions name) ∨ y ∈ map flag (own_actions name) →
  y ∈ action_conflicts (mkParser [] (own_groups name) ∅) x.
Proof.
  intros Hc Hown. apply action_conflicts_elem in Hc as (g & Hg & Hy).
  apply action_conflicts_elem. cbn [_mutually_exclusive_groups].
  rewrite (built_groups _ _ _ HP) in Hg. exists g. split; [|done].
  unfold own_groups.
  apply elem_of_app in Hg as [Hg|Hg]; [apply elem_of_app; by left|].
  apply elem_of_app in Hg as [Hg|Hg]; [|apply elem_of_app; by right].
  exfalso. apply group_conflicts_elem in Hy as [Hx Hy]. simpl in Hy.
  assert (∀ n, n ∈ _group_actions g → n ∉ map flag (own_actions name)) as Hno.
  { intros n Hn Hn'. eapply copy_groups_members in Hn; [|exact Hg].
    apply list_elem_of_fmap in Hn as (a0 & -> & Ha0).
    apply list_elem_of_fmap in Hn' as (c & Hfc & Hc).
    apply (built_fresh _ _ _ HP a0 (flag a0) c); try done.
    - apply elem_of_cons; by left.
    - rewrite Hfc. apply elem_of_cons; by left. }
  destruct Hown as [Hown|Hown]; [exact (Hno x Hx Hown)|exact (Hno y Hy Hown)].
Qed.

End Tables.

(** ** One option of a built subparser *)

Lemma initial_fold_keeps l : ∀ (ns : gmap string value) d v,
  ns !! d = Some v →
  fold_left
    (λ ns a, match dest a, default_value (default_ a) with
             | Some d, Some v =>
                 match ns !! d with None => <[d := v]> ns | Some _ => ns end
             | _, _ => ns
             end) l ns !! d = Some v.
Proof.
  induction l as [|a l IH]; simpl; intros ns d v H; [done|].
  apply IH. destruct (dest a) as [d'|]; [|done].
  destruct (default_value (default_ a)) as [v'|]; [|done].
  destruct (ns !! d') eqn:Hd'; [done|].
  rewrite lookup_insert_ne; [done|]. intros ->. congruence.
Qed.

Lemma initial_fold_first l : ∀ (ns : gmap string value) c d v,
  c ∈ l → dest c = Some d → default_value (default_ c) = Some v →
  (∀ x, x ∈ l → dest x = Some d → x = c) →
  ns !! d = None →
  fold_left
    (λ ns a, match dest a, default_value (default_ a) with
             | Some d, Some v =>
                 match ns !! d with None => <[d := v]> ns | Some _ => ns end
             | _, _ => ns
             end) l ns !! d = Some v.
Proof.
  induction l as [|a l IH]; simpl; intros ns c d v Hc Hd Hv Huniq Hns.
  - by apply not_elem_of_nil in Hc.
  - destruct (decide (dest a = Some d)) as [Ha|Ha].
    + assert (a = c) as -> by (apply Huniq; [apply elem_of_cons; by left|done]).
      rewrite Hd, Hv, Hns. apply initial_fold_keeps. by rewrite lookup_insert_eq.
    + apply elem_of_cons in Hc as [->|Hc]; [done|].
      apply (IH _ c); try done.
      * intros x Hx. apply Huniq. apply elem_of_cons; by right.
      * destruct (dest a) as [d'|]; [|done].
        destruct (default_value (default_ a)) as [v'|]; [|done].
        destruct (ns !! d'); [done|].
        rewrite lookup_insert_ne; [done|]. intros ->. done.
Qed.

Section Option.

Context (py_int : string → option Z) (py_float : string → option float)
        (n_blocks_ok : value → bool).
Context (parent : ArgumentParser) (name : string) (P : ArgumentParser).
Context (Hname : name ∈ subcommands) (HP : built parent name P).
Context (c : Action) (Hc : c ∈ own_actions name)
        (Hlong : short_option c = false).

Abbreviation parse_args' := (parse_args py_int py_float n_blocks_ok P).
Abbreviation consume' := (consume py_int py_float n_blocks_ok P).

Lemma tokens_in_built args :
  Forall (λ t : string * arg_class,
            ∀ a os e, t.2 = ClsO (Some a) os e → a ∈ _actions P)
         (zip args (classify P args)).
Proof.
  apply (zip_Forall_snd (λ c, ∀ a os e, c = ClsO (Some a) os e → a ∈ _actions P)).
  apply classify_actions.
Qed.

(** The option has been seen exactly when the command line supplies it. *)
Lemma seen_iff_supplies args st :
  consume' (zip args (classify P args)) (start P) = Done st →
  flag c ∈ seen_actions st ↔ supplies P (flag c) args = true.
Proof.
  intros H. split.
  - intros Hs.
    destruct (consume_seen_origin _ _ _ _ _ _ _ _ H Hs) as [Hs'|[Hs'|Hs']].
    + simpl in Hs'. by apply not_elem_of_empty in Hs'.
    + by apply supplies_spec.
    + destruct Hs' as (a & Ha & Hsh & Hf).
      rewrite (built_by_flag parent name P Hname HP a c Ha Hc Hf) in Hsh.
      congruence.
  - intros Hs. apply supplies_token in Hs as (s & a & os & e & Hin & Hf & Ha).
    destruct (consume_resolved_seen _ _ _ _ _ _ _ H) as (_ & _ & Hres).
    rewrite <- Hf. by apply (Hres s a os e).
Qed.

(** A required option is supplied by every accepted command line. *)
Lemma required_supplied args ns :
  required c = true → parse_args' args = Done ns →
  supplies P (flag c) args = true.
Proof.
  intros Hr H. apply parse_args_Done in H as (st & Hst & Hmiss & _).
  apply (seen_iff_supplies args st Hst).
  apply (missing_required_nil P st c Hmiss); [|done].
  by apply (own_in_built parent name P HP).
Qed.

Context (Hfresh : parent_dests_fresh parent = true).
Context (d : string) (Hd : dest c = Some d).

Lemma other_dest a : a ∈ _actions P → flag a ≠ flag c → d ≠ dest_attr a.
Proof.
  intros Ha Hf Hda. symmetry in Hda. apply Hf. f_equal.
  apply (built_by_dest parent name P Hname HP a c Hfresh Ha Hc).
  - by rewrite Hd.
  - unfold dest_attr at 2. by rewrite Hd.
Qed.

(** Until the option is seen, its destination holds what the namespace
    started with. *)
Lemma unseen_keeps_initial args st :
  consume' (zip args (classify P args)) (start P) = Done st →
  flag c ∉ seen_actions st →
  namespace st !! d = initial_namespace P !! d.
Proof.
  intros H.
  eapply (consume_invariant py_int py_float n_blocks_ok P
            (λ st, flag c ∉ seen_actions st →
                   namespace st !! d = initial_namespace P !! d)
            (λ a, a ∈ _actions P)).
  6: exact H.
  5: intros _; reflexivity.
  - intros a args0 st0 st0' Ha HI Htk Hns.
    apply take_action_Done in Htk as (v & _ & Hcall & Hseen & _).
    rewrite Hseen in Hns.
    rewrite (call_action_other _ _ _ _ _ d Hcall).
    + apply HI. clear -Hns. set_solver.
    + apply other_dest; [done|]. clear -Hns. set_solver.
  - done.
  - done.
  - apply tokens_in_built.
Qed.

(** Once the option is seen, its destination holds a value its action
    stored. *)
Lemma seen_holds_stored (Good : value → Prop) args st :
  (∀ args0 v ns ns', _get_values py_int py_float c args0 = Done v →
     call_action n_blocks_ok c ns v = Done ns' →
     ∃ w, ns' !! d = Some w ∧ Good w) →
  consume' (zip args (classify P args)) (start P) = Done st →
  flag c ∈ seen_actions st →
  ∃ w, namespace st !! d = Some w ∧ Good w.
Proof.
  intros Hgood H.
  eapply (consume_invariant py_int py_float n_blocks_ok P
            (λ st, flag c ∈ seen_actions st →
                   ∃ w, namespace st !! d = Some w ∧ Good w)
            (λ a, a ∈ _actions P)).
  6: exact H.
  5: intros Hs; by apply not_elem_of_empty in Hs.
  - intros a args0 st0 st0' Ha HI Htk Hs.
    apply take_action_Done in Htk as (v & Hv & Hcall & Hseen & _).
    destruct (decide (flag a = flag c)) as [Hf|Hf].
    + rewrite (built_by_flag parent name P Hname HP a c Ha Hc Hf) in *.
      by eapply Hgood.
    + rewrite (call_action_other _ _ _ _ _ d Hcall); [|by apply other_dest].
      apply HI. rewrite Hseen in Hs. clear -Hs Hf. set_solver.
  - done.
  - done.
  - apply tokens_in_built.
Qed.

(** The namespace starts with the option's declared default. *)
Lemma initial_default v :
  default_value (default_ c) = Some v → initial_namespace P !! d = Some v.
Proof.
  intros Hv. unfold initial_namespace. apply lookup_union_Some_l.
  apply (initial_fold_first _ _ c); try done.
  - by apply (own_in_built parent name P HP).
  - intros x Hx Hdx.
    apply (built_by_dest parent name P Hname HP x c Hfresh Hx Hc).
    + by rewrite Hd.
    + unfold dest_attr. by rewrite Hdx, Hd.
Qed.

(** An option that is not supplied is left at its default. *)
Lemma not_supplied_default args ns v :
  default_value (default_ c) = Some v →
  parse_args' args = Done ns → supplies P (flag c) args = false →
  ns !! d = Some v.
Proof.
  intros Hv H Hs. apply parse_args_Done in H as (st & Hst & _ & <-).
  rewrite (unseen_keeps_initial args st Hst); [by apply initial_default|].
  intros Hseen. apply (seen_iff_supplies args st Hst) in Hseen. congruence.
Qed.

(** An option that is supplied holds a value its action stored. *)
Lemma supplied_stored (Good : value → Prop) args ns :
  (∀ args0 v ns ns', _get_values py_int py_float c args0 = Done v →
     call_action n_blocks_ok c ns v = Done ns' →
     ∃ w, ns' !! d = Some w ∧ Good w) →
  parse_args' args = Done ns → supplies P (flag c) args = true →
  ∃ w, ns !! d = Some w ∧ Good w.
Proof.
  intros Hgood H Hs. apply parse_args_Done in H as (st & Hst & _ & <-).
  apply (seen_holds_stored Good args st Hgood Hst).
  by apply (seen_iff_supplies args st Hst).
Qed.

End Option.

(** ** Two options of one mutually exclusive group *)

Lemma pair_conflicts x y fa fb :
  y ∈ group_conflicts [] [fa; fb] x → (x = fa ∧ y = fb) ∨ (x = fb ∧ y = fa).
Proof.
  simpl. intros H. apply elem_of_app in H as [H|H].
  - destruct (String.eqb fa x) eqn:Hx; [|by apply not_elem_of_nil in H].
    apply String.eqb_eq in Hx as ->. apply list_elem_of_singleton in H as ->.
    by left.
  - rewrite app_nil_r in H.
    destruct (String.eqb fb x) eqn:Hx; [|by apply not_elem_of_nil in H].
    apply String.eqb_eq in Hx as ->. apply list_elem_of_singleton in H as ->.
    by right.
Qed.

Section Pair.

Context (py_int : string → option Z) (py_float : string → option float)
        (n_blocks_ok : value → bool).
Context (parent : ArgumentParser) (name : string) (P : ArgumentParser).
Context (Hname : name ∈ subcommands) (HP : built parent name P).
Context (fa fb : string) (Hpair : pair_ok name fa fb = true).

Abbreviation parse_args' := (parse_args py_int py_float n_blocks_ok P).

Lemma pair_tables :
  ∃ ca cb, ca ∈ own_actions name ∧ cb ∈ own_actions name
           ∧ flag ca = fa ∧ flag cb = fb
           ∧ never_default ca = true ∧ never_default cb = true
           ∧ short_option ca = false ∧ short_option cb = false
           ∧ (∀ g, g ∈ own_groups name →
                   fa ∈ _group_actions g ∨ fb ∈ _group_actions g →
                   _group_actions g = [fa; fb])
           ∧ ∃ g, g ∈ own_groups name ∧ _group_actions g = [fa; fb].
Proof.
  unfold pair_ok in Hpair.
  destruct (find _ _) as [ca|] eqn:Ha; [|discriminate].
  destruct (find (λ c, String.eqb (flag c) fb) _) as [cb|] eqn:Hb;
    [|discriminate].
  apply find_some in Ha as [Ha Hfa], Hb as [Hb Hfb].
  apply String.eqb_eq in Hfa, Hfb. apply list_elem_of_In in Ha, Hb.
  repeat (apply andb_true_iff in Hpair as [Hpair ?]).
  exists ca, cb. repeat split; try done;
    try (by apply negb_true_iff).
  - intros g Hg Hm.
    match goal with H : forallb _ (own_groups name) = true |- _ =>
      rewrite forallb_forall in H; apply list_elem_of_In, H in Hg end.
    destruct (bool_decide (fa ∈ _) || bool_decide (fb ∈ _)) eqn:Hor.
    + by apply bool_decide_eq_true in Hg.
    + apply orb_false_iff in Hor as [Hor1 Hor2].
      apply bool_decide_eq_false in Hor1, Hor2. by destruct Hm.
  - match goal with H : existsb _ (own_groups name) = true |- _ =>
      apply existsb_exists in H as (g & Hg & Hm) end.
    exists g. split; [by apply list_elem_of_In|by apply bool_decide_eq_true in Hm].
Qed.

Lemma pair_conflict_ab : fb ∈ action_conflicts P fa ∧ fa ∈ action_conflicts P fb.
Proof.
  destruct pair_tables
    as (_ & _ & _ & _ & _ & _ & _ & _ & _ & _ & _ & g & Hg & Hm).
  split; apply (own_conflicts parent name P HP); apply action_conflicts_elem;
    exists g; (split; [done|]); rewrite Hm; simpl.
  - rewrite String.eqb_refl. simpl. apply elem_of_cons; by left.
  - apply elem_of_app; right. rewrite String.eqb_refl. simpl.
    apply elem_of_cons; by left.
Qed.

(** Supplying both never yields a configuration. *)
Lemma pair_both_rejected args :
  supplies P fa args = true → supplies P fb args = true →
  parse_args' args = HelpExit ∨ ∃ e, parse_args' args = Fail e.
Proof.
  intros Ha Hb. destruct (parse_args' args) as [ns| |] eqn:H; [|eauto|eauto].
  exfalso. apply parse_args_Done in H as (st & Hst & _ & _).
  destruct pair_tables as (ca & cb & Hca & Hcb & Hfa & Hfb & Hna & Hnb & _).
  destruct pair_conflict_ab as [Hab Hba].
  apply supplies_token in Ha as (sa & a & osa & ea & Hina & Hfla & Haa).
  apply supplies_token in Hb as (sb & b & osb & eb & Hinb & Hflb & Hbb).
  assert (a = ca) as ->
    by (apply (built_by_flag parent name P Hname HP); congruence).
  assert (b = cb) as ->
    by (apply (built_by_flag parent name P Hname HP); congruence).
  destruct (consume_resolved_seen _ _ _ _ _ _ _ Hst) as (_ & _ & Hres).
  apply (consume_exclusive _ _ _ _ _ _ _ fa fb Hab Hba Hst).
  - simpl. intros [Hx _]. by apply not_elem_of_empty in Hx.
  - split.
    + rewrite <- Hfa. by apply (Hres sa ca osa ea).
    + rewrite <- Hfb. by apply (Hres sb cb osb eb).
Qed.

(** The group's error is raised only when both are supplied. *)
Lemma pair_error_both args x y :
  parse_args' args = Fail (NotAllowedWith x y) →
  x ∈ [fa; fb] ∨ y ∈ [fa; fb] →
  supplies P fa args = true ∧ supplies P fb args = true.
Proof.
  intros H Hxy. apply parse_args_NotAllowedWith in H.
  apply consume_NotAllowedWith in H as (Hc & Hox & Hoy).
  destruct pair_tables
    as (ca & cb & Hca & Hcb & Hfa & Hfb & _ & _ & Hsa & Hsb & Hgroups & _).
  assert (fa ∈ map flag (own_actions name)) as Hfa'
    by (apply list_elem_of_fmap; eauto).
  assert (fb ∈ map flag (own_actions name)) as Hfb'
    by (apply list_elem_of_fmap; eauto).
  assert (∀ n, origin P (zip args (classify P args)) n → n ∈ [fa; fb] →
               supplies P n args = true) as Horigin.
  { intros n [Hn|(a & Ha & Hsh & Hf)] Hin; [by apply supplies_spec|].
    exfalso. apply elem_of_cons in Hin as [->|Hin].
    - rewrite (built_by_flag parent name P Hname HP a ca Ha Hca) in Hsh;
        congruence.
    - apply list_elem_of_singleton in Hin as ->.
      rewrite (built_by_flag parent name P Hname HP a cb Ha Hcb) in Hsh;
        congruence. }
  assert ((x = fa ∧ y = fb) ∨ (x = fb ∧ y = fa)) as Hcases.
  { apply (own_conflicts_inv parent name P HP) in Hc.
    - apply action_conflicts_elem in Hc as (g & Hg & Hy). simpl in Hg.
      pose proof (group_conflicts_elem _ _ _ _ Hy) as [Hxg Hyg]. simpl in Hyg.
      rewrite (Hgroups g Hg) in Hy; [by apply pair_conflicts|].
      destruct Hxy as [Hxy|Hxy];
        (apply elem_of_cons in Hxy as [->|Hxy];
         [by left|apply list_elem_of_singleton in Hxy as ->; by right]).
    - destruct Hxy as [Hxy|Hxy]; [left|right];
        (apply elem_of_cons in Hxy as [->|Hxy];
         [done|by apply list_elem_of_singleton in Hxy as ->]). }
  destruct Hoy as [Hoy|Hoy]; [by apply not_elem_of_empty in Hoy|].
  destruct Hcases as [[-> ->]|[-> ->]]; split; apply Horigin; try done;
    try (apply elem_of_cons; by left);
    (apply elem_of_cons; right; apply elem_of_cons; by left).
Qed.

End Pair.

(** * Options, their defaults and the stages that read them *)

Lemma pair_ok_extract_annot :
  pair_ok "generate-ldscores" "--extract" "--annot" = true.
Proof. by vm_compute. Qed.

Lemma pair_ok_per_allele_pq_exp :
  pair_ok "generate-ldscores" "--per-allele" "--pq-exp" = true.
Proof. by vm_compute. Qed.

Lemma pair_ok_ref_ld name :
  name ∈ subcommands → pair_ok name "--ref-ld" "--ref-ld-chr" = true.
Proof.
  unfold subcommands. intros H.
  repeat (apply elem_of_cons in H as [->|H]; [by vm_compute|]).
  by apply not_elem_of_nil in H.
Qed.

Lemma generate_ldscores_subcommand : "generate-ldscores" ∈ subcommands.
Proof.
  unfold subcommands. do 3 (apply elem_of_cons; right). apply elem_of_cons; by left.
Qed.

(** The two members of a mutually exclusive group declared here: a command
    line that supplies both yields no configuration, and the group's error is
    raised by no other command line. *)
Lemma exclusive_pair py_int py_float n_blocks_ok parent_parser subparsers name
  fa fb arg_strings :
  configure_parser parent_parser = Done subparsers →
  name ∈ subcommands → pair_ok name fa fb = true →
  let P := subparser subparsers name in
  let out := invoke py_int py_float n_blocks_ok subparsers name arg_strings in
  (supplies P fa arg_strings = true → supplies P fb arg_strings = true →
   out = HelpExit ∨ ∃ e, out = Fail e)
  ∧ (∀ x y, out = Fail (NotAllowedWith x y) →
       x ∈ [fa; fb] ∨ y ∈ [fa; fb] →
       supplies P fa arg_strings = true ∧ supplies P fb arg_strings = true).
Proof.
  intros Hbuild Hname Hpair P out.
  destruct (built_subparser _ _ _ Hbuild Hname) as [HP Hinv].
  clear Hbuild. subst P out. rewrite Hinv. split.
  - by apply (pair_both_rejected _ _ _ parent_parser name).
  - intros x y. by apply (pair_error_both _ _ _ parent_parser name).
Qed.

(** ** Options by name *)

Lemma own_action_Some name f c :
  own_action name f = Some c → c ∈ own_actions name ∧ flag c = f.
Proof.
  unfold own_action. intros H. apply find_some in H as [Hin Hf].
  split; [by apply list_elem_of_In|by apply String.eqb_eq].
Qed.

Lemma find_app_Some {A : Type} (f : A → bool) l1 l2 x :
  find f l1 = Some x → find f (l1 ++ l2) = Some x.
Proof.
  induction l1 as [|y l1 IH]; simpl; [discriminate|].
  destruct (f y); [done|]. apply IH.
Qed.

(** An option of the common parser is an option of every subcommand. *)
Lemma common_own_action name f c :
  find (λ c, String.eqb (flag c) f) (help_action :: common_actions) = Some c →
  own_action name f = Some c.
Proof.
  unfold own_action, own_actions. intros H. rewrite app_comm_cons.
  by apply find_app_Some.
Qed.

Section Named.

Context (py_int : string → option Z) (py_float : string → option float)
        (n_blocks_ok : value → bool).
Context (parent_parser : ArgumentParser)
        (subparsers : list (string * ArgumentParser)).
Context (Hbuild : configure_parser parent_parser = Done subparsers).
Context (name : string) (Hname : name ∈ subcommands).
Context (f : string) (c : Action) (Hown : own_action name f = Some c).
Context (Hlong : short_option c = false).

Abbreviation P := (subparser subparsers name).
Abbreviation run := (invoke py_int py_float n_blocks_ok subparsers name).

Lemma named_required args ns :
  required c = true → run args = Done ns → supplies P f args = true.
Proof using Hbuild Hname Hown Hlong.
  intros Hr H. destruct (built_subparser _ _ _ Hbuild Hname) as [HP Hinv].
  rewrite Hinv in H. destruct (own_action_Some _ _ _ Hown) as [Hc <-].
  by eapply (required_supplied _ _ _ parent_parser name).
Qed.

Context (Hfresh : parent_dests_fresh parent_parser = true).
Context (d : string) (Hd : dest c = Some d).

Lemma named_default args ns v :
  default_value (default_ c) = Some v →
  run args = Done ns → supplies P f args = false → ns !! d = Some v.
Proof using Hbuild Hname Hown Hlong Hfresh Hd.
  intros Hv H. destruct (built_subparser _ _ _ Hbuild Hname) as [HP Hinv].
  rewrite Hinv in H. destruct (own_action_Some _ _ _ Hown) as [Hc <-].
  by eapply (not_supplied_default _ _ _ parent_parser name).
Qed.

Lemma named_stored (Good : value → Prop) args ns :
  (∀ args0 v ns ns', _get_values py_int py_float c args0 = Done v →
     call_action n_blocks_ok c ns v = Done ns' →
     ∃ w, ns' !! d = Some w ∧ Good w) →
  run args = Done ns → supplies P f args = true →
  ∃ w, ns !! d = Some w ∧ Good w.
Proof using Hbuild Hname Hown Hlong Hfresh Hd.
  intros Hgood H. destruct (built_subparser _ _ _ Hbuild Hname) as [HP Hinv].
  rewrite Hinv in H. destruct (own_action_Some _ _ _ Hown) as [Hc <-].
  by eapply (supplied_stored _ _ _ parent_parser name).
Qed.

(** A [store_true] flag whose default is [False] is set exactly when it is
    supplied. *)
Lemma named_flag args ns :
  kind c = StoreTrue → default_ c = DBool false →
  run args = Done ns →
  ns !! d = Some (VBool (supplies P f args)).
Proof using Hbuild Hname Hown Hlong Hfresh Hd.
  intros Hk Hdef H. destruct (supplies P f args) eqn:Hs.
  - destruct (named_stored (λ w, w = VBool true) args ns) as (w & Hw & ->);
      [|exact H|exact Hs|exact Hw].
    intros args0 v ns0 ns' _ Hcall. unfold call_action in Hcall.
    rewrite Hk in Hcall. inversion Hcall; subst ns'.
    exists (VBool true). split; [|reflexivity].
    unfold dest_attr. rewrite Hd. apply lookup_insert_eq.
  - apply (named_default args ns); [|exact H|exact Hs].
    rewrite Hdef. reflexivity.
Qed.

End Named.

Lemma found_ref_ld :
  found "--ref-ld"
    (mkAction "--ref-ld" [] (Some "ref_ld") NargsNone Store TStr DNone false).
Proof. by vm_compute. Qed.

Lemma found_ref_ld_chr :
  found "--ref-ld-chr"
    (mkAction "--ref-ld-chr" [] (Some "ref_ld_chr") NargsNone Store TPath
              (DPath "") false).
Proof. by vm_compute. Qed.

Lemma found_w_ld_chr :
  found "--w-ld-chr"
    (mkAction "--w-ld-chr" [] (Some "w_ld_chr") NargsNone Store TPath DNone
              false).
Proof. by vm_compute. Qed.

Lemma found_invert_anyway :
  found "--invert-anyway"
    (mkAction "--invert-anyway" [] (Some "invert_anyway") NargsZero StoreTrue
              TNone (DBool false) false).
Proof. by vm_compute. Qed.



Lemma found_no_check_alleles :
  found "--no-check-alleles"
    (mkAction "--no-check-alleles" [] (Some "no_check_alleles") NargsZero
              StoreTrue TNone (DBool false) false).
Proof. by vm_compute. Qed.

Lemma found_samp_prev :
  found "--samp-prev"
    (mkAction "--samp-prev" [] (Some "samp_prev") NargsNone Store TNone DNone
              false).
Proof. by vm_compute. Qed.

Lemma found_pop_prev :
  found "--pop-prev"
    (mkAction "--pop-prev" [] (Some "pop_prev") NargsNone Store TNone DNone
              false).
Proof. by vm_compute. Qed.

Lemma is_set_lookup (ns : gmap string value) d b :
  ns !! d = Some (VBool b) → is_set ns d = b.
Proof. unfold is_set. by intros ->. Qed.

(** A flag of the common parser: in every accepted configuration of every
    subcommand it is set exactly when the command line supplies it. *)
Lemma common_flag py_int py_float n_blocks_ok parent_parser subparsers name f c d
  arg_strings ns :
  configure_parser parent_parser = Done subparsers →
  parent_dests_fresh parent_parser = true →
  name ∈ subcommands →
  found f c →
  short_option c = false → dest c = Some d →
  kind c = StoreTrue → default_ c = DBool false →
  invoke py_int py_float n_blocks_ok subparsers name arg_strings = Done ns →
  is_set ns d = supplies (subparser subparsers name) f arg_strings.
Proof.
  intros Hbuild Hfresh Hname Hfind Hlong Hd Hk Hdef H.
  apply is_set_lookup.
  apply (named_flag py_int py_float n_blocks_ok parent_parser subparsers Hbuild
           name Hname f c (common_own_action name f c Hfind) Hlong Hfresh d Hd
           arg_strings ns Hk Hdef H).
Qed.

(** C10: in every subcommand, [--ref-ld] and [--ref-ld-chr] are mutually
    exclusive: a command line that supplies both is not accepted, and the
    exclusion error is raised only then.  Their defaults differ: in an
    accepted configuration, [ref_ld] is [None] when [--ref-ld] is not
    supplied, [ref_ld_chr] is [Path("")] when [--ref-ld-chr] is not supplied,
    and [w_ld_chr] is [None] when [--w-ld-chr] is not supplied. *)
Theorem ref_ld_exclusive_with_asymmetric_defaults
  (py_int : string → option Z) (py_float : string → option float)
  (n_blocks_ok : value → bool) (parent_parser : ArgumentParser)
  (subparsers : list (string * ArgumentParser)) (name : string)
  (arg_strings : list string) :
  configure_parser parent_parser = Done subparsers →
  parent_dests_fresh parent_parser = true →
  name ∈ subcommands →
  let P := subparser subparsers name in
  let out := invoke py_int py_float n_blocks_ok subparsers name arg_strings in
  (supplies P "--ref-ld" arg_strings = true →
   supplies P "--ref-ld-chr" arg_strings = true →
   out = HelpExit ∨ ∃ e, out = Fail e)
  ∧ (∀ x y, out = Fail (NotAllowedWith x y) →
       x ∈ ["--ref-ld"; "--ref-ld-chr"] ∨ y ∈ ["--ref-ld"; "--ref-ld-chr"] →
       supplies P "--ref-ld" arg_strings = true
       ∧ supplies P "--ref-ld-chr" arg_strings = true)
  ∧ (∀ ns, out = Done ns →
       (supplies P "--ref-ld" arg_strings = false →
        ns !! "ref_ld" = Some VNone)
       ∧ (supplies P "--ref-ld-chr" arg_strings = false →
          ns !! "ref_ld_chr" = Some (VPath ""))
       ∧ (supplies P "--w-ld-chr" arg_strings = false →
          ns !! "w_ld_chr" = Some VNone)).
Proof.
  intros Hbuild Hfresh Hname P out.
  destruct (exclusive_pair py_int py_float n_blocks_ok parent_parser subparsers
              name "--ref-ld" "--ref-ld-chr" arg_strings Hbuild Hname
              (pair_ok_ref_ld name Hname)) as [H1 H2].
  split; [exact H1|]. split; [exact H2|].
  intros ns Hns. split; [|split]; intros Hs.
  - exact (named_default py_int py_float n_blocks_ok parent_parser subparsers
             Hbuild name Hname "--ref-ld" _
             (common_own_action name _ _ found_ref_ld) eq_refl Hfresh
             "ref_ld" eq_refl arg_strings ns VNone eq_refl Hns Hs).
  - exact (named_default py_int py_float n_blocks_ok parent_parser subparsers
             Hbuild name Hname "--ref-ld-chr" _
             (common_own_action name _ _ found_ref_ld_chr) eq_refl Hfresh
             "ref_ld_chr" eq_refl arg_strings ns (VPath "") eq_refl Hns Hs).
  - exact (named_default py_int py_float n_blocks_ok parent_parser subparsers
             Hbuild name Hname "--w-ld-chr" _
             (common_own_action name _ _ found_w_ld_chr) eq_refl Hfresh
             "w_ld_chr" eq_refl arg_strings ns VNone eq_refl Hns Hs).
Qed.

(** C9: [--bfile] and [--l2] are required by [generate-ldscores]: every
    accepted command line supplies both, and since [--l2] is a [store_true]
    flag, [l2] is [True] in every accepted configuration, whatever its
    declared default of [False]. *)
Theorem generate_ldscores_l2_always_true
  (py_int : string → option Z) (py_float : string → option float)
  (n_blocks_ok : value → bool) (parent_parser : ArgumentParser)
  (subparsers : list (string * ArgumentParser))
  (arg_strings : list string) (ns : gmap string value) :
  configure_parser parent_parser = Done subparsers →
  parent_dests_fresh parent_parser = true →
  invoke py_int py_float n_blocks_ok subparsers "generate-ldscores" arg_strings
    = Done ns →
  let P := subparser subparsers "generate-ldscores" in
  supplies P "--bfile" arg_strings = true
  ∧ supplies P "--l2" arg_strings = true
  ∧ ns !! "l2" = Some (VBool true)
  ∧ own_action "generate-ldscores" "--l2"
    = Some (mkAction "--l2" [] (Some "l2") NargsZero StoreTrue TNone
                     (DBool false) true).
Proof.
  intros Hbuild Hfresh Hns P.
  assert (supplies P "--l2" arg_strings = true) as Hl2.
  { eapply (named_required py_int py_float n_blocks_ok parent_parser subparsers
              Hbuild "generate-ldscores" generate_ldscores_subcommand "--l2");
      [vm_compute; reflexivity|reflexivity|reflexivity|exact Hns]. }
  split; [|split; [exact Hl2|split; [|vm_compute; reflexivity]]].
  - eapply (named_required py_int py_float n_blocks_ok parent_parser subparsers
              Hbuild "generate-ldscores" generate_ldscores_subcommand "--bfile");
      [vm_compute; reflexivity|reflexivity|reflexivity|exact Hns].
  - pose proof (named_flag py_int py_float n_blocks_ok parent_parser subparsers
                  Hbuild "generate-ldscores" generate_ldscores_subcommand
                  "--l2" _ (eq_refl : own_action "generate-ldscores" "--l2"
                     = Some (mkAction "--l2" [] (Some "l2") NargsZero StoreTrue
                               TNone (DBool false) true))
                  eq_refl Hfresh "l2" eq_refl arg_strings ns eq_refl eq_refl
                  Hns) as Hv.
    fold P in Hv. rewrite Hl2 in Hv. exact Hv.
Qed.

(** C4: in every subcommand, [--invert-anyway] is off unless supplied; with
    it off, the solve fails with SingularDesign on every ill-conditioned
    matrix; with it on, the solve does not fail: it uses the pseudo-inverse
    and flags the result as approximate. *)
Theorem singular_design_fails_unless_invert_anyway
  (py_int : string → option Z) (py_float : string → option float)
  (n_blocks_ok : value → bool) (parent_parser : ArgumentParser)
  (subparsers : list (string * ArgumentParser)) (name : string)
  (arg_strings : list string) (ns : gmap string value)
  {matrix coefficients : Type} (ill_conditioned : matrix → bool)
  (inverse_solve pseudo_inverse_solve : matrix → coefficients) :
  configure_parser parent_parser = Done subparsers →
  parent_dests_fresh parent_parser = true →
  name ∈ subcommands →
  invoke py_int py_float n_blocks_ok subparsers name arg_strings = Done ns →
  let supplied :=
    supplies (subparser subparsers name) "--invert-anyway" arg_strings in
  let run_solve :=
    solve ill_conditioned inverse_solve pseudo_inverse_solve
          (is_set ns "invert_anyway") in
  is_set ns "invert_anyway" = supplied
  ∧ (∀ m, ill_conditioned m = true → supplied = false →
          run_solve m = SingularDesign)
  ∧ (∀ m, ill_conditioned m = true → supplied = true →
          run_solve m = Approximate (pseudo_inverse_solve m))
  ∧ (∀ m, ill_conditioned m = false → run_solve m = Exact (inverse_solve m))
  ∧ (∀ m, run_solve m = SingularDesign ↔
          ill_conditioned m = true ∧ supplied = false).
Proof.
  intros Hbuild Hfresh Hname Hns supplied run_solve.
  pose proof (common_flag py_int py_float n_blocks_ok parent_parser subparsers name
                _ _ "invert_anyway" arg_strings ns Hbuild Hfresh Hname
                found_invert_anyway eq_refl eq_refl eq_refl eq_refl Hns)
    as Hflag.
  clear Hbuild Hns. fold supplied in Hflag. subst run_solve. unfold solve.
  rewrite Hflag. split; [reflexivity|].
  split; [by intros m -> ->|]. split; [by intros m -> ->|].
  split; [by intros m ->|].
  intros m. destruct (ill_conditioned m), supplied; split;
    try done; by intros [? ?].
Qed.

Lemma aligned_when_unchecked {snp : Type} (alleles_match : snp → bool)
  (snps : list snp) :
  omap is_aligned (map (harmonize_snp alleles_match true) snps) = snps.
Proof.
  induction snps as [|s l IH]; [reflexivity|].
  change (s :: omap is_aligned (map (harmonize_snp alleles_match true) l)
          = s :: l).
  by rewrite IH.
Qed.

Lemma aligned_cons {snp : Type} (alleles_match : snp → bool) (b : bool)
  (s : snp) (l : list snp) :
  omap is_aligned (map (harmonize_snp alleles_match b) (s :: l))
  = match is_aligned (harmonize_snp alleles_match b s) with
    | Some x => x :: omap is_aligned (map (harmonize_snp alleles_match b) l)
    | None => omap is_aligned (map (harmonize_snp alleles_match b) l)
    end.
Proof. reflexivity. Qed.

Lemma aligned_when_checked {snp : Type} (alleles_match : snp → bool)
  (snps : list snp) :
  omap is_aligned (map (harmonize_snp alleles_match false) snps)
  = List.filter alleles_match snps.
Proof.
  induction snps as [|s l IH]; [reflexivity|].
  rewrite aligned_cons, IH. unfold harmonize_snp. cbn [List.filter].
  by destruct (alleles_match s).
Qed.

Lemma dropped_when_checked {snp : Type} (alleles_match : snp → bool)
  (snps : list snp) :
  (length snps - length (List.filter alleles_match snps))%nat
  = length (List.filter (λ s, negb (alleles_match s)) snps).
Proof.
  pose proof (List.filter_length alleles_match snps) as H.
  unfold length in *. lia.
Qed.

(** C5: for [rg], [--no-check-alleles] is off unless supplied.  With it off,
    harmonization fails with AlleleMismatch for every SNP whose alleles do
    not match, and a run that is not escalated drops exactly those SNPs and
    reports their number; with it on, no SNP gets AlleleMismatch and none is
    dropped. *)
Theorem allele_mismatch_unless_no_check_alleles
  (py_int : string → option Z) (py_float : string → option float)
  (n_blocks_ok : value → bool) (parent_parser : ArgumentParser)
  (subparsers : list (string * ArgumentParser))
  (arg_strings : list string) (ns : gmap string value)
  {snp : Type} (alleles_match : snp → bool) (max_drop_rate : Q)
  (snps : list snp) :
  configure_parser parent_parser = Done subparsers →
  parent_dests_fresh parent_parser = true →
  invoke py_int py_float n_blocks_ok subparsers "rg" arg_strings = Done ns →
  let supplied :=
    supplies (subparser subparsers "rg") "--no-check-alleles" arg_strings in
  let no_check := is_set ns "no_check_alleles" in
  no_check = supplied
  ∧ (supplied = false → ∀ s, alleles_match s = false →
       harmonize_snp alleles_match no_check s = AlleleMismatch s)
  ∧ (supplied = false → ∀ h,
       harmonize alleles_match max_drop_rate no_check snps = Some h →
       kept h = List.filter alleles_match snps
       ∧ n_allele_mismatch h
         = length (List.filter (λ s, negb (alleles_match s)) snps))
  ∧ (supplied = true → ∀ s,
       harmonize_snp alleles_match no_check s = Aligned s)
  ∧ (supplied = true → (0 <= max_drop_rate)%Q →
       harmonize alleles_match max_drop_rate no_check snps
       = Some (mkHarmonized snps 0)).
Proof.
  intros Hbuild Hfresh Hns supplied no_check.
  assert ("rg" ∈ subcommands) as Hname
    by (unfold subcommands; apply elem_of_cons; by left).
  pose proof (common_flag py_int py_float n_blocks_ok parent_parser subparsers "rg"
                _ _ "no_check_alleles" arg_strings ns Hbuild Hfresh Hname
                found_no_check_alleles eq_refl eq_refl eq_refl eq_refl Hns)
    as Hflag.
  clear Hbuild Hns. fold supplied no_check in Hflag. rewrite Hflag.
  split; [reflexivity|]. split; [|split; [|split]]; intros ->.
  - intros s Hs. unfold harmonize_snp. by rewrite Hs.
  - intros h Hh. unfold harmonize in Hh.
    rewrite aligned_when_checked, dropped_when_checked in Hh.
    destruct (Qle_bool _ _); inversion Hh; subst h. by split.
  - done.
  - intros Hrate. unfold harmonize. rewrite aligned_when_unchecked.
    rewrite Nat.sub_diag.
    destruct (Qle_bool _ _) eqn:Hq; [reflexivity|]. exfalso.
    assert (Qle_bool (inject_Z (Z.of_nat 0))
              (max_drop_rate * inject_Z (Z.of_nat (length snps))) = true) as Ht.
    { apply Qle_bool_iff. apply Qmult_le_0_compat; [done|].
      unfold Qle. simpl. lia. }
    congruence.
Qed.

Lemma in_open_unit_interval_spec (k : Q) :
  in_open_unit_interval k = true ↔ (0 < k)%Q ∧ (k < 1)%Q.
Proof.
  unfold in_open_unit_interval.
  rewrite andb_true_iff, !negb_true_iff, <- !not_true_iff_false, !Qle_bool_iff.
  split; intros [H0 H1]; split;
    solve [by apply Qnot_le_lt | by apply Qlt_not_le].
Qed.


Lemma restricted_count_le (c : nat) (snps : list snp_info) :
  (length (filter (λ s, Is_true (in_category c s && maf_5_50 s)) snps)
   <= length (filter (λ s, Is_true (in_category c s)) snps))%nat.
Proof.
  induction snps as [|s l IH]; [reflexivity|].
  rewrite !filter_cons.
  destruct (in_category c s), (maf_5_50 s); simpl;
    repeat case_decide; simpl; try tauto; lia.
Qed.

(** The parser accepts [generate-ldscores] with two window units, with all
    three, and with none: no check of the window options is attached to
    them. *)
Example two_window_units_accepted :
  let window := ["ld_wind_snps"; "ld_wind_kb"; "ld_wind_cm"] in
  attributes window
    (sample_invoke 1000 "generate-ldscores"
       ["--bfile"; "x"; "--l2"; "--ld-wind-snps"; "10"; "--ld-wind-kb"; "1.5"])
  = Some [Some (VInt 10); Some (VFloat 1.5%float); Some VNone]
  ∧ attributes window
      (sample_invoke 1000 "generate-ldscores"
         ["--bfile"; "x"; "--l2"; "--ld-wind-snps"; "10"; "--ld-wind-kb"; "1.5";
          "--ld-wind-cm"; "2"])
    = Some [Some (VInt 10); Some (VFloat 1.5%float); Some (VFloat 2%float)]
  ∧ attributes window
      (sample_invoke 1000 "generate-ldscores" ["--bfile"; "x"; "--l2"])
    = Some [Some VNone; Some VNone; Some VNone].
Proof. repeat split; vm_compute; reflexivity. Qed.

(** ** The properties at sample command lines *)

Lemma sample_subparsers_built :
  configure_parser sample_parent = Done sample_subparsers.
Proof. vm_compute. reflexivity. Qed.

Lemma sample_parent_fresh : parent_dests_fresh sample_parent = true.
Proof. vm_compute. reflexivity. Qed.

Lemma h2_subcommand : "h2" ∈ subcommands.
Proof. apply elem_of_cons; right. apply elem_of_cons; by left. Qed.

Lemma rg_subcommand : "rg" ∈ subcommands.
Proof. apply elem_of_cons; by left. Qed.

Lemma h2_accepted :
  invoke sample_int sample_float sample_check sample_subparsers "h2" h2_argv
  = Done h2_namespace.
Proof. vm_cast_no_check (eq_refl (Done h2_namespace)). Qed.

Lemma rg_accepted :
  invoke sample_int sample_float sample_check sample_subparsers "rg" rg_argv
  = Done rg_namespace.
Proof. vm_cast_no_check (eq_refl (Done rg_namespace)). Qed.

Lemma ldscore_accepted :
  invoke sample_int sample_float sample_check sample_subparsers "generate-ldscores"
    ldscore_argv
  = Done ldscore_namespace.
Proof. vm_cast_no_check (eq_refl (Done ldscore_namespace)). Qed.

Lemma ref_ld_default_at_rg :
  configure_parser sample_parent = Done sample_subparsers
  ∧ parent_dests_fresh sample_parent = true
  ∧ "rg" ∈ subcommands
  ∧ supplies (subparser sample_subparsers "rg") "--ref-ld" rg_argv = false
  ∧ rg_namespace !! "ref_ld" = Some VNone.
Proof.
  assert (supplies (subparser sample_subparsers "rg") "--ref-ld" rg_argv
          = false) as Hs by (vm_compute; reflexivity).
  split; [exact sample_subparsers_built|]. split; [exact sample_parent_fresh|].
  split; [exact rg_subcommand|]. split; [exact Hs|].
  exact (proj1 (proj2 (proj2 (ref_ld_exclusive_with_asymmetric_defaults
                  sample_int sample_float sample_check sample_parent sample_subparsers
                  "rg" rg_argv sample_subparsers_built sample_parent_fresh
                  rg_subcommand)) rg_namespace rg_accepted) Hs).
Defined.

Lemma l2_true_at_ldscore :
  configure_parser sample_parent = Done sample_subparsers
  ∧ parent_dests_fresh sample_parent = true
  ∧ invoke sample_int sample_float sample_check sample_subparsers "generate-ldscores"
      ldscore_argv = Done ldscore_namespace
  ∧ ldscore_namespace !! "l2" = Some (VBool true).
Proof.
  split; [exact sample_subparsers_built|]. split; [exact sample_parent_fresh|].
  split; [exact ldscore_accepted|].
  exact (proj1 (proj2 (proj2 (generate_ldscores_l2_always_true
                  sample_int sample_float sample_check sample_parent sample_subparsers
                  ldscore_argv ldscore_namespace sample_subparsers_built
                  sample_parent_fresh ldscore_accepted)))).
Defined.

Lemma invert_anyway_at_h2 :
  configure_parser sample_parent = Done sample_subparsers
  ∧ parent_dests_fresh sample_parent = true
  ∧ "h2" ∈ subcommands
  ∧ invoke sample_int sample_float sample_check sample_subparsers "h2" h2_argv
    = Done h2_namespace
  ∧ supplies (subparser sample_subparsers "h2") "--invert-anyway" h2_argv = true
  ∧ solve (Z.eqb 0) (Z.div 1) (λ _ : Z, 0)
          (is_set h2_namespace "invert_anyway") 0
    = Approximate 0.
Proof.
  assert (supplies (subparser sample_subparsers "h2") "--invert-anyway" h2_argv
          = true) as Hs by (vm_compute; reflexivity).
  split; [exact sample_subparsers_built|]. split; [exact sample_parent_fresh|].
  split; [exact h2_subcommand|]. split; [exact h2_accepted|]. split; [exact Hs|].
  exact (proj1 (proj2 (proj2 (singular_design_fails_unless_invert_anyway
                  sample_int sample_float sample_check sample_parent sample_subparsers
                  "h2" h2_argv h2_namespace (Z.eqb 0) (Z.div 1) (λ _ : Z, 0)
                  sample_subparsers_built sample_parent_fresh h2_subcommand
                  h2_accepted)))
               0 eq_refl Hs).
Defined.

Lemma allele_mismatch_at_rg :
  configure_parser sample_parent = Done sample_subparsers
  ∧ parent_dests_fresh sample_parent = true
  ∧ invoke sample_int sample_float sample_check sample_subparsers "rg" rg_argv
    = Done rg_namespace
  ∧ supplies (subparser sample_subparsers "rg") "--no-check-alleles" rg_argv
    = false
  ∧ harmonize_snp sample_alleles_match (is_set rg_namespace "no_check_alleles")
      ("AG", "CT")
    = AlleleMismatch ("AG", "CT").
Proof.
  assert (supplies (subparser sample_subparsers "rg") "--no-check-alleles"
            rg_argv = false) as Hs by (vm_compute; reflexivity).
  split; [exact sample_subparsers_built|]. split; [exact sample_parent_fresh|].
  split; [exact rg_accepted|]. split; [exact Hs|].
  exact (proj1 (proj2 (allele_mismatch_unless_no_check_alleles
                  sample_int sample_float sample_check sample_parent sample_subparsers
                  rg_argv rg_namespace sample_alleles_match (1 # 10)%Q []
                  sample_subparsers_built sample_parent_fresh rg_accepted))
               Hs ("AG", "CT") eq_refl).
Defined.

(** * Further properties of the parsers *)

(** ** Every declared option *)

Lemma own_options_ok name :
  name ∈ subcommands → forallb option_ok (own_actions name) = true.
Proof.
  unfold subcommands. intros H.
  repeat (apply elem_of_cons in H as [->|H]; [by vm_compute|]).
  by apply not_elem_of_nil in H.
Qed.

Lemma own_option_ok name c d :
  name ∈ subcommands → c ∈ own_actions name → dest c = Some d →
  short_option c = false
  ∧ (∃ v, default_value (default_ c) = Some v)
  ∧ (kind c = StoreTrue → default_ c = DBool false).
Proof.
  intros Hname Hc Hd. pose proof (own_options_ok name Hname) as Hok.
  rewrite forallb_forall in Hok. apply list_elem_of_In in Hc.
  specialize (Hok c Hc). unfold option_ok in Hok. rewrite Hd in Hok.
  apply andb_true_iff in Hok as [Hok Hflag].
  apply andb_true_iff in Hok as [Hlong Hdef].
  split; [by apply negb_true_iff|]. split.
  - destruct (default_value (default_ c)) as [v|]; [by exists v|discriminate].
  - intros Hk. rewrite Hk in Hflag.
    destruct (default_ c) as [|[|]| | | |]; try discriminate. reflexivity.
Qed.

Lemma find_by_flag (l : list Action) c :
  NoDup (map flag l) → c ∈ l →
  find (λ x, String.eqb (flag x) (flag c)) l = Some c.
Proof.
  induction l as [|a l IH]; simpl; intros Hnd Hc.
  - by apply not_elem_of_nil in Hc.
  - apply NoDup_cons in Hnd as [Ha Hnd].
    destruct (String.eqb (flag a) (flag c)) eqn:Hf.
    + apply String.eqb_eq in Hf.
      apply elem_of_cons in Hc as [->|Hc]; [reflexivity|].
      exfalso. apply Ha. rewrite Hf. apply list_elem_of_fmap. by exists c.
    + apply elem_of_cons in Hc as [->|Hc]; [|by apply IH].
      rewrite String.eqb_refl in Hf. discriminate.
Qed.

Lemma own_action_elem name c :
  name ∈ subcommands → c ∈ own_actions name →
  own_action name (flag c) = Some c.
Proof.
  intros Hname Hc. unfold own_action. apply find_by_flag; [|exact Hc].
  pose proof (tables_ok_subcommands name Hname) as Hok. unfold tables_ok in Hok.
  apply andb_true_iff in Hok as [Hok _].
  apply andb_true_iff in Hok as [Hok _].
  apply andb_true_iff in Hok as [_ Hnd].
  by apply bool_decide_eq_true in Hnd.
Qed.

Lemma call_action_sets n_blocks_ok a ns v ns' :
  call_action n_blocks_ok a ns v = Done ns' → is_Some (ns' !! dest_attr a).
Proof.
  unfold call_action, ChecknBlocks_call. intros H.
  destruct (kind a).
  - inversion H; subst. rewrite lookup_insert_eq. by eexists.
  - inversion H; subst. rewrite lookup_insert_eq. by eexists.
  - destruct (ns !! dest_attr a) as [[| | | | | |items|]|];
      inversion H; subst; rewrite lookup_insert_eq; by eexists.
  - discriminate.
  - destruct (n_blocks_ok v); inversion H; subst.
    rewrite lookup_insert_eq. by eexists.
Qed.

(** X4: an option that the command line does not supply is left at its declared
    default, whichever subcommand and whichever declared option: every
    accepted configuration holds, under the option's destination, the
    [default=] of its declaration ([None] or [False] where the declaration
    gives none). *)
Theorem unsupplied_option_keeps_declared_default
  (py_int : string → option Z) (py_float : string → option float)
  (n_blocks_ok : value → bool) (parent_parser : ArgumentParser)
  (subparsers : list (string * ArgumentParser)) (name : string)
  (c : Action) (d : string) (arg_strings : list string)
  (ns : gmap string value) :
  configure_parser parent_parser = Done subparsers →
  parent_dests_fresh parent_parser = true →
  name ∈ subcommands →
  c ∈ own_actions name → dest c = Some d →
  invoke py_int py_float n_blocks_ok subparsers name arg_strings = Done ns →
  supplies (subparser subparsers name) (flag c) arg_strings = false →
  ns !! d = default_value (default_ c).
Proof.
  intros Hbuild Hfresh Hname Hc Hd Hns Hs.
  destruct (own_option_ok name c d Hname Hc Hd) as (Hlong & [v Hv] & _).
  rewrite Hv.
  exact (named_default py_int py_float n_blocks_ok parent_parser subparsers Hbuild
           name Hname (flag c) c (own_action_elem name c Hname Hc) Hlong Hfresh
           d Hd arg_strings ns v Hv Hns Hs).
Qed.

(** X5: every [store_true] flag of every subcommand is a boolean in every
    accepted configuration, and it is [True] exactly when the command line
    supplies the flag. *)
Theorem store_true_flag_set_iff_supplied
  (py_int : string → option Z) (py_float : string → option float)
  (n_blocks_ok : value → bool) (parent_parser : ArgumentParser)
  (subparsers : list (string * ArgumentParser)) (name : string)
  (c : Action) (d : string) (arg_strings : list string)
  (ns : gmap string value) :
  configure_parser parent_parser = Done subparsers →
  parent_dests_fresh parent_parser = true →
  name ∈ subcommands →
  c ∈ own_actions name → dest c = Some d → kind c = StoreTrue →
  invoke py_int py_float n_blocks_ok subparsers name arg_strings = Done ns →
  ns !! d
  = Some (VBool (supplies (subparser subparsers name) (flag c) arg_strings)).
Proof.
  intros Hbuild Hfresh Hname Hc Hd Hk Hns.
  destruct (own_option_ok name c d Hname Hc Hd) as (Hlong & _ & Hdef).
  exact (named_flag py_int py_float n_blocks_ok parent_parser subparsers Hbuild
           name Hname (flag c) c (own_action_elem name c Hname Hc) Hlong Hfresh
           d Hd arg_strings ns Hk (Hdef Hk) Hns).
Qed.

(** X6: every destination that a declared option of the subcommand writes to is
    present in every accepted configuration, supplied or not: reading
    [args.<dest>] downstream never finds the attribute missing. *)
Theorem declared_destinations_always_present
  (py_int : string → option Z) (py_float : string → option float)
  (n_blocks_ok : value → bool) (parent_parser : ArgumentParser)
  (subparsers : list (string * ArgumentParser)) (name : string)
  (c : Action) (d : string) (arg_strings : list string)
  (ns : gmap string value) :
  configure_parser parent_parser = Done subparsers →
  parent_dests_fresh parent_parser = true →
  name ∈ subcommands →
  c ∈ own_actions name → dest c = Some d →
  invoke py_int py_float n_blocks_ok subparsers name arg_strings = Done ns →
  is_Some (ns !! d).
Proof.
  intros Hbuild Hfresh Hname Hc Hd Hns.
  destruct (own_option_ok name c d Hname Hc Hd) as (Hlong & [v Hv] & _).
  destruct (supplies (subparser subparsers name) (flag c) arg_strings) eqn:Hs.
  - destruct (named_stored py_int py_float n_blocks_ok parent_parser subparsers
                Hbuild name Hname (flag c) c (own_action_elem name c Hname Hc)
                Hlong Hfresh d Hd (λ _, True) arg_strings ns) as (w & Hw & _);
      [|exact Hns|exact Hs|exists w; exact Hw].
    intros args0 v0 ns0 ns' _ Hcall.
    destruct (call_action_sets _ _ _ _ _ Hcall) as [w Hw].
    unfold dest_attr in Hw. rewrite Hd in Hw. exists w. split; [exact Hw|exact I].
  - exists v.
    exact (named_default py_int py_float n_blocks_ok parent_parser subparsers Hbuild
             name Hname (flag c) c (own_action_elem name c Hname Hc) Hlong
             Hfresh d Hd arg_strings ns v Hv Hns Hs).
Qed.

(** ** The declared groups, and nothing else *)

Lemma own_groups_pairs name g :
  name ∈ subcommands → g ∈ own_groups name →
  ∃ fa fb, _group_actions g = [fa; fb] ∧ pair_ok name fa fb = true.
Proof.
  intros Hname Hg.
  assert (forallb (λ g, match _group_actions g with
                        | [fa; fb] => pair_ok name fa fb
                        | _ => false
                        end) (own_groups name) = true) as Hok.
  { clear Hg. unfold subcommands in Hname.
    repeat (apply elem_of_cons in Hname as [->|Hname]; [by vm_compute|]).
    by apply not_elem_of_nil in Hname. }
  rewrite forallb_forall in Hok. apply list_elem_of_In in Hg.
  specialize (Hok g Hg).
  destruct (_group_actions g) as [|fa [|fb [|]]]; try discriminate.
  by exists fa, fb.
Qed.

Lemma exclusion_error_group py_int py_float n_blocks_ok parent subparsers name
  args x y :
  configure_parser parent = Done subparsers → name ∈ subcommands →
  invoke py_int py_float n_blocks_ok subparsers name args
  = Fail (NotAllowedWith x y) →
  x ∈ map flag (own_actions name) ∨ y ∈ map flag (own_actions name) →
  ∃ g, g ∈ own_groups name ∧ y ∈ group_conflicts [] (_group_actions g) x.
Proof.
  intros Hbuild Hname H Hown.
  destruct (built_subparser _ _ _ Hbuild Hname) as [HP Hinv]. clear Hbuild.
  rewrite Hinv in H. apply parse_args_NotAllowedWith in H.
  apply consume_NotAllowedWith in H as (Hc & _ & _).
  apply (own_conflicts_inv parent name (subparser subparsers name) HP) in Hc;
    [|exact Hown].
  apply action_conflicts_elem in Hc as (g & Hg & Hy).
  cbn [_mutually_exclusive_groups] in Hg. exists g. split; [exact Hg|exact Hy].
Qed.

(** X7: the mutually exclusive groups declared for a subcommand are pairs, and
    they are what the parser enforces among the declared options: a command
    line that supplies both members of a declared pair is never accepted, and
    a not-allowed-with error that names a declared option names the two
    members of a declared pair, both of them supplied. *)
Theorem declared_groups_enforced
  (py_int : string → option Z) (py_float : string → option float)
  (n_blocks_ok : value → bool) (parent_parser : ArgumentParser)
  (subparsers : list (string * ArgumentParser)) (name : string)
  (arg_strings : list string) :
  configure_parser parent_parser = Done subparsers →
  name ∈ subcommands →
  let P := subparser subparsers name in
  let out := invoke py_int py_float n_blocks_ok subparsers name arg_strings in
  (∀ g, g ∈ own_groups name →
     ∃ fa fb, _group_actions g = [fa; fb]
       ∧ (supplies P fa arg_strings = true →
          supplies P fb arg_strings = true →
          out = HelpExit ∨ ∃ e, out = Fail e))
  ∧ (∀ x y, out = Fail (NotAllowedWith x y) →
       x ∈ map flag (own_actions name) ∨ y ∈ map flag (own_actions name) →
       ∃ g, g ∈ own_groups name
            ∧ (_group_actions g = [x; y] ∨ _group_actions g = [y; x])
            ∧ supplies P x arg_strings = true
            ∧ supplies P y arg_strings = true).
Proof.
  intros Hbuild Hname P out. split.
  - intros g Hg.
    destruct (own_groups_pairs name g Hname Hg) as (fa & fb & Hm & Hpair).
    exists fa, fb. split; [exact Hm|].
    exact (proj1 (exclusive_pair py_int py_float n_blocks_ok parent_parser
                    subparsers name fa fb arg_strings Hbuild Hname Hpair)).
  - intros x y Hout Hown.
    destruct (exclusion_error_group py_int py_float n_blocks_ok parent_parser
                subparsers name arg_strings x y Hbuild Hname Hout Hown)
      as (g & Hg & Hy).
    destruct (own_groups_pairs name g Hname Hg) as (fa & fb & Hm & Hpair).
    rewrite Hm in Hy. apply pair_conflicts in Hy.
    assert (x ∈ [fa; fb]) as Hx.
    { destruct Hy as [[-> _]|[-> _]];
        [apply elem_of_cons; left; reflexivity|].
      apply elem_of_cons; right. apply elem_of_cons; left; reflexivity. }
    destruct (proj2 (exclusive_pair py_int py_float n_blocks_ok parent_parser
                       subparsers name fa fb arg_strings Hbuild Hname Hpair)
                    x y Hout (or_introl Hx)) as [Ha Hb].
    exists g. split; [exact Hg|]. rewrite Hm.
    destruct Hy as [[-> ->]|[-> ->]].
    + split; [left; reflexivity|]. split; [exact Ha|exact Hb].
    + split; [right; reflexivity|]. split; [exact Hb|exact Ha].
Qed.

Lemma window_options_own w :
  w ∈ window_options → w ∈ map flag (own_actions "generate-ldscores").
Proof.
  intros Hw.
  assert (forallb (λ w, bool_decide
                          (w ∈ map flag (own_actions "generate-ldscores")))
            window_options = true) as Hok by (by vm_compute).
  rewrite forallb_forall in Hok. apply list_elem_of_In in Hw.
  specialize (Hok w Hw). by apply bool_decide_eq_true in Hok.
Qed.

Lemma window_options_ungrouped g w :
  g ∈ own_groups "generate-ldscores" → w ∈ window_options →
  w ∉ _group_actions g.
Proof.
  intros Hg Hw.
  assert (forallb (λ g, forallb (λ w, negb (bool_decide (w ∈ _group_actions g)))
                          window_options)
            (own_groups "generate-ldscores") = true) as Hok by (by vm_compute).
  rewrite forallb_forall in Hok. apply list_elem_of_In in Hg.
  specialize (Hok g Hg). rewrite forallb_forall in Hok.
  apply list_elem_of_In in Hw. specialize (Hok w Hw).
  apply negb_true_iff, bool_decide_eq_false in Hok. exact Hok.
Qed.

(** X8: no command line of [generate-ldscores] is rejected for combining window
    options: whatever the parent parser and the arguments, a
    not-allowed-with error never names [--ld-wind-snps], [--ld-wind-kb] or
    [--ld-wind-cm], on either side. *)
Theorem window_options_never_excluded
  (py_int : string → option Z) (py_float : string → option float)
  (n_blocks_ok : value → bool) (parent_parser : ArgumentParser)
  (subparsers : list (string * ArgumentParser))
  (arg_strings : list string) (x y : string) :
  configure_parser parent_parser = Done subparsers →
  invoke py_int py_float n_blocks_ok subparsers "generate-ldscores" arg_strings
  = Fail (NotAllowedWith x y) →
  (x ∉ window_options) ∧ (y ∉ window_options).
Proof.
  intros Hbuild Hout.
  assert (∀ w, w ∈ window_options → (w = x ∨ w = y) → False) as Hno.
  { intros w Hw Hxy.
    destruct (exclusion_error_group py_int py_float n_blocks_ok parent_parser
                subparsers "generate-ldscores" arg_strings x y Hbuild
                generate_ldscores_subcommand Hout) as (g & Hg & Hy).
    { destruct Hxy as [<-|<-]; [left|right]; by apply window_options_own. }
    apply group_conflicts_elem in Hy as [Hx Hy]. simpl in Hy.
    apply (window_options_ungrouped g w Hg Hw).
    destruct Hxy as [->| ->]; [exact Hx|exact Hy]. }
  split; intros Hw; apply (Hno _ Hw); [left|right]; reflexivity.
Qed.

(** ** The list of [--rg] files *)

Lemma found_rg :
  own_action "rg" "--rg"
  = Some (mkAction "--rg" [] (Some "rg") NargsNone Append TPath DNone false).
Proof. by vm_compute. Qed.

(** X9: [--rg] appends: in an accepted [rg] configuration, [rg] is [None] when
    the option is never given (not an empty list), and a non-empty list when
    it is given. *)
Theorem rg_is_none_or_a_nonempty_list
  (py_int : string → option Z) (py_float : string → option float)
  (n_blocks_ok : value → bool) (parent_parser : ArgumentParser)
  (subparsers : list (string * ArgumentParser))
  (arg_strings : list string) (ns : gmap string value) :
  configure_parser parent_parser = Done subparsers →
  parent_dests_fresh parent_parser = true →
  invoke py_int py_float n_blocks_ok subparsers "rg" arg_strings = Done ns →
  let supplied := supplies (subparser subparsers "rg") "--rg" arg_strings in
  (supplied = false → ns !! "rg" = Some VNone)
  ∧ (supplied = true → ∃ l, ns !! "rg" = Some (VList l) ∧ l ≠ []).
Proof.
  intros Hbuild Hfresh Hns supplied.
  assert ("rg" ∈ subcommands) as Hname
    by (unfold subcommands; apply elem_of_cons; left; reflexivity).
  split; intros Hs.
  - exact (named_default py_int py_float n_blocks_ok parent_parser subparsers Hbuild
             "rg" Hname "--rg" _ found_rg eq_refl Hfresh "rg" eq_refl
             arg_strings ns VNone eq_refl Hns Hs).
  - destruct (named_stored py_int py_float n_blocks_ok parent_parser subparsers
                Hbuild "rg" Hname "--rg" _ found_rg eq_refl Hfresh "rg" eq_refl
                (λ w, ∃ l, w = VList l ∧ l ≠ []) arg_strings ns)
      as (w & Hw & l & -> & Hl); [|exact Hns|exact Hs|].
    + intros args0 v ns0 ns' _ Hcall. unfold call_action in Hcall.
      cbn [kind dest_attr dest] in Hcall.
      destruct (ns0 !! "rg") as [[| | | | | |items|]|];
        inversion Hcall; subst ns'; eexists;
        (split; [apply lookup_insert_eq|]); eexists; (split; [reflexivity|]).
      * discriminate.
      * intros Happ. by apply app_eq_nil in Happ as [_ ?].
      * discriminate.
    + exists l. split; [exact Hw|exact Hl].
Qed.

(** ** The subcommand table *)

Lemma configure_parser_table parent subparsers :
  configure_parser parent = Done subparsers →
  ∃ rg_parser h2_parser h2_cts_parser ldscore_parser,
    subparsers
    = [("rg", share_parent_actions [common_value; parent] rg_parser);
       ("h2", share_parent_actions [common_value; parent] h2_parser);
       ("h2-cts", share_parent_actions [common_value; parent] h2_cts_parser);
       ("generate-ldscores",
        share_parent_actions [common_value; parent] ldscore_parser)]
    ∧ add_parser [common_value; parent] (subcommand_script "rg")
      = Done rg_parser
    ∧ add_parser [common_value; parent] (subcommand_script "h2")
      = Done h2_parser
    ∧ add_parser [common_value; parent] (subcommand_script "h2-cts")
      = Done h2_cts_parser
    ∧ add_parser [common_value; parent] (subcommand_script "generate-ldscores")
      = Done ldscore_parser.
Proof.
  rewrite configure_parser_eq, common_ldsc_parser_eq, bind_Done_l.
  rewrite add_subparsers_eq. intros H.
  inv_bind H. inv_bind H_k. inv_bind H_k_k. inv_bind H_k_k_k.
  inversion H_k_k_k_k; subst subparsers. clear H_k_k_k_k.
  exists r, r0, r1, r2. split; [reflexivity|].
  split; [exact H_m|]. split; [exact H_k_m|]. split; [exact H_k_k_m|].
  exact H_k_k_k_m.
Qed.

(** ** The function a subcommand runs *)

Lemma configure_parser_add_parser parent subparsers name :
  configure_parser parent = Done subparsers → name ∈ subcommands →
  ∃ p, add_parser [common_value; parent] (subcommand_script name) = Done p
       ∧ subparser subparsers name
         = share_parent_actions [common_value; parent] p.
Proof.
  intros H Hname.
  apply configure_parser_table in H
    as (p1 & p2 & p3 & p4 & -> & H1 & H2 & H3 & H4).
  unfold subcommands in Hname.
  apply elem_of_cons in Hname as [->|Hname];
    [exists p1; split; [exact H1|reflexivity]|].
  apply elem_of_cons in Hname as [->|Hname];
    [exists p2; split; [exact H2|reflexivity]|].
  apply elem_of_cons in Hname as [->|Hname];
    [exists p3; split; [exact H3|reflexivity]|].
  apply elem_of_cons in Hname as [->|Hname];
    [exists p4; split; [exact H4|reflexivity]|].
  destruct (not_elem_of_nil _ Hname).
Qed.

Lemma add_parser_defaults parents adds d v p :
  add_parser parents (adds ++ [SetDefaults d v]) = Done p →
  _defaults (share_parent_actions parents p) !! d = Some v.
Proof.
  rewrite add_parser_eq. intros H. inv_bind H.
  unfold run_script in H_k. rewrite foldM_app in H_k. inv_bind H_k.
  cbn [foldM run_stmt mbind outcome_bind] in H_k_k.
  inversion H_k_k; subst p.
  unfold share_parent_actions, set_defaults. cbn [_defaults].
  apply lookup_insert_eq.
Qed.

Lemma subcommand_funcs name f :
  (name, f) ∈ [("rg", "sumstats.estimate_rg"); ("h2", "sumstats.estimate_h2");
               ("h2-cts", "sumstats.cell_type_specific");
               ("generate-ldscores", "ld.ldscore")] →
  name ∈ subcommands
  ∧ last (subcommand_script name) = Some (SetDefaults "func" (DFunc f)).
Proof.
  intros H.
  repeat (apply elem_of_cons in H as [H|H];
          [inversion H; subst; split; [|reflexivity]|]).
  5: by apply not_elem_of_nil in H.
  all: unfold subcommands.
  - apply elem_of_cons; left; reflexivity.
  - do 1 (apply elem_of_cons; right). apply elem_of_cons; left; reflexivity.
  - do 2 (apply elem_of_cons; right). apply elem_of_cons; left; reflexivity.
  - do 3 (apply elem_of_cons; right). apply elem_of_cons; left; reflexivity.
Qed.

Lemma initial_fold_none l : ∀ (ns : gmap string value) d,
  (∀ a, a ∈ l → dest a ≠ Some d) → ns !! d = None →
  fold_left
    (λ ns a, match dest a, default_value (default_ a) with
             | Some d, Some v =>
                 match ns !! d with None => <[d := v]> ns | Some _ => ns end
             | _, _ => ns
             end) l ns !! d = None.
Proof.
  induction l as [|a l IH]; simpl; intros ns d Hl Hns; [exact Hns|].
  apply IH.
  - intros x Hx. apply Hl. apply elem_of_cons. by right.
  - assert (dest a ≠ Some d) as Ha by (apply Hl; apply elem_of_cons; by left).
    destruct (dest a) as [d'|]; [|exact Hns].
    destruct (default_value (default_ a)); [|exact Hns].
    destruct (ns !! d'); [exact Hns|].
    rewrite lookup_insert_ne; [exact Hns|]. intros ->. by apply Ha.
Qed.

Lemma dest_attr_not_func a : dest a ≠ Some "func" → "func" ≠ dest_attr a.
Proof.
  unfold dest_attr. destruct (dest a) as [d|]; [|discriminate].
  intros H <-. by apply H.
Qed.

(** X3: every accepted configuration of a subcommand carries, under [func], the
    function that subcommand registers with [set_defaults]; no command line
    changes it, provided the parent parser declares no option whose
    destination is [func]. *)
Theorem func_is_the_subcommand_function
  (py_int : string → option Z) (py_float : string → option float)
  (n_blocks_ok : value → bool) (parent_parser : ArgumentParser)
  (subparsers : list (string * ArgumentParser)) (name f : string)
  (arg_strings : list string) (ns : gmap string value) :
  (name, f) ∈ [("rg", "sumstats.estimate_rg"); ("h2", "sumstats.estimate_h2");
               ("h2-cts", "sumstats.cell_type_specific");
               ("generate-ldscores", "ld.ldscore")] →
  configure_parser parent_parser = Done subparsers →
  (∀ a, a ∈ _actions parent_parser → dest a ≠ Some "func") →
  invoke py_int py_float n_blocks_ok subparsers name arg_strings = Done ns →
  ns !! "func" = Some (VFunc f).
Proof.
  intros Hf Hbuild Hparent Hns.
  destruct (subcommand_funcs name f Hf) as [Hname Hlast].
  destruct (built_subparser _ _ _ Hbuild Hname) as [HP Hinv].
  rewrite Hinv in Hns. clear Hinv.
  destruct (configure_parser_add_parser _ _ _ Hbuild Hname) as (p & Hp & HeqP).
  clear Hbuild.
  destruct (script_tables name Hname) as (adds & v & Hscript & _).
  rewrite Hscript in Hlast, Hp. rewrite last_snoc in Hlast.
  inversion Hlast; subst v. clear Hlast Hscript.
  apply add_parser_defaults in Hp. rewrite <- HeqP in Hp. clear HeqP p.
  set (P := subparser subparsers name) in *.
  assert (∀ a, a ∈ _actions P → "func" ≠ dest_attr a) as Hdest.
  { intros a Ha. apply dest_attr_not_func.
    destruct (built_cases parent_parser name P HP a Ha)
      as [Hown|(a0 & Ha0 & Hsame)].
    - exact (own_not_func name a Hname Hown).
    - destruct Hsame as (_ & _ & Hd & _). rewrite Hd. exact (Hparent a0 Ha0). }
  assert (initial_namespace P !! "func" = Some (VFunc f)) as Hinit.
  { unfold initial_namespace. rewrite lookup_union_r.
    - rewrite lookup_fmap, Hp. reflexivity.
    - apply initial_fold_none; [|apply lookup_empty].
      intros a Ha Hd. apply (Hdest a Ha). unfold dest_attr. by rewrite Hd. }
  apply parse_args_Done in Hns as (st & Hst & _ & <-).
  eapply (consume_invariant py_int py_float n_blocks_ok P
            (λ st, namespace st !! "func" = Some (VFunc f))
            (λ a, a ∈ _actions P)).
  6: exact Hst.
  5: exact Hinit.
  - intros a args0 st0 st0' Ha HI Htk.
    apply take_action_Done in Htk as (w & _ & Hcall & _).
    rewrite (call_action_other _ _ _ _ _ "func" Hcall); [exact HI|].
    exact (Hdest a Ha).
  - intros s st0 HI. exact HI.
  - intros a Ha _. exact Ha.
  - apply (zip_Forall_snd
             (λ c, ∀ a os e, c = ClsO (Some a) os e → a ∈ _actions P)).
    apply classify_actions.
Qed.

(** ** The empty command line *)

Lemma parse_args_nil py_int py_float n_blocks_ok p :
  parse_args py_int py_float n_blocks_ok p []
  = match missing_required p (start p) with
    | [] =>
        match unmet_groups p (start p) with
        | [] => Done (initial_namespace p)
        | g :: _ => Fail (OneOfRequired (_group_actions g))
        end
    | names => Fail (RequiredArguments names)
    end.
Proof.
  unfold parse_args, parse_known_args, start. cbn [classify first_ambiguous zip].
  cbn [consume mbind outcome_bind].
  destruct (missing_required p _); [|reflexivity].
  destruct (unmet_groups p _); reflexivity.
Qed.

Lemma missing_required_start p :
  missing_required p (start p)
  = map flag (List.filter required (_actions p)).
Proof.
  unfold missing_required, start. cbn [seen_actions].
  induction (_actions p) as [|a l IH]; [reflexivity|].
  cbn [omap list_omap List.filter]. fold (@omap list _ Action string) in *.
  rewrite bool_decide_eq_false_2 by apply not_elem_of_empty.
  rewrite andb_true_r. destruct (required a); cbn [map]; by rewrite IH.
Qed.

Lemma same_but_default_required pa l :
  Forall2 same_but_default pa l →
  map flag (List.filter required pa) = map flag (List.filter required l).
Proof.
  induction 1 as [|a b pa l Hab _ IH]; [reflexivity|].
  destruct Hab as (Hf & _ & _ & _ & _ & _ & Hr & _).
  cbn [List.filter]. rewrite Hr.
  destruct (required b); cbn [map]; by rewrite ?Hf, IH.
Qed.

Lemma copy_groups_required c todo : ∀ i g,
  g ∈ copy_groups i todo c →
  ∃ g0, g0 ∈ todo ∧ group_required g = group_required g0.
Proof.
  induction todo as [|g0 todo IH]; simpl; intros i g Hg.
  - by apply not_elem_of_nil in Hg.
  - apply elem_of_cons in Hg as [->|Hg].
    + exists g0. split; [apply elem_of_cons; by left|reflexivity].
    + apply IH in Hg as (g1 & Hg1 & Hr). exists g1.
      split; [apply elem_of_cons; by right|exact Hr].
Qed.

Lemma unmet_groups_none p st :
  (∀ g, g ∈ _mutually_exclusive_groups p → group_required g = false) →
  unmet_groups p st = [].
Proof.
  unfold unmet_groups. intros H.
  induction (_mutually_exclusive_groups p) as [|g l IH]; [reflexivity|].
  rewrite filter_cons.
  rewrite (H g) by (apply elem_of_cons; by left). cbn [andb].
  rewrite decide_False by (intros []). apply IH.
  intros g' Hg'. apply H. apply elem_of_cons. by right.
Qed.

Lemma own_groups_optional name g :
  name ∈ subcommands → g ∈ own_groups name → group_required g = false.
Proof.
  intros Hname Hg.
  assert (forallb (λ g, negb (group_required g)) (own_groups name) = true)
    as Hok.
  { clear Hg. unfold subcommands in Hname.
    repeat (apply elem_of_cons in Hname as [->|Hname]; [by vm_compute|]).
    by apply not_elem_of_nil in Hname. }
  rewrite forallb_forall in Hok. apply list_elem_of_In in Hg.
  by apply negb_true_iff, Hok.
Qed.

Lemma own_required name :
  name ∈ subcommands →
  map flag (List.filter required (help_action :: common_actions)) = []
  ∧ map flag (List.filter required (script_actions (subcommand_script name)))
    = (if String.eqb name "generate-ldscores" then ["--bfile"; "--l2"] else []).
Proof.
  unfold subcommands. intros Hname. split; [by vm_compute|].
  repeat (apply elem_of_cons in Hname as [->|Hname]; [by vm_compute|]).
  by apply not_elem_of_nil in Hname.
Qed.

(** X10: what the parsers make of an empty command line.  [generate-ldscores]
    refuses it and reports [--bfile] and [--l2], after the options the
    parent parser requires.  [rg], [h2] and [h2-cts] require nothing of
    their own: when the parent parser requires no option and no group, they
    accept the empty command line and return the defaults. *)
Theorem empty_command_line
  (py_int : string → option Z) (py_float : string → option float)
  (n_blocks_ok : value → bool) (parent_parser : ArgumentParser)
  (subparsers : list (string * ArgumentParser)) :
  configure_parser parent_parser = Done subparsers →
  let parent_requires :=
    map flag (List.filter required (_actions parent_parser)) in
  invoke py_int py_float n_blocks_ok subparsers "generate-ldscores" []
  = Fail (RequiredArguments (parent_requires ++ ["--bfile"; "--l2"]))
  ∧ ∀ name, name ∈ ["rg"; "h2"; "h2-cts"] →
      parent_requires = [] →
      (∀ g, g ∈ _mutually_exclusive_groups parent_parser →
            group_required g = false) →
      invoke py_int py_float n_blocks_ok subparsers name []
      = Done (initial_namespace (subparser subparsers name)).
Proof.
  intros Hbuild parent_requires.
  assert (∀ name, name ∈ subcommands →
            invoke py_int py_float n_blocks_ok subparsers name []
            = parse_args py_int py_float n_blocks_ok (subparser subparsers name) []
            ∧ missing_required (subparser subparsers name)
                (start (subparser subparsers name))
              = parent_requires
                  ++ (if String.eqb name "generate-ldscores"
                      then ["--bfile"; "--l2"] else [])
            ∧ ((∀ g, g ∈ _mutually_exclusive_groups parent_parser →
                     group_required g = false) →
               unmet_groups (subparser subparsers name)
                 (start (subparser subparsers name)) = [])) as Hall.
  { intros name Hname.
    destruct (built_subparser _ _ _ Hbuild Hname) as [HP Hinv].
    clear Hbuild. split; [apply Hinv|]. clear Hinv.
    destruct (own_required name Hname) as [Hcommon Hscript].
    split.
    - rewrite missing_required_start.
      destruct (built_actions _ _ _ HP) as (pa & -> & Hsame).
      rewrite app_comm_cons, !List.filter_app, !map_app.
      rewrite Hcommon, Hscript, (same_but_default_required _ _ Hsame).
      reflexivity.
    - intros Hgroups. apply unmet_groups_none. intros g Hg.
      rewrite (built_groups _ _ _ HP) in Hg.
      apply elem_of_app in Hg as [Hg|Hg].
      { apply (own_groups_optional name g Hname). unfold own_groups.
        apply elem_of_app. by left. }
      apply elem_of_app in Hg as [Hg|Hg].
      { apply copy_groups_required in Hg as (g0 & Hg0 & ->). by apply Hgroups. }
      apply (own_groups_optional name g Hname). unfold own_groups.
      apply elem_of_app. by right. }
  clear Hbuild. split.
  - destruct (Hall "generate-ldscores" generate_ldscores_subcommand)
      as (-> & Hmiss & _).
    rewrite parse_args_nil, Hmiss. cbn [String.eqb Ascii.eqb Bool.eqb].
    destruct parent_requires; reflexivity.
  - intros name Hname Hreq Hgroups.
    assert (name ∈ subcommands ∧ String.eqb name "generate-ldscores" = false)
      as [Hsub Hne].
    { unfold subcommands.
      repeat (apply elem_of_cons in Hname as [->|Hname];
              [split; [|reflexivity]|]).
      4: by apply not_elem_of_nil in Hname.
      - apply elem_of_cons; left; reflexivity.
      - do 1 (apply elem_of_cons; right). apply elem_of_cons; left; reflexivity.
      - do 2 (apply elem_of_cons; right). apply elem_of_cons; left; reflexivity. }
    destruct (Hall name Hsub) as (-> & Hmiss & Hunmet).
    rewrite parse_args_nil, Hmiss, Hreq, Hne, (Hunmet Hgroups). reflexivity.
Qed.

(** ** The parent parsers [configure_parser] refuses *)

Lemma all_disjoint_app ls1 ls2 :
  all_disjoint (ls1 ++ ls2) = true ↔
  all_disjoint ls1 = true ∧ all_disjoint ls2 = true
  ∧ ∀ x y s, x ∈ ls1 → y ∈ ls2 → s ∈ x → s ∉ y.
Proof.
  induction ls1 as [|x ls1 IH]; simpl.
  - split; [intros H|by intros (_ & H & _)].
    split; [done|]. split; [done|]. intros x y s Hx. by apply not_elem_of_nil in Hx.
  - rewrite !andb_true_iff, IH, forallb_app, andb_true_iff.
    rewrite !forallb_forall. split.
    + intros [[H1 H2] (H3 & H4 & H5)]. repeat split; try done.
      intros x' y s Hx' Hy Hs. apply elem_of_cons in Hx' as [->|Hx'].
      * apply list_elem_of_In in Hy, Hs. specialize (H2 y Hy).
        rewrite forallb_forall in H2. specialize (H2 s Hs).
        by apply negb_true_iff, bool_decide_eq_false in H2.
      * by apply (H5 x' y s).
    + intros ([H1 H3] & H4 & H5). repeat split; try done.
      * intros y Hy. apply forallb_forall. intros s Hs.
        apply negb_true_iff, bool_decide_eq_false.
        apply list_elem_of_In in Hy, Hs. apply (H5 x y s); try done.
        apply elem_of_cons; by left.
      * intros x' y s Hx'. apply H5. apply elem_of_cons; by right.
Qed.

Lemma all_disjoint_fresh (l q : list Action) :
  (∀ x y s, x ∈ map option_strings l → y ∈ map option_strings q →
            s ∈ x → s ∉ y)
  ↔ fresh l q.
Proof.
  unfold fresh. split.
  - intros H a s b Ha Hs Hb.
    apply (H (option_strings a) (option_strings b) s); try done;
      apply list_elem_of_fmap; eauto.
  - intros H x y s Hx Hy Hs.
    apply list_elem_of_fmap in Hx as (a & -> & Ha).
    apply list_elem_of_fmap in Hy as (b & -> & Hb). by apply (H a s b).
Qed.

Lemma all_disjoint_snoc (q : list Action) (a : Action) :
  all_disjoint (map option_strings (q ++ [a])) = true ↔
  all_disjoint (map option_strings q) = true ∧ fresh q [a].
Proof.
  rewrite map_app, all_disjoint_app, all_disjoint_fresh.
  split; [intros (H1 & _ & H2); by split|intros [H1 H2]].
  split; [exact H1|]. split; [reflexivity|exact H2].
Qed.

Lemma option_string_actions_fresh q s :
  (∀ b, b ∈ _actions q → s ∉ option_strings b) →
  _option_string_actions q s = None.
Proof.
  unfold _option_string_actions.
  induction (_actions q) as [|b l IH]; simpl; intros H; [reflexivity|].
  rewrite bool_decide_eq_false_2 by (apply H; apply elem_of_cons; by left).
  apply IH. intros b' Hb'. apply H. apply elem_of_cons. by right.
Qed.

Lemma add_action_succeeds a q :
  fresh (_actions q) [a] →
  _add_action a q
  = Done (mkParser (_actions q ++ [a]) (_mutually_exclusive_groups q)
            (_defaults q)).
Proof.
  unfold _add_action. intros Hfr.
  assert (∀ l, (∀ s, s ∈ l → _option_string_actions q s = None) →
               filter (λ s, is_Some (_option_string_actions q s)) l = [])
    as Hnil.
  { induction l as [|s l IH]; intros H; [reflexivity|].
    rewrite filter_cons, decide_False.
    - apply IH. intros s' Hs'. apply H. apply elem_of_cons. by right.
    - rewrite H by (apply elem_of_cons; by left). by apply is_Some_None. }
  rewrite Hnil; [reflexivity|].
  intros s Hs. apply option_string_actions_fresh. intros b Hb Hsb.
  apply (Hfr b s a Hb Hsb); [apply elem_of_cons; by left|exact Hs].
Qed.

Lemma all_disjoint_actions_app (l1 l2 : list Action) :
  all_disjoint (map option_strings (l1 ++ l2)) = true ↔
  all_disjoint (map option_strings l1) = true
  ∧ all_disjoint (map option_strings l2) = true
  ∧ fresh l1 l2.
Proof. by rewrite map_app, all_disjoint_app, all_disjoint_fresh. Qed.

Lemma fresh_weaken_r l q q' : fresh l (q ++ q') → fresh l q'.
Proof.
  intros H a s b Ha Hs Hb. apply (H a s b); try done. apply elem_of_app; by right.
Qed.

Lemma add_container_action_optional c a q :
  required a
  && bool_decide (is_Some (last_group (_mutually_exclusive_groups c) 0
                             (flag a))) = false →
  _add_container_action c a q = _add_action a q.
Proof. unfold _add_container_action. by intros ->. Qed.

Lemma foldM_add_container_action_succeeds c l : ∀ q,
  (∀ a, a ∈ l →
        required a
        && bool_decide (is_Some (last_group (_mutually_exclusive_groups c) 0
                                   (flag a))) = false) →
  all_disjoint (map option_strings (_actions q ++ l)) = true →
  ∃ q', foldM (_add_container_action c) l q = Done q'.
Proof.
  induction l as [|a l IH]; intros q Hreq Hd; [by eexists|].
  cbn [foldM].
  rewrite add_container_action_optional
    by (apply Hreq; apply elem_of_cons; by left).
  change (_actions q ++ a :: l) with (_actions q ++ [a] ++ l) in Hd.
  rewrite app_assoc in Hd.
  pose proof Hd as Hd'. apply all_disjoint_actions_app in Hd' as (Hqa & _ & _).
  apply all_disjoint_snoc in Hqa as [_ Hfr].
  rewrite (add_action_succeeds a q Hfr). cbn [mbind outcome_bind].
  apply IH; [|exact Hd].
  intros a' Ha'. apply Hreq. apply elem_of_cons. by right.
Qed.

Lemma foldM_add_container_action_disjoint c l : ∀ q q',
  foldM (_add_container_action c) l q = Done q' →
  all_disjoint (map option_strings (_actions q)) = true →
  all_disjoint (map option_strings (_actions q ++ l)) = true
  ∧ ∀ a, a ∈ l →
         required a
         && bool_decide (is_Some (last_group (_mutually_exclusive_groups c) 0
                                    (flag a))) = false.
Proof.
  induction l as [|a l IH]; intros q q' H Hd.
  - rewrite app_nil_r. split; [exact Hd|].
    intros a Ha. by apply not_elem_of_nil in Ha.
  - cbn [foldM] in H. inv_bind H. unfold _add_container_action in H_m.
    destruct (required a && _) eqn:Hreq; [discriminate|].
    apply add_action_Done in H_m as [-> Hfr].
    apply IH in H_k as [Hd' Hreq'].
    + cbn [_actions] in Hd'. rewrite <- app_assoc in Hd'. split; [exact Hd'|].
      intros a' Ha'. apply elem_of_cons in Ha' as [->|Ha'];
        [exact Hreq|by apply Hreq'].
    + cbn [_actions]. apply all_disjoint_snoc. split; [exact Hd|].
      by apply fresh_sym.
Qed.

Lemma add_argument_succeeds args kw q :
  call_ok (args, kw) = true →
  all_disjoint (map option_strings (_actions q ++ declared (args, kw))) = true →
  ∃ a, declared (args, kw) = [a]
       ∧ add_argument args kw q
         = Done (mkParser (_actions q ++ [a]) (_mutually_exclusive_groups q)
                   (_defaults q)).
Proof.
  unfold call_ok. intros Hok Hd. apply andb_true_iff in Hok as [Hexp Hdecl].
  unfold add_argument. rewrite (make_action_explicit args kw _ Hexp).
  unfold declared in *. cbn [fst snd] in *.
  destruct (make_action args kw ∅) as [a| |]; try discriminate.
  exists a. split; [reflexivity|]. cbn [mbind outcome_bind].
  apply add_action_succeeds.
  by apply all_disjoint_snoc in Hd as [_ Hfr].
Qed.

Lemma add_arguments_succeeds members : ∀ q,
  forallb call_ok members = true →
  all_disjoint (map option_strings (_actions q ++ flat_map declared members))
  = true →
  ∃ q', add_arguments members q = Done q'
        ∧ _actions q' = _actions q ++ flat_map declared members.
Proof.
  unfold add_arguments.
  induction members as [|[args kw] members IH]; intros q Hok Hd.
  - exists q. split; [reflexivity|]. by rewrite app_nil_r.
  - cbn [forallb] in Hok. apply andb_true_iff in Hok as [Hc Hok].
    cbn [flat_map] in *. rewrite app_assoc in Hd.
    pose proof Hd as Hd'. apply all_disjoint_actions_app in Hd' as (Hqa & _ & _).
    destruct (add_argument_succeeds args kw q Hc Hqa) as (a & Ha & Hadd).
    cbn [foldM fst snd]. rewrite Hadd. cbn [mbind outcome_bind].
    rewrite Ha in *.
    destruct (IH (mkParser (_actions q ++ [a]) (_mutually_exclusive_groups q)
                    (_defaults q)) Hok Hd) as (q' & Hq' & Hact).
    exists q'. split; [exact Hq'|]. rewrite Hact. cbn [_actions].
    by rewrite <- app_assoc.
Qed.

Lemma retarget_option_strings d v l :
  map option_strings (map (retarget d v) l) = map option_strings l.
Proof.
  rewrite map_map. apply map_ext. intros a. unfold retarget.
  by destruct (bool_decide _).
Qed.

Lemma run_stmt_succeeds s q :
  stmt_ok s = true →
  all_disjoint (map option_strings (_actions q ++ stmt_actions s)) = true →
  ∃ q', run_stmt s q = Done q'
        ∧ map option_strings (_actions q')
          = map option_strings (_actions q ++ stmt_actions s).
Proof.
  destruct s as [args kw|req members|d v]; cbn [stmt_ok stmt_actions run_stmt].
  - intros Hok Hd.
    destruct (add_argument_succeeds args kw q Hok Hd) as (a & Ha & Hadd).
    rewrite Hadd, Ha. by eexists.
  - intros Hok Hd. apply andb_true_iff in Hok as [Hok Hreq].
    apply negb_true_iff in Hreq. rewrite Hreq.
    destruct (add_arguments_succeeds members q Hok Hd) as (q' & Hq' & Hact).
    rewrite Hq'. cbn [mbind outcome_bind]. eexists. split; [reflexivity|].
    cbn [_actions]. by rewrite Hact.
  - intros _ _. eexists. split; [reflexivity|].
    unfold set_defaults. cbn [_actions].
    by rewrite app_nil_r, retarget_option_strings.
Qed.

Lemma run_script_succeeds script : ∀ q,
  forallb stmt_ok script = true →
  all_disjoint (map option_strings (_actions q) ++
                map option_strings (script_actions script)) = true →
  ∃ q', run_script script q = Done q'.
Proof.
  unfold run_script, script_actions.
  induction script as [|s script IH]; intros q Hok Hd; [by eexists|].
  cbn [forallb] in Hok. apply andb_true_iff in Hok as [Hs Hok].
  cbn [flat_map] in Hd. rewrite map_app, app_assoc, <- map_app in Hd.
  pose proof Hd as Hd'. apply all_disjoint_app in Hd' as (Hqs & _ & _).
  destruct (run_stmt_succeeds s q Hs Hqs) as (q1 & Hq1 & Hact).
  cbn [foldM]. rewrite Hq1. cbn [mbind outcome_bind].
  apply IH; [exact Hok|]. by rewrite Hact.
Qed.

Lemma add_container_actions_eq c p :
  _add_container_actions c p
  = foldM (_add_container_action c) (_actions c)
      (mkParser (_actions p)
         (_mutually_exclusive_groups p
            ++ copy_groups 0 (_mutually_exclusive_groups c) c)
         (_defaults p))
    ≫= λ p', Done (mkParser (_actions p') (_mutually_exclusive_groups p')
                     (_defaults c ∪ _defaults p')).
Proof. reflexivity. Qed.

Lemma declared_option_strings_eq :
  declared_option_strings
  = remove_dups (flat_map option_strings (flat_map own_actions subcommands)).
Proof. by vm_compute. Qed.

Lemma declared_option_strings_elem name b s :
  name ∈ subcommands → b ∈ own_actions name → s ∈ option_strings b →
  s ∈ declared_option_strings.
Proof.
  intros Hname Hb Hs. rewrite declared_option_strings_eq.
  apply (proj2 (elem_of_remove_dups _ _)).
  apply (proj2 (list_elem_of_In _ _)).
  apply (proj2 (in_flat_map option_strings _ s)).
  exists b. split; [|by apply list_elem_of_In].
  apply (proj2 (in_flat_map own_actions subcommands b)).
  exists name. split; by apply list_elem_of_In.
Qed.

Lemma declared_option_strings_inv s :
  s ∈ declared_option_strings →
  ∃ name b, name ∈ subcommands ∧ b ∈ own_actions name ∧ s ∈ option_strings b.
Proof.
  rewrite declared_option_strings_eq. intros H.
  apply (proj1 (elem_of_remove_dups _ _)) in H.
  apply (proj1 (list_elem_of_In _ _)) in H.
  apply (proj1 (in_flat_map option_strings _ s)) in H as (b & Hb & Hs).
  apply (proj1 (in_flat_map own_actions subcommands b)) in Hb
    as (name & Hname & Hb).
  exists name, b. repeat split; by apply list_elem_of_In.
Qed.

Lemma own_scripts_ok name :
  name ∈ subcommands →
  forallb stmt_ok (subcommand_script name) = true
  ∧ all_disjoint (map option_strings (own_actions name)) = true.
Proof.
  unfold subcommands. intros H.
  repeat (apply elem_of_cons in H as [->|H]; [by vm_compute|]).
  by apply not_elem_of_nil in H.
Qed.

Lemma parent_compatible_spec parent :
  parent_compatible parent = true ↔
  (∀ a, a ∈ _actions parent →
        required a
        && bool_decide (is_Some (last_group (_mutually_exclusive_groups parent)
                                   0 (flag a))) = false)
  ∧ all_disjoint (map option_strings (_actions parent)) = true
  ∧ ∀ name, name ∈ subcommands → fresh (_actions parent) (own_actions name).
Proof.
  unfold parent_compatible. rewrite !andb_true_iff, !forallb_forall.
  split.
  - intros [[Hreq Hd] Hfr]. split; [|split; [exact Hd|]].
    + intros a Ha. apply negb_true_iff, Hreq. by apply list_elem_of_In.
    + intros name Hname a s b Ha Hs Hb Hsb.
      apply list_elem_of_In in Ha. specialize (Hfr a Ha).
      rewrite forallb_forall in Hfr. apply list_elem_of_In in Hs.
      specialize (Hfr s Hs). apply negb_true_iff, bool_decide_eq_false in Hfr.
      apply Hfr. by apply (declared_option_strings_elem name b).
  - intros (Hreq & Hd & Hfr). split; [split; [|exact Hd]|].
    + intros a Ha. apply negb_true_iff, Hreq. by apply list_elem_of_In.
    + intros a Ha. apply forallb_forall. intros s Hs.
      apply negb_true_iff, bool_decide_eq_false. intros Hdecl.
      apply declared_option_strings_inv in Hdecl as (name & b & Hname & Hb & Hsb).
      apply list_elem_of_In in Ha, Hs. by apply (Hfr name Hname a s b).
Qed.

Lemma add_parser_succeeds parent name :
  parent_compatible parent = true → name ∈ subcommands →
  ∃ p, add_parser [common_value; parent] (subcommand_script name) = Done p.
Proof.
  intros Hok Hname. apply parent_compatible_spec in Hok as (Hreq & Hd & Hfr).
  specialize (Hfr name Hname).
  destruct (own_scripts_ok name Hname) as [Hscript Hown].
  unfold own_actions in Hown, Hfr. rewrite app_comm_cons in Hown, Hfr.
  apply all_disjoint_actions_app in Hown as (Hhc & Hsc & Hcross).
  rewrite add_parser_eq, new_parser_eq, add_container_actions_eq.
  destruct (foldM_add_container_action_succeeds parent (_actions parent)
              (mkParser (_actions with_common_value)
                 (_mutually_exclusive_groups with_common_value
                    ++ copy_groups 0 (_mutually_exclusive_groups parent) parent)
                 (_defaults with_common_value)) Hreq) as [q Hq].
  { cbn [_actions with_common_value]. apply all_disjoint_actions_app.
    split; [exact Hhc|]. split; [exact Hd|].
    apply fresh_sym. by eapply fresh_weaken. }
  rewrite Hq. cbn [mbind outcome_bind].
  apply foldM_add_container_action in Hq as (Ha & _).
  apply run_script_succeeds; [exact Hscript|].
  cbn [_actions] in *. rewrite Ha, <- map_app.
  cbn [_actions with_common_value].
  apply all_disjoint_actions_app. split; [|split; [exact Hsc|]].
  - apply all_disjoint_actions_app. split; [exact Hhc|]. split; [exact Hd|].
    apply fresh_sym. by eapply fresh_weaken.
  - apply fresh_app; [exact Hcross|]. by eapply fresh_weaken_r.
Qed.

(** A parent parser that [configure_parser] builds the subcommands on is
    compatible with the declarations. *)
Lemma configure_parser_Done_compatible parent_parser subparsers :
  configure_parser parent_parser = Done subparsers →
  parent_compatible parent_parser = true.
Proof.
  intros H. apply parent_compatible_spec.
  assert (∀ name, name ∈ subcommands →
                  fresh (_actions parent_parser) (own_actions name)) as Hfr.
  { intros name Hname.
    destruct (built_subparser _ _ _ H Hname) as [HP _].
    exact (built_fresh _ _ _ HP). }
  apply configure_parser_table in H as (p1 & _ & _ & _ & _ & H & _).
  rewrite add_parser_eq, new_parser_eq, add_container_actions_eq in H.
  inv_bind H. clear H_k. inv_bind H_m. clear H_m_k.
  apply foldM_add_container_action_disjoint in H_m_m as [Hd Hreq].
  + split; [exact Hreq|]. split; [|exact Hfr].
    cbn [_actions with_common_value] in Hd.
    by apply all_disjoint_actions_app in Hd as (_ & Hd & _).
  + by vm_compute.
Qed.

(** On a top-level parser without subparsers, a compatible parent is
    enough. *)
Lemma compatible_configure_parser_Done parent_parser :
  parent_compatible parent_parser = true →
  ∃ subparsers, configure_parser parent_parser = Done subparsers.
Proof.
  intros Hok.
  rewrite configure_parser_eq, common_ldsc_parser_eq, bind_Done_l.
  rewrite add_subparsers_eq.
  destruct (add_parser_succeeds parent_parser "rg" Hok) as [p1 ->].
  { apply elem_of_cons; left; reflexivity. }
  destruct (add_parser_succeeds parent_parser "h2" Hok) as [p2 ->].
  { apply elem_of_cons; right. apply elem_of_cons; left; reflexivity. }
  destruct (add_parser_succeeds parent_parser "h2-cts" Hok) as [p3 ->].
  { do 2 (apply elem_of_cons; right). apply elem_of_cons; left; reflexivity. }
  destruct (add_parser_succeeds parent_parser "generate-ldscores" Hok)
    as [p4 ->].
  { exact generate_ldscores_subcommand. }
  eexists. reflexivity.
Qed.

(** X1: [configure_parser] raises on every parent parser that is not
    compatible with its declarations: one with a required option in one of
    its mutually exclusive groups, one with two options that share an option
    string, or one with an option string that the subcommands declare ([-h]
    and [--help] among them, so the parent must be created with
    [add_help=False]). *)
Theorem configure_parser_refuses_incompatible_parent
  (parent_parser : ArgumentParser) :
  parent_compatible parent_parser = false →
  ∀ subparsers, configure_parser parent_parser ≠ Done subparsers.
Proof.
  intros Hbad subparsers H.
  apply configure_parser_Done_compatible in H. congruence.
Qed.

(** ** Options spelled out, and the help option *)

Lemma same_but_default_strings x a0 :
  same_but_default x a0 → option_strings x = option_strings a0.
Proof. intros (Hf & Ha & _). unfold option_strings. by rewrite Hf, Ha. Qed.

Lemma all_disjoint_unique (l : list Action) :
  all_disjoint (map option_strings l) = true →
  ∀ x y s, x ∈ l → y ∈ l → s ∈ option_strings x → s ∈ option_strings y →
           x = y.
Proof.
  induction l as [|a l IH]; intros Hd x y s Hx Hy Hsx Hsy.
  - by apply not_elem_of_nil in Hx.
  - change (a :: l) with ([a] ++ l) in Hd.
    apply all_disjoint_actions_app in Hd as (_ & Hd & Hfr).
    apply elem_of_cons in Hx as [->|Hx]; apply elem_of_cons in Hy as [->|Hy].
    + reflexivity.
    + exfalso. apply (Hfr a s y); try done. apply elem_of_cons; by left.
    + exfalso. apply (Hfr a s x); try done. apply elem_of_cons; by left.
    + by apply (IH Hd x y s).
Qed.

Lemma own_strings_prefixed name c s :
  name ∈ subcommands → c ∈ own_actions name → s ∈ option_strings c →
  String.eqb s "--" = false ∧ ∃ t, s = String "-" t.
Proof.
  intros Hname Hc Hs.
  pose proof (declared_option_strings_elem name c s Hname Hc Hs) as Hd.
  assert (forallb (λ s, negb (String.eqb s "--") && starts_with_prefix_char s)
            declared_option_strings = true) as Hok by (by vm_compute).
  rewrite forallb_forall in Hok. apply list_elem_of_In in Hd.
  specialize (Hok s Hd). apply andb_true_iff in Hok as [Hdash Hprefix].
  split; [by apply negb_true_iff|].
  destruct s as [|c0 t]; [discriminate|]. exists t. f_equal.
  unfold starts_with_prefix_char, is_prefix_char in Hprefix.
  by apply Ascii.eqb_eq in Hprefix.
Qed.

Lemma classify_app p pre rest :
  "--" ∉ pre →
  classify p (pre ++ rest) = map (_parse_optional p) pre ++ classify p rest.
Proof.
  induction pre as [|s pre IH]; intros Hpre; [reflexivity|].
  cbn [app classify map].
  destruct (String.eqb s "--") eqn:Hs.
  - apply String.eqb_eq in Hs as ->. exfalso. apply Hpre.
    apply elem_of_cons; by left.
  - rewrite IH; [reflexivity|]. intros H. apply Hpre. apply elem_of_cons; by right.
Qed.

Section Spelled.

Context (parent : ArgumentParser) (name : string) (P : ArgumentParser).
Context (Hname : name ∈ subcommands) (HP : built parent name P).

Lemma built_by_string x c s :
  x ∈ _actions P → c ∈ own_actions name →
  s ∈ option_strings x → s ∈ option_strings c → x = c.
Proof using Hname HP.
  intros Hx Hc Hsx Hsc.
  destruct (built_cases parent name P HP x Hx) as [Hown|(a0 & Ha0 & Hsame)].
  - destruct (own_scripts_ok name Hname) as [_ Hd].
    by apply (all_disjoint_unique _ Hd x c s).
  - exfalso. rewrite (same_but_default_strings _ _ Hsame) in Hsx.
    by apply (built_fresh _ _ _ HP a0 s c).
Qed.

Lemma option_string_actions_built c s :
  c ∈ own_actions name → s ∈ option_strings c →
  _option_string_actions P s = Some c.
Proof using Hname HP.
  intros Hc Hs. unfold _option_string_actions.
  destruct (find _ _) as [a|] eqn:Hfind.
  - apply find_some in Hfind as [Ha Hsa].
    apply list_elem_of_In in Ha. apply bool_decide_eq_true in Hsa.
    f_equal. by apply (built_by_string a c s).
  - pose proof (own_in_built parent name P HP c Hc) as Hin.
    apply list_elem_of_In in Hin.
    pose proof (find_none _ _ Hfind c Hin) as Hno. cbv beta in Hno.
    by apply bool_decide_eq_false in Hno.
Qed.

Lemma parse_optional_exact c s :
  c ∈ own_actions name → s ∈ option_strings c →
  _parse_optional P s = ClsO (Some c) s None.
Proof using Hname HP.
  intros Hc Hs.
  destruct (own_strings_prefixed name c s Hname Hc Hs) as [_ [t ->]].
  pose proof (option_string_actions_built c _ Hc Hs) as Hos.
  unfold _parse_optional.
  change (negb (is_prefix_char "-")) with false. cbv iota.
  by rewrite Hos.
Qed.

Lemma help_conflicts : action_conflicts P "-h" = [].
Proof using Hname HP.
  apply elem_of_nil_inv. intros y Hy.
  apply action_conflicts_elem in Hy as (g & Hg & Hy).
  apply group_conflicts_elem in Hy as [Hh _].
  rewrite (built_groups _ _ _ HP) in Hg.
  assert (∀ g, g ∈ own_groups name → "-h" ∉ _group_actions g) as Hown.
  { intros g0 Hg0.
    assert (forallb (λ g, negb (bool_decide ("-h" ∈ _group_actions g)))
              (flat_map own_groups subcommands) = true) as Hok
      by (vm_compute; reflexivity).
    rewrite forallb_forall in Hok.
    assert (In g0 (flat_map own_groups subcommands)) as Hin.
    { apply (proj2 (in_flat_map own_groups subcommands g0)).
      exists name. split; by apply list_elem_of_In. }
    specialize (Hok g0 Hin).
    by apply negb_true_iff, bool_decide_eq_false in Hok. }
  apply elem_of_app in Hg as [Hg|Hg].
  { apply (Hown g); [|exact Hh]. unfold own_groups. apply elem_of_app. by left. }
  apply elem_of_app in Hg as [Hg|Hg].
  - apply (copy_groups_members _ _ _ _ _ Hg) in Hh.
    apply list_elem_of_fmap in Hh as (a0 & Hf & Ha0).
    apply (built_fresh _ _ _ HP a0 "-h" help_action Ha0).
    + rewrite Hf. unfold option_strings. apply elem_of_cons; by left.
    + unfold own_actions. apply elem_of_cons; by left.
    + unfold option_strings. apply elem_of_cons; by left.
  - apply (Hown g); [|exact Hh]. unfold own_groups. apply elem_of_app. by right.
Qed.

Lemma take_help py_int py_float n_blocks_ok st :
  take_action py_int py_float n_blocks_ok P help_action [] st = HelpExit.
Proof using Hname HP.
  unfold take_action.
  change (_get_values py_int py_float help_action []) with (Done (VList [])).
  cbn [mbind outcome_bind same_object default_ help_action flag].
  rewrite help_conflicts. reflexivity.
Qed.

End Spelled.

(** X11: an option string written out in full, before any [--], is recognised as
    its option, also when it is the beginning of another option string
    ([--ref-ld] of [--ref-ld-chr], [--w-ld] of [--w-ld-chr], [--frqfile] of
    [--frqfile-chr]): the command line then supplies that option. *)
Theorem spelled_out_option_is_supplied
  (parent_parser : ArgumentParser)
  (subparsers : list (string * ArgumentParser)) (name : string)
  (c : Action) (s : string) (before after : list string) :
  configure_parser parent_parser = Done subparsers →
  name ∈ subcommands →
  c ∈ own_actions name → s ∈ option_strings c → "--" ∉ before →
  supplies (subparser subparsers name) (flag c) (before ++ s :: after) = true.
Proof.
  intros Hbuild Hname Hc Hs Hbefore.
  destruct (built_subparser _ _ _ Hbuild Hname) as [HP _]. clear Hbuild.
  unfold supplies. apply bool_decide_eq_true.
  rewrite classify_app by exact Hbefore. cbn [classify].
  destruct (own_strings_prefixed name c s Hname Hc Hs) as [-> _].
  rewrite (parse_optional_exact parent_parser name _ Hname HP c s Hc Hs).
  rewrite map_app. apply elem_of_app. right.
  cbn [map resolved_flag]. apply elem_of_cons. by left.
Qed.

Lemma first_ambiguous_Some cs e :
  first_ambiguous cs = Some e → ∃ s ms, e = AmbiguousOption s ms.
Proof.
  induction cs as [|c cs IH]; [discriminate|].
  destruct c as [| |a os ex|s ms]; cbn [first_ambiguous]; try exact IH.
  intros H. inversion H. by exists s, ms.
Qed.

Lemma parse_optional_argument p v :
  starts_with_prefix_char v = false → _parse_optional p v = ClsA.
Proof.
  destruct v as [|c0 t]; [reflexivity|]. cbn [starts_with_prefix_char].
  unfold _parse_optional. by intros ->.
Qed.

Lemma argument_not_dash v :
  starts_with_prefix_char v = false → String.eqb v "--" = false.
Proof.
  destruct v as [|c0 t]; [reflexivity|]. cbn [starts_with_prefix_char].
  intros H. apply String.eqb_neq. intros Heq. inversion Heq; subst.
  discriminate.
Qed.

Lemma first_ambiguous_plain name parent P arg_strings :
  name ∈ subcommands → built parent name P →
  (∀ s, s ∈ arg_strings →
        starts_with_prefix_char s = false
        ∨ ∃ c, c ∈ own_actions name ∧ s ∈ option_strings c) →
  first_ambiguous (classify P arg_strings) = None.
Proof.
  intros Hname HP.
  induction arg_strings as [|s rest IH]; intros Hall; [reflexivity|].
  assert (∀ s', s' ∈ rest →
            starts_with_prefix_char s' = false
            ∨ ∃ c, c ∈ own_actions name ∧ s' ∈ option_strings c) as Hrest.
  { intros s' Hs'. apply Hall. apply elem_of_cons. by right. }
  cbn [classify].
  destruct (Hall s) as [Hs|(c & Hc & Hs)]; [apply elem_of_cons; by left| |].
  - rewrite (argument_not_dash s Hs), (parse_optional_argument P s Hs).
    cbn [first_ambiguous]. by apply IH.
  - destruct (own_strings_prefixed name c s Hname Hc Hs) as [-> _].
    rewrite (parse_optional_exact parent name P Hname HP c s Hc Hs).
    cbn [first_ambiguous]. by apply IH.
Qed.

(** X12: a subcommand whose first argument is [-h] or [--help] ends with the
    help exit, whatever else the command line lacks or contains: the required
    options of [generate-ldscores] are not asked for and no value is
    converted.  The one exception is an ambiguous abbreviation later on the
    command line: the first pass reports the first of them, before the help
    option is acted on.  In particular the help exit is reached when every
    later argument is a plain argument or an option string written out in
    full. *)
Theorem help_first_exits
  (py_int : string → option Z) (py_float : string → option float)
  (n_blocks_ok : value → bool) (parent_parser : ArgumentParser)
  (subparsers : list (string * ArgumentParser)) (name h : string)
  (arg_strings : list string) :
  configure_parser parent_parser = Done subparsers →
  name ∈ subcommands →
  h ∈ ["-h"; "--help"] →
  let P := subparser subparsers name in
  let out := invoke py_int py_float n_blocks_ok subparsers name (h :: arg_strings) in
  out = match first_ambiguous (classify P arg_strings) with
        | Some e => Fail e
        | None => HelpExit
        end
  ∧ ((∀ s, s ∈ arg_strings →
           starts_with_prefix_char s = false
           ∨ ∃ c, c ∈ own_actions name ∧ s ∈ option_strings c) →
     out = HelpExit).
Proof.
  intros Hbuild Hname Hh P out.
  destruct (built_subparser _ _ _ Hbuild Hname) as [HP Hinv]. clear Hbuild.
  fold P in HP.
  assert (out = match first_ambiguous (classify P arg_strings) with
                | Some e => Fail e
                | None => HelpExit
                end) as Hout.
  { subst out. rewrite Hinv. clear Hinv. fold P.
    assert (h ∈ option_strings help_action) as Hopt by exact Hh.
    assert (help_action ∈ own_actions name) as Hown
      by (unfold own_actions; apply elem_of_cons; by left).
    destruct (own_strings_prefixed name _ h Hname Hown Hopt) as [Hdash _].
    pose proof (parse_optional_exact parent_parser name P Hname HP _ h Hown Hopt)
      as Hcls.
    unfold parse_args, parse_known_args. cbn [classify]. rewrite Hdash, Hcls.
    cbn [first_ambiguous].
    destruct (first_ambiguous (classify P arg_strings)) as [e|] eqn:Hamb;
      [reflexivity|].
    cbn [zip zip_with]. rewrite consume_option_eq.
    unfold consume_optional, match_following. cbn [nargs help_action].
    cbn [mbind outcome_bind fst snd]. unfold take_actions. cbn [foldM fst snd].
    rewrite (take_help parent_parser name P Hname HP). reflexivity. }
  split; [exact Hout|].
  intros Hall. rewrite Hout.
  by rewrite (first_ambiguous_plain name parent_parser P arg_strings Hname HP Hall).
Qed.

(** ** The further properties at sample command lines *)

Lemma chunk_size_declared : chunk_size_action ∈ own_actions "generate-ldscores".
Proof.
  apply (own_action_Some "generate-ldscores" "--chunk-size"). by vm_compute.
Qed.

Lemma no_intercept_declared : no_intercept_action ∈ own_actions "h2".
Proof. apply (own_action_Some "h2" "--no-intercept"). by vm_compute. Qed.

Lemma frqfile_chr_declared : frqfile_chr_action ∈ own_actions "rg".
Proof. apply (own_action_Some "rg" "--frqfile-chr"). by vm_compute. Qed.

Lemma chunk_size_default_at_ldscore :
  configure_parser sample_parent = Done sample_subparsers
  ∧ parent_dests_fresh sample_parent = true
  ∧ "generate-ldscores" ∈ subcommands
  ∧ chunk_size_action ∈ own_actions "generate-ldscores"
  ∧ invoke sample_int sample_float sample_check sample_subparsers "generate-ldscores"
      ldscore_argv = Done ldscore_namespace
  ∧ supplies (subparser sample_subparsers "generate-ldscores") "--chunk-size"
      ldscore_argv = false
  ∧ ldscore_namespace !! "chunk_size" = Some (VInt 50).
Proof.
  assert (supplies (subparser sample_subparsers "generate-ldscores")
            "--chunk-size" ldscore_argv = false) as Hs
    by (vm_compute; reflexivity).
  split; [exact sample_subparsers_built|]. split; [exact sample_parent_fresh|].
  split; [exact generate_ldscores_subcommand|].
  split; [exact chunk_size_declared|]. split; [exact ldscore_accepted|].
  split; [exact Hs|].
  exact (unsupplied_option_keeps_declared_default sample_int sample_float sample_check
           sample_parent sample_subparsers "generate-ldscores"
           chunk_size_action "chunk_size" ldscore_argv ldscore_namespace
           sample_subparsers_built sample_parent_fresh
           generate_ldscores_subcommand chunk_size_declared eq_refl
           ldscore_accepted Hs).
Defined.

Lemma no_intercept_off_at_h2 :
  configure_parser sample_parent = Done sample_subparsers
  ∧ parent_dests_fresh sample_parent = true
  ∧ "h2" ∈ subcommands
  ∧ no_intercept_action ∈ own_actions "h2"
  ∧ invoke sample_int sample_float sample_check sample_subparsers "h2" h2_argv
    = Done h2_namespace
  ∧ h2_namespace !! "no_intercept"
    = Some (VBool (supplies (subparser sample_subparsers "h2") "--no-intercept"
                     h2_argv)).
Proof.
  split; [exact sample_subparsers_built|]. split; [exact sample_parent_fresh|].
  split; [exact h2_subcommand|]. split; [exact no_intercept_declared|].
  split; [exact h2_accepted|].
  exact (store_true_flag_set_iff_supplied sample_int sample_float sample_check
           sample_parent sample_subparsers "h2" no_intercept_action
           "no_intercept" h2_argv h2_namespace sample_subparsers_built
           sample_parent_fresh h2_subcommand no_intercept_declared eq_refl
           eq_refl h2_accepted).
Defined.

Lemma frqfile_chr_present_at_rg :
  configure_parser sample_parent = Done sample_subparsers
  ∧ parent_dests_fresh sample_parent = true
  ∧ "rg" ∈ subcommands
  ∧ frqfile_chr_action ∈ own_actions "rg"
  ∧ invoke sample_int sample_float sample_check sample_subparsers "rg" rg_argv
    = Done rg_namespace
  ∧ is_Some (rg_namespace !! "frqfile_chr").
Proof.
  split; [exact sample_subparsers_built|]. split; [exact sample_parent_fresh|].
  split; [exact rg_subcommand|]. split; [exact frqfile_chr_declared|].
  split; [exact rg_accepted|].
  exact (declared_destinations_always_present sample_int sample_float sample_check
           sample_parent sample_subparsers "rg" frqfile_chr_action
           "frqfile_chr" rg_argv rg_namespace sample_subparsers_built
           sample_parent_fresh rg_subcommand frqfile_chr_declared eq_refl
           rg_accepted).
Defined.

Lemma w_ld_group_declared :
  mkGroup false ["--w-ld"; "--w-ld-chr"] ∈ own_groups "h2".
Proof.
  apply elem_of_cons; right. apply elem_of_cons; left. reflexivity.
Qed.

Lemma w_ld_pair_enforced_at_h2 :
  configure_parser sample_parent = Done sample_subparsers
  ∧ "h2" ∈ subcommands
  ∧ ∃ fa fb,
      ["--w-ld"; "--w-ld-chr"] = [fa; fb]
      ∧ (supplies (subparser sample_subparsers "h2") fa both_w_ld_argv = true →
         supplies (subparser sample_subparsers "h2") fb both_w_ld_argv = true →
         invoke sample_int sample_float sample_check sample_subparsers "h2"
           both_w_ld_argv = HelpExit
         ∨ ∃ e, invoke sample_int sample_float sample_check sample_subparsers "h2"
                  both_w_ld_argv = Fail e).
Proof.
  split; [exact sample_subparsers_built|]. split; [exact h2_subcommand|].
  exact (proj1 (declared_groups_enforced sample_int sample_float sample_check
                  sample_parent sample_subparsers "h2" both_w_ld_argv
                  sample_subparsers_built h2_subcommand)
               (mkGroup false ["--w-ld"; "--w-ld-chr"]) w_ld_group_declared).
Defined.

Lemma inclusion_error :
  invoke sample_int sample_float sample_check sample_subparsers "generate-ldscores"
    both_inclusion_argv
  = Fail (NotAllowedWith "--annot" "--extract").
Proof. vm_compute. reflexivity. Qed.

Lemma inclusion_error_names_no_window :
  configure_parser sample_parent = Done sample_subparsers
  ∧ invoke sample_int sample_float sample_check sample_subparsers "generate-ldscores"
      both_inclusion_argv
    = Fail (NotAllowedWith "--annot" "--extract")
  ∧ ("--annot" ∉ window_options) ∧ ("--extract" ∉ window_options).
Proof.
  split; [exact sample_subparsers_built|]. split; [exact inclusion_error|].
  exact (window_options_never_excluded sample_int sample_float sample_check
           sample_parent sample_subparsers both_inclusion_argv
           "--annot" "--extract" sample_subparsers_built inclusion_error).
Defined.

Lemma rg_list_at_rg :
  configure_parser sample_parent = Done sample_subparsers
  ∧ parent_dests_fresh sample_parent = true
  ∧ invoke sample_int sample_float sample_check sample_subparsers "rg" rg_argv
    = Done rg_namespace
  ∧ supplies (subparser sample_subparsers "rg") "--rg" rg_argv = true
  ∧ ∃ l, rg_namespace !! "rg" = Some (VList l) ∧ l ≠ [].
Proof.
  assert (supplies (subparser sample_subparsers "rg") "--rg" rg_argv = true)
    as Hs by (vm_compute; reflexivity).
  split; [exact sample_subparsers_built|]. split; [exact sample_parent_fresh|].
  split; [exact rg_accepted|]. split; [exact Hs|].
  exact (proj2 (rg_is_none_or_a_nonempty_list sample_int sample_float sample_check
                  sample_parent sample_subparsers rg_argv rg_namespace
                  sample_subparsers_built sample_parent_fresh rg_accepted)
               Hs).
Defined.

Lemma h2_func_membership :
  ("h2", "sumstats.estimate_h2")
  ∈ [("rg", "sumstats.estimate_rg"); ("h2", "sumstats.estimate_h2");
     ("h2-cts", "sumstats.cell_type_specific");
     ("generate-ldscores", "ld.ldscore")].
Proof. apply elem_of_cons; right. apply elem_of_cons; left. reflexivity. Qed.

Lemma sample_parent_no_func :
  ∀ a, a ∈ _actions sample_parent → dest a ≠ Some "func".
Proof.
  intros a Ha. apply elem_of_cons in Ha as [->|Ha]; [discriminate|].
  by apply not_elem_of_nil in Ha.
Qed.

Lemma func_at_h2 :
  configure_parser sample_parent = Done sample_subparsers
  ∧ invoke sample_int sample_float sample_check sample_subparsers "h2" h2_argv
    = Done h2_namespace
  ∧ h2_namespace !! "func" = Some (VFunc "sumstats.estimate_h2").
Proof.
  split; [exact sample_subparsers_built|]. split; [exact h2_accepted|].
  exact (func_is_the_subcommand_function sample_int sample_float sample_check
           sample_parent sample_subparsers "h2" "sumstats.estimate_h2" h2_argv
           h2_namespace h2_func_membership sample_subparsers_built
           sample_parent_no_func h2_accepted).
Defined.

Lemma empty_ldscore_command_line :
  configure_parser sample_parent = Done sample_subparsers
  ∧ invoke sample_int sample_float sample_check sample_subparsers "generate-ldscores" []
    = Fail (RequiredArguments
              (map flag (List.filter required (_actions sample_parent))
                 ++ ["--bfile"; "--l2"])).
Proof.
  split; [exact sample_subparsers_built|].
  exact (proj1 (empty_command_line sample_int sample_float sample_check sample_parent
                  sample_subparsers sample_subparsers_built)).
Defined.

Lemma ref_ld_spelled_out :
  configure_parser sample_parent = Done sample_subparsers
  ∧ "h2" ∈ subcommands
  ∧ supplies (subparser sample_subparsers "h2") "--ref-ld"
      (["--h2"; "trait.sumstats.gz"] ++ "--ref-ld" :: ["eur.l2.ldscore.gz"])
    = true.
Proof.
  split; [exact sample_subparsers_built|]. split; [exact h2_subcommand|].
  refine (spelled_out_option_is_supplied sample_parent sample_subparsers "h2"
            (mkAction "--ref-ld" [] (Some "ref_ld") NargsNone Store TStr DNone
                      false)
            "--ref-ld" ["--h2"; "trait.sumstats.gz"] ["eur.l2.ldscore.gz"]
            sample_subparsers_built h2_subcommand _ _ _).
  - apply (own_action_Some "h2" "--ref-ld"). vm_compute. reflexivity.
  - apply elem_of_cons. left. reflexivity.
  - intros H. apply elem_of_cons in H as [H|H]; [discriminate|].
    apply elem_of_cons in H as [H|H]; [discriminate|].
    by apply not_elem_of_nil in H.
Defined.

Lemma help_at_ldscore :
  configure_parser sample_parent = Done sample_subparsers
  ∧ "generate-ldscores" ∈ subcommands
  ∧ "--help" ∈ ["-h"; "--help"]
  ∧ first_ambiguous
      (classify (subparser sample_subparsers "generate-ldscores")
         ["--ld-wind-cm"; "1"]) = None
  ∧ invoke sample_int sample_float sample_check sample_subparsers
      "generate-ldscores" ("--help" :: ["--ld-wind-cm"; "1"]) = HelpExit.
Proof.
  assert ("--help" ∈ ["-h"; "--help"]) as Hh.
  { apply elem_of_cons; right. apply elem_of_cons; left. reflexivity. }
  assert (first_ambiguous
            (classify (subparser sample_subparsers "generate-ldscores")
               ["--ld-wind-cm"; "1"]) = None) as Hn
    by (vm_compute; reflexivity).
  split; [exact sample_subparsers_built|].
  split; [exact generate_ldscores_subcommand|]. split; [exact Hh|].
  split; [exact Hn|].
  pose proof (proj1 (help_first_exits sample_int sample_float sample_check
                       sample_parent sample_subparsers "generate-ldscores"
                       "--help" ["--ld-wind-cm"; "1"] sample_subparsers_built
                       generate_ldscores_subcommand Hh)) as H.
  rewrite Hn in H. exact H.
Defined.

Lemma parent_with_help_is_refused :
  parent_compatible (mkParser [help_action] [] ∅) = false
  ∧ ∀ subparsers,
      configure_parser (mkParser [help_action] [] ∅) ≠ Done subparsers.
Proof.
  assert (parent_compatible (mkParser [help_action] [] ∅) = false) as H
    by (vm_compute; reflexivity).
  split; [exact H|].
  exact (configure_parser_refuses_incompatible_parent _ H).
Defined.

(** A parent parser created with the default [add_help=True] declares [-h]
    and [--help] itself, and [configure_parser] refuses it. *)
Example parent_with_help_refused :
  parent_compatible (mkParser [help_action] [] ∅) = false
  ∧ parent_compatible sample_parent = true.
Proof. split; vm_compute; reflexivity. Qed.

(** * Command lines that are accepted *)

(** ** One more option at the end of a command line *)

Lemma explicit_loop_next p e : ∀ a os acc r,
  explicit_loop p None a os e acc = Done r →
  ∀ next, explicit_loop p next a os e acc = Done r.
Proof.
  induction e as [|x e IH]; intros a os acc r H next; simpl in H |- *.
  - destruct (nargs a); [exact H|].
    destruct os as [|c0 [|c1 ?]]; try discriminate.
    destruct (is_prefix_char c1); discriminate.
  - destruct (nargs a); [exact H|].
    destruct os as [|c0 [|c1 ?]]; try discriminate.
    destruct (is_prefix_char c1); try discriminate.
    destruct (_option_string_actions p _) as [a'|]; try discriminate.
    destruct e as [|y e'].
    + unfold match_following in *. destruct (nargs a'); [discriminate|exact H].
    + by apply IH.
Qed.

Lemma consume_optional_next p a os e r :
  consume_optional p None a os e = Done r →
  ∀ next, consume_optional p next a os e = Done r.
Proof.
  unfold consume_optional. destruct e as [e|]; intros H next.
  - by apply explicit_loop_next.
  - unfold match_following in *. destruct (nargs a); [discriminate|exact H].
Qed.

Lemma first_ambiguous_app cs1 cs2 :
  first_ambiguous cs1 = None →
  first_ambiguous (cs1 ++ cs2) = first_ambiguous cs2.
Proof.
  induction cs1 as [|c cs1 IH]; [reflexivity|].
  destruct c as [| |a os e|s ms]; cbn [first_ambiguous app]; try exact IH.
  discriminate.
Qed.

Lemma classify_no_dash p args :
  "--" ∉ args → classify p args = map (_parse_optional p) args.
Proof.
  intros H. rewrite <- (app_nil_r args) at 1.
  rewrite classify_app by exact H. apply app_nil_r.
Qed.

Section Append.

Context (py_int : string → option Z) (py_float : string → option float)
        (n_blocks_ok : value → bool) (p : ArgumentParser).

Abbreviation take_action' := (take_action py_int py_float n_blocks_ok p).
Abbreviation take_actions' := (take_actions py_int py_float n_blocks_ok p).
Abbreviation consume' := (consume py_int py_float n_blocks_ok p).
Abbreviation parse_args' := (parse_args py_int py_float n_blocks_ok p).

(** What the loop has done with a command line is not undone by what
    follows it. *)
Lemma consume_app toks st st' :
  consume' toks st = Done st' →
  ∀ more, consume' (toks ++ more) st = consume' more st'.
Proof.
  intros H. pattern toks, st, st'. revert toks st st' H.
  apply consume_Done_ind.
  - reflexivity.
  - intros s c rest st st' Hc IH more.
    change (((s, c) :: rest) ++ more) with ((s, c) :: (rest ++ more)).
    rewrite consume_extra_eq by exact Hc. apply IH.
  - intros s a os e rest st tuples b st1 st' Hplan Htk IH more.
    change (((s, ClsO (Some a) os e) :: rest) ++ more)
      with ((s, ClsO (Some a) os e) :: (rest ++ more)).
    rewrite consume_option_eq.
    destruct rest as [|t rest].
    + cbn [following_argument] in Hplan.
      rewrite (consume_optional_next p a os e _ Hplan).
      cbn [mbind outcome_bind fst snd]. rewrite Htk.
      cbn [mbind outcome_bind].
      destruct b.
      * destruct (consume_optional_tuples _ _ _ _ _ _ _ Hplan)
          as (? & ? & _ & _ & Hb).
        destruct (Hb eq_refl) as [? Hnone]. discriminate.
      * apply (IH more).
    + change (following_argument ((t :: rest) ++ more))
        with (following_argument (t :: rest)).
      rewrite Hplan. cbn [mbind outcome_bind fst snd]. rewrite Htk.
      cbn [mbind outcome_bind].
      destruct b; apply (IH more).
Qed.

Lemma seen_non_default_seen toks st st' :
  consume' toks st = Done st' →
  seen_non_default_actions st ⊆ seen_actions st →
  seen_non_default_actions st' ⊆ seen_actions st'.
Proof.
  intros H Hst.
  eapply (consume_invariant py_int py_float n_blocks_ok p
            (λ st, seen_non_default_actions st ⊆ seen_actions st)
            (λ _ : Action, True)).
  6: exact H.
  5: exact Hst.
  - intros a args st0 st0' _ HI Htk.
    apply take_action_seen in Htk as (Hseen & _ & Hnd & _).
    rewrite Hseen. clear -HI Hnd. set_solver.
  - intros s st0 HI. exact HI.
  - done.
  - apply Forall_forall. done.
Qed.

(** [parse_args] returns exactly when the first pass finds no ambiguity, the
    loop returns, nothing required is missing and nothing is left over. *)
Lemma parse_args_Done_iff args ns :
  parse_args' args = Done ns ↔
  ∃ st, first_ambiguous (classify p args) = None
        ∧ consume' (zip args (classify p args)) (start p) = Done st
        ∧ missing_required p st = []
        ∧ unmet_groups p st = []
        ∧ extras st = []
        ∧ namespace st = ns.
Proof.
  unfold parse_args, parse_known_args, start. split.
  - intros H. inv_bind H.
    destruct (first_ambiguous _); [discriminate|].
    inv_bind H_m. exists r0.
    destruct (missing_required p r0); [|discriminate].
    destruct (unmet_groups p r0); [|discriminate].
    inversion H_m_k; subst. cbn [fst snd] in H_k.
    destruct (extras r0); inversion H_k. done.
  - intros (st & -> & -> & Hm & Hu & He & <-).
    cbn [mbind outcome_bind]. rewrite Hm, Hu. cbn [mbind outcome_bind fst snd].
    by rewrite He.
Qed.

Lemma missing_required_intro st :
  (∀ a, a ∈ _actions p → required a = true → flag a ∈ seen_actions st) →
  missing_required p st = [].
Proof.
  unfold missing_required. intros H.
  induction (_actions p) as [|a l IH]; [reflexivity|].
  cbn [omap list_omap]. fold (@omap list _ Action string).
  destruct (required a) eqn:Hr.
  - rewrite bool_decide_eq_true_2
      by (apply H; [apply elem_of_cons; by left|exact Hr]).
    cbn [andb negb]. apply IH. intros a' Ha'. apply H. apply elem_of_cons; by right.
  - cbn [andb]. apply IH. intros a' Ha'. apply H. apply elem_of_cons; by right.
Qed.

Lemma missing_required_mono st st' :
  missing_required p st = [] → seen_actions st ⊆ seen_actions st' →
  missing_required p st' = [].
Proof.
  intros H Hsub. apply missing_required_intro. intros a Ha Hr.
  apply Hsub. by apply (missing_required_nil p st a).
Qed.

Lemma unmet_groups_mono st st' :
  unmet_groups p st = [] →
  seen_non_default_actions st ⊆ seen_non_default_actions st' →
  unmet_groups p st' = [].
Proof.
  unfold unmet_groups. intros H Hsub.
  induction (_mutually_exclusive_groups p) as [|g l IH]; [reflexivity|].
  rewrite filter_cons in H |- *.
  destruct (decide (Is_true (group_required g && forallb _ (_group_actions g))))
    as [Hg|Hg] in H; [discriminate|].
  rewrite decide_False; [by apply IH|].
  intros Hg'. apply Hg. apply Is_true_true in Hg'. apply Is_true_true.
  apply andb_true_iff in Hg' as [Hreq Hall]. apply andb_true_iff.
  split; [exact Hreq|]. rewrite forallb_forall in Hall |- *.
  intros n Hn. specialize (Hall n Hn).
  apply negb_true_iff, bool_decide_eq_false in Hall.
  apply negb_true_iff, bool_decide_eq_false. intros Hin. apply Hall.
  by apply Hsub.
Qed.

(** Taking an action that conflicts with nothing seen so far. *)
Lemma take_action_succeeds a args st w ns' :
  _get_values py_int py_float a args = Done w →
  same_object w (default_ a) = false →
  (∀ y, y ∈ action_conflicts p (flag a) →
        y ≠ flag a ∧ y ∉ seen_non_default_actions st) →
  call_action n_blocks_ok a (namespace st) w = Done ns' →
  take_action' a args st
  = Done (mkState ns' ({[flag a]} ∪ seen_actions st)
            ({[flag a]} ∪ seen_non_default_actions st) (extras st)).
Proof.
  intros Hw Hsame Hconf Hcall. unfold take_action.
  rewrite Hw. cbn [mbind outcome_bind]. rewrite Hsame.
  assert (filter (λ c, c ∈ {[flag a]} ∪ seen_non_default_actions st)
            (action_conflicts p (flag a)) = []) as ->.
  { apply elem_of_nil_inv. intros y Hy.
    apply list_elem_of_filter in Hy as [Hin Hy].
    destruct (Hconf y Hy) as [Hne Hns]. clear -Hin Hne Hns. set_solver. }
  cbn [mbind outcome_bind]. rewrite Hcall. reflexivity.
Qed.

(** The loop on an option with its argument, and on a flag. *)
Lemma consume_option_with_argument o a v st :
  nargs a = NargsNone →
  consume' [(o, ClsO (Some a) o None); (v, ClsA)] st = take_action' a [v] st.
Proof.
  intros Hn. rewrite consume_option_eq.
  unfold consume_optional, match_following. cbn [following_argument].
  rewrite Hn. cbn [mbind outcome_bind fst snd]. unfold take_actions.
  cbn [foldM fst snd].
  destruct (take_action' a [v] st); reflexivity.
Qed.

Lemma consume_flag o a st :
  nargs a = NargsZero →
  consume' [(o, ClsO (Some a) o None)] st = take_action' a [] st.
Proof.
  intros Hn. rewrite consume_option_eq.
  unfold consume_optional, match_following. cbn [following_argument].
  rewrite Hn. cbn [mbind outcome_bind fst snd]. unfold take_actions.
  cbn [foldM fst snd].
  destruct (take_action' a [] st); reflexivity.
Qed.

(** Taking an action that no group lists: its values are converted and the
    action is called. *)
Lemma take_action_unconflicted a args st :
  action_conflicts p (flag a) = [] →
  take_action' a args st
  = v ← _get_values py_int py_float a args;
    ns ← call_action n_blocks_ok a (namespace st) v;
    Done (mkState ns ({[flag a]} ∪ seen_actions st)
            (if same_object v (default_ a) then seen_non_default_actions st
             else {[flag a]} ∪ seen_non_default_actions st)
            (extras st)).
Proof.
  intros Hc. unfold take_action. rewrite Hc.
  destruct (_get_values py_int py_float a args) as [v| |]; [|reflexivity..].
  cbn [mbind outcome_bind]. rewrite filter_nil.
  destruct (same_object v (default_ a)); reflexivity.
Qed.

(** [parse_args] once the first pass has found no ambiguity. *)
Lemma parse_args_eq args :
  first_ambiguous (classify p args) = None →
  parse_args' args
  = st ← consume' (zip args (classify p args)) (start p);
    match missing_required p st with
    | [] =>
        match unmet_groups p st with
        | [] =>
            match extras st with
            | [] => Done (namespace st)
            | ex => Fail (UnrecognizedArguments ex)
            end
        | g :: _ => Fail (OneOfRequired (_group_actions g))
        end
    | names => Fail (RequiredArguments names)
    end.
Proof.
  intros Hamb. unfold parse_args, parse_known_args, start. rewrite Hamb.
  destruct (consume' _ _) as [st| |]; [|reflexivity..].
  cbn [mbind outcome_bind].
  destruct (missing_required p st); [|reflexivity].
  destruct (unmet_groups p st); [|reflexivity].
  cbn [mbind outcome_bind fst snd]. reflexivity.
Qed.

End Append.

Lemma remove_first_argument v :
  String.eqb v "--" = false → remove_first "--" [v] = [v].
Proof.
  intros H. cbn [remove_first].
  rewrite String.eqb_sym, H. reflexivity.
Qed.

Lemma ungrouped_spec name o g :
  ungrouped name o = true → g ∈ own_groups name → o ∉ _group_actions g.
Proof.
  unfold ungrouped. intros H Hg. rewrite forallb_forall in H.
  apply list_elem_of_In in Hg. specialize (H g Hg).
  by apply negb_true_iff, bool_decide_eq_false in H.
Qed.

Section Grow.

Context (py_int : string → option Z) (py_float : string → option float)
        (n_blocks_ok : value → bool).
Context (parent : ArgumentParser) (name : string) (P : ArgumentParser).
Context (Hname : name ∈ subcommands) (HP : built parent name P).

Abbreviation parse_args' := (parse_args py_int py_float n_blocks_ok P).
Abbreviation consume' := (consume py_int py_float n_blocks_ok P).

(** A declared option that is in no declared group conflicts with nothing. *)
Lemma ungrouped_conflicts c :
  c ∈ own_actions name →
  (∀ g, g ∈ own_groups name → flag c ∉ _group_actions g) →
  action_conflicts P (flag c) = [].
Proof using Hname HP.
  intros Hc Hown. apply elem_of_nil_inv. intros y Hy.
  apply action_conflicts_elem in Hy as (g & Hg & Hy).
  apply group_conflicts_elem in Hy as [Hh _].
  rewrite (built_groups _ _ _ HP) in Hg.
  apply elem_of_app in Hg as [Hg|Hg].
  { apply (Hown g); [|exact Hh]. unfold own_groups. apply elem_of_app. by left. }
  apply elem_of_app in Hg as [Hg|Hg].
  - apply (copy_groups_members _ _ _ _ _ Hg) in Hh.
    apply list_elem_of_fmap in Hh as (a0 & Hf & Ha0).
    apply (built_fresh _ _ _ HP a0 (flag c) c Ha0).
    + rewrite Hf. unfold option_strings. apply elem_of_cons; by left.
    + exact Hc.
    + unfold option_strings. apply elem_of_cons; by left.
  - apply (Hown g); [|exact Hh]. unfold own_groups. apply elem_of_app. by right.
Qed.

(** The tokens of a command line followed by a declared option. *)
Lemma classify_append args c more :
  "--" ∉ args → c ∈ own_actions name →
  classify P (args ++ flag c :: more)
  = classify P args ++ ClsO (Some c) (flag c) None :: classify P more.
Proof using Hname HP.
  intros Hargs Hc.
  assert (flag c ∈ option_strings c) as Hs
    by (unfold option_strings; apply elem_of_cons; by left).
  rewrite classify_app by exact Hargs.
  rewrite (classify_no_dash P args Hargs). cbn [classify].
  destruct (own_strings_prefixed name c _ Hname Hc Hs) as [-> _].
  by rewrite (parse_optional_exact parent name P Hname HP c _ Hc Hs).
Qed.

Lemma zip_append (args : list string) (o : string) (more : list string)
  (cs : list arg_class) (c : arg_class) (cs' : list arg_class) :
  length cs = length args →
  zip (args ++ o :: more) (cs ++ c :: cs')
  = zip args cs ++ (o, c) :: zip more cs'.
Proof.
  revert cs. induction args as [|s args IH]; intros [|c0 cs] Hl;
    try discriminate; [reflexivity|].
  cbn [app zip zip_with]. f_equal. apply IH. by inversion Hl.
Qed.

(** The loop on a command line followed by a declared option and its
    argument. *)
Lemma consume_append_store args st c v w d :
  "--" ∉ args →
  consume' (zip args (classify P args)) (start P) = Done st →
  c ∈ own_actions name →
  nargs c = NargsNone → kind c = Store → never_default c = true →
  dest c = Some d →
  starts_with_prefix_char v = false →
  _get_value py_int py_float c v = Done w →
  (∀ y, y ∈ action_conflicts P (flag c) →
        y ≠ flag c ∧ y ∉ seen_non_default_actions st) →
  classify P (args ++ [flag c; v])
  = classify P args ++ [ClsO (Some c) (flag c) None; ClsA]
  ∧ consume' (zip (args ++ [flag c; v]) (classify P (args ++ [flag c; v])))
      (start P)
    = Done (mkState (<[d := w]> (namespace st)) ({[flag c]} ∪ seen_actions st)
              ({[flag c]} ∪ seen_non_default_actions st) (extras st)).
Proof using Hname HP.
  intros Hargs Hst Hc Hn Hk Hnd Hd Hv Hw Hconf.
  assert (classify P (args ++ [flag c; v])
          = classify P args ++ [ClsO (Some c) (flag c) None; ClsA]) as Hcls.
  { rewrite (classify_append args c [v] Hargs Hc). cbn [classify].
    by rewrite (argument_not_dash v Hv), (parse_optional_argument P v Hv). }
  split; [exact Hcls|]. rewrite Hcls.
  rewrite zip_append by apply classify_length.
  rewrite (consume_app _ _ _ _ _ _ _ Hst). cbn [zip zip_with].
  rewrite consume_option_with_argument by exact Hn.
  apply take_action_succeeds with (w := w).
  - unfold _get_values. rewrite Hn.
    by rewrite (remove_first_argument v (argument_not_dash v Hv)).
  - eapply get_value_never_default; [exact Hnd|exact Hw].
  - exact Hconf.
  - unfold call_action. rewrite Hk. unfold dest_attr. by rewrite Hd.
Qed.

(** The loop on a command line followed by a declared [store_true] flag. *)
Lemma consume_append_flag args st c d :
  "--" ∉ args →
  consume' (zip args (classify P args)) (start P) = Done st →
  c ∈ own_actions name →
  nargs c = NargsZero → kind c = StoreTrue → dest c = Some d →
  (∀ y, y ∈ action_conflicts P (flag c) →
        y ≠ flag c ∧ y ∉ seen_non_default_actions st) →
  classify P (args ++ [flag c])
  = classify P args ++ [ClsO (Some c) (flag c) None]
  ∧ consume' (zip (args ++ [flag c]) (classify P (args ++ [flag c])))
      (start P)
    = Done (mkState (<[d := VBool true]> (namespace st))
              ({[flag c]} ∪ seen_actions st)
              ({[flag c]} ∪ seen_non_default_actions st) (extras st)).
Proof using Hname HP.
  intros Hargs Hst Hc Hn Hk Hd Hconf.
  assert (classify P (args ++ [flag c])
          = classify P args ++ [ClsO (Some c) (flag c) None]) as Hcls
    by exact (classify_append args c [] Hargs Hc).
  split; [exact Hcls|]. rewrite Hcls.
  rewrite zip_append by apply classify_length.
  rewrite (consume_app _ _ _ _ _ _ _ Hst). cbn [zip zip_with].
  rewrite consume_flag by exact Hn.
  apply take_action_succeeds with (w := VList []).
  - unfold _get_values. by rewrite Hn.
  - reflexivity.
  - exact Hconf.
  - unfold call_action. rewrite Hk. unfold dest_attr. by rewrite Hd.
Qed.

(** What the loop leaves is accepted when nothing required is missing. *)
Lemma accepted_after args cs' st st' :
  first_ambiguous (classify P args) = None →
  missing_required P st = [] → unmet_groups P st = [] → extras st = [] →
  seen_actions st ⊆ seen_actions st' →
  seen_non_default_actions st ⊆ seen_non_default_actions st' →
  extras st' = extras st →
  ∀ args',
    classify P args' = classify P args ++ cs' →
    first_ambiguous cs' = None →
    consume' (zip args' (classify P args')) (start P) = Done st' →
    parse_args' args' = Done (namespace st').
Proof.
  intros Hamb Hm Hu He Hseen Hnd He' args' Hcls Hcs' Hst'.
  apply parse_args_Done_iff. exists st'.
  split; [by rewrite Hcls, (first_ambiguous_app _ _ Hamb)|].
  split; [exact Hst'|].
  split; [by apply (missing_required_mono P st)|].
  split; [by apply (unmet_groups_mono P st)|].
  split; [by rewrite He'|reflexivity].
Qed.

(** The options seen by the loop with a non-default value were supplied. *)
Lemma unsupplied_not_seen args st cy :
  consume' (zip args (classify P args)) (start P) = Done st →
  cy ∈ own_actions name → short_option cy = false →
  supplies P (flag cy) args = false →
  flag cy ∉ seen_non_default_actions st.
Proof using Hname HP.
  intros Hst Hcy Hlong Hs Hin.
  assert (seen_non_default_actions st ⊆ seen_actions st) as Hsub.
  { apply (seen_non_default_seen py_int py_float n_blocks_ok P _ _ _ Hst).
    done. }
  apply Hsub in Hin.
  apply (seen_iff_supplies py_int py_float n_blocks_ok parent name P Hname HP
           cy Hcy Hlong args st Hst) in Hin.
  congruence.
Qed.

(** An accepted command line stays accepted when a declared option with an
    argument is added at its end, if no option it conflicts with has been
    supplied. *)
Lemma accepted_append_store args ns c v w d :
  parse_args' args = Done ns → "--" ∉ args →
  c ∈ own_actions name →
  nargs c = NargsNone → kind c = Store → never_default c = true →
  dest c = Some d →
  starts_with_prefix_char v = false →
  _get_value py_int py_float c v = Done w →
  (∀ y, y ∈ action_conflicts P (flag c) →
        ∃ cy, cy ∈ own_actions name ∧ flag cy = y ∧ short_option cy = false
              ∧ y ≠ flag c ∧ supplies P y args = false) →
  parse_args' (args ++ [flag c; v]) = Done (<[d := w]> ns).
Proof using Hname HP.
  intros H Hargs Hc Hn Hk Hnd Hd Hv Hw Hconf.
  apply parse_args_Done_iff in H as (st & Hamb & Hst & Hm & Hu & He & <-).
  destruct (consume_append_store args st c v w d Hargs Hst Hc Hn Hk Hnd Hd Hv Hw)
    as [Hcls Hst'].
  { intros y Hy. destruct (Hconf y Hy) as (cy & Hcy & <- & Hlong & Hne & Hs).
    split; [exact Hne|]. by apply (unsupplied_not_seen args st cy). }
  assert (seen_actions st ⊆ {[flag c]} ∪ seen_actions st) as H1
    by (clear; set_solver).
  assert (seen_non_default_actions st
          ⊆ {[flag c]} ∪ seen_non_default_actions st) as H2
    by (clear; set_solver).
  exact (accepted_after args [ClsO (Some c) (flag c) None; ClsA] st
           (mkState (<[d := w]> (namespace st)) ({[flag c]} ∪ seen_actions st)
              ({[flag c]} ∪ seen_non_default_actions st) (extras st))
           Hamb Hm Hu He H1 H2 eq_refl (args ++ [flag c; v]) Hcls eq_refl Hst').
Qed.

(** The same for a declared [store_true] flag. *)
Lemma accepted_append_flag args ns c d :
  parse_args' args = Done ns → "--" ∉ args →
  c ∈ own_actions name →
  nargs c = NargsZero → kind c = StoreTrue → dest c = Some d →
  (∀ y, y ∈ action_conflicts P (flag c) →
        ∃ cy, cy ∈ own_actions name ∧ flag cy = y ∧ short_option cy = false
              ∧ y ≠ flag c ∧ supplies P y args = false) →
  parse_args' (args ++ [flag c]) = Done (<[d := VBool true]> ns).
Proof using Hname HP.
  intros H Hargs Hc Hn Hk Hd Hconf.
  apply parse_args_Done_iff in H as (st & Hamb & Hst & Hm & Hu & He & <-).
  destruct (consume_append_flag args st c d Hargs Hst Hc Hn Hk Hd)
    as [Hcls Hst'].
  { intros y Hy. destruct (Hconf y Hy) as (cy & Hcy & <- & Hlong & Hne & Hs).
    split; [exact Hne|]. by apply (unsupplied_not_seen args st cy). }
  assert (seen_actions st ⊆ {[flag c]} ∪ seen_actions st) as H1
    by (clear; set_solver).
  assert (seen_non_default_actions st
          ⊆ {[flag c]} ∪ seen_non_default_actions st) as H2
    by (clear; set_solver).
  exact (accepted_after args [ClsO (Some c) (flag c) None] st
           (mkState (<[d := VBool true]> (namespace st))
              ({[flag c]} ∪ seen_actions st)
              ({[flag c]} ∪ seen_non_default_actions st) (extras st))
           Hamb Hm Hu He H1 H2 eq_refl (args ++ [flag c]) Hcls eq_refl Hst').
Qed.

(** An accepted command line followed by a declared option that no group
    lists, and its argument: the outcome is that of calling the option's
    action on the converted argument. *)
Lemma appended_ungrouped args ns c v w :
  parse_args' args = Done ns → "--" ∉ args →
  c ∈ own_actions name → nargs c = NargsNone →
  ungrouped name (flag c) = true →
  starts_with_prefix_char v = false →
  _get_value py_int py_float c v = Done w →
  parse_args' (args ++ [flag c; v]) = call_action n_blocks_ok c ns w.
Proof using Hname HP.
  intros H Hargs Hc Hn Hu Hv Hw.
  apply parse_args_Done_iff in H as (st & Hamb & Hst & Hm & Hun & He & <-).
  assert (classify P (args ++ [flag c; v])
          = classify P args ++ [ClsO (Some c) (flag c) None; ClsA]) as Hcls.
  { rewrite (classify_append args c [v] Hargs Hc). cbn [classify].
    by rewrite (argument_not_dash v Hv), (parse_optional_argument P v Hv). }
  assert (action_conflicts P (flag c) = []) as Hfree.
  { apply (ungrouped_conflicts c Hc). intros g Hg.
    by apply (ungrouped_spec name). }
  rewrite parse_args_eq by (by rewrite Hcls, (first_ambiguous_app _ _ Hamb)).
  rewrite Hcls, zip_append by apply classify_length.
  rewrite (consume_app _ _ _ _ _ _ _ Hst). cbn [zip zip_with].
  rewrite consume_option_with_argument by exact Hn.
  rewrite take_action_unconflicted by exact Hfree.
  unfold _get_values. rewrite Hn.
  rewrite (remove_first_argument v (argument_not_dash v Hv)), Hw.
  cbn [mbind outcome_bind].
  destruct (call_action n_blocks_ok c (namespace st) w) as [ns'| |];
    [|reflexivity..].
  cbn [mbind outcome_bind].
  rewrite (missing_required_mono P st) by (exact Hm || (cbn; clear; set_solver)).
  rewrite (unmet_groups_mono P st)
    by (exact Hun || (cbn; destruct (same_object w (default_ c)); clear;
                      set_solver)).
  cbn [extras namespace]. by rewrite He.
Qed.

End Grow.

(** ** What a built subparser requires *)

Lemma filter_nil_false {A : Type} (f : A → bool) (l : list A) :
  List.filter f l = [] → ∀ x, x ∈ l → f x = false.
Proof.
  induction l as [|y l IH]; intros H x Hx.
  - by apply not_elem_of_nil in Hx.
  - cbn [List.filter] in H. destruct (f y) eqn:Hy; [discriminate|].
    apply elem_of_cons in Hx as [->|Hx]; [exact Hy|by apply IH].
Qed.

Section Requires.

Context (py_int : string → option Z) (py_float : string → option float)
        (n_blocks_ok : value → bool).
Context (parent : ArgumentParser) (name : string) (P : ArgumentParser).
Context (Hname : name ∈ subcommands) (HP : built parent name P).

Lemma built_required :
  map flag (List.filter required (_actions P))
  = map flag (List.filter required (_actions parent))
    ++ (if String.eqb name "generate-ldscores" then ["--bfile"; "--l2"]
        else []).
Proof using Hname HP.
  destruct (own_required name Hname) as [Hcommon Hscript].
  destruct (built_actions _ _ _ HP) as (pa & -> & Hsame).
  rewrite app_comm_cons, !List.filter_app, !map_app.
  rewrite Hcommon, Hscript, (same_but_default_required _ _ Hsame).
  reflexivity.
Qed.

Lemma built_groups_optional :
  List.filter group_required (_mutually_exclusive_groups parent) = [] →
  ∀ g, g ∈ _mutually_exclusive_groups P → group_required g = false.
Proof using Hname HP.
  intros Hgroups g Hg. rewrite (built_groups _ _ _ HP) in Hg.
  apply elem_of_app in Hg as [Hg|Hg].
  { apply (own_groups_optional name g Hname). unfold own_groups.
    apply elem_of_app. by left. }
  apply elem_of_app in Hg as [Hg|Hg].
  { apply copy_groups_required in Hg as (g0 & Hg0 & ->).
    by apply (filter_nil_false _ _ Hgroups). }
  apply (own_groups_optional name g Hname). unfold own_groups.
  apply elem_of_app. by right.
Qed.

(** Nothing required is missing once [--bfile] and [--l2] have been seen,
    when the parent parser requires no option. *)
Lemma built_nothing_missing st :
  List.filter required (_actions parent) = [] →
  (name = "generate-ldscores" →
   "--bfile" ∈ seen_actions st ∧ "--l2" ∈ seen_actions st) →
  missing_required P st = [].
Proof using Hname HP.
  intros Hreq Hseen. apply missing_required_intro. intros a Ha Hr.
  assert (flag a ∈ map flag (List.filter required (_actions P))) as Hin.
  { apply list_elem_of_fmap. exists a. split; [reflexivity|].
    apply list_elem_of_In, filter_In. split; [by apply list_elem_of_In|exact Hr]. }
  rewrite built_required, Hreq in Hin. cbn [map app] in Hin.
  destruct (String.eqb name "generate-ldscores") eqn:Hn.
  - apply String.eqb_eq in Hn. destruct (Hseen Hn) as [Hb Hl].
    apply elem_of_cons in Hin as [->|Hin]; [exact Hb|].
    apply elem_of_cons in Hin as [->|Hin]; [exact Hl|].
    by apply not_elem_of_nil in Hin.
  - by apply not_elem_of_nil in Hin.
Qed.

End Requires.

(** ** The shortest accepted [generate-ldscores] command line *)

Lemma found_bfile :
  own_action "generate-ldscores" "--bfile"
  = Some (mkAction "--bfile" [] (Some "bfile") NargsNone Store TStr DNone true).
Proof. by vm_compute. Qed.

Lemma found_l2 :
  own_action "generate-ldscores" "--l2"
  = Some (mkAction "--l2" [] (Some "l2") NargsZero StoreTrue TNone
            (DBool false) true).
Proof. by vm_compute. Qed.

Lemma ungrouped_conflicts_free parent name P c args :
  name ∈ subcommands → built parent name P →
  c ∈ own_actions name → ungrouped name (flag c) = true →
  ∀ y, y ∈ action_conflicts P (flag c) →
    ∃ cy, cy ∈ own_actions name ∧ flag cy = y ∧ short_option cy = false
          ∧ y ≠ flag c ∧ supplies P y args = false.
Proof.
  intros Hname HP Hc Hu y Hy.
  rewrite (ungrouped_conflicts parent name P Hname HP c Hc) in Hy.
  - by apply not_elem_of_nil in Hy.
  - intros g Hg. by apply (ungrouped_spec name).
Qed.

Lemma bfile_l2_accepted py_int py_float n_blocks_ok parent P b :
  built parent "generate-ldscores" P →
  List.filter required (_actions parent) = [] →
  List.filter group_required (_mutually_exclusive_groups parent) = [] →
  starts_with_prefix_char b = false →
  parse_args py_int py_float n_blocks_ok P ["--bfile"; b; "--l2"]
  = Done (<["l2" := VBool true]> (<["bfile" := VStr b]> (initial_namespace P))).
Proof.
  intros HP Hreq Hgroups Hb.
  pose proof generate_ldscores_subcommand as Hname.
  destruct (own_action_Some _ _ _ found_bfile) as [Hcb _].
  destruct (own_action_Some _ _ _ found_l2) as [Hcl _].
  assert (action_conflicts P "--bfile" = []) as Hfb.
  { apply (ungrouped_conflicts parent _ P Hname HP _ Hcb). intros g Hg.
    apply (ungrouped_spec "generate-ldscores"); [by vm_compute|exact Hg]. }
  assert (action_conflicts P "--l2" = []) as Hfl.
  { apply (ungrouped_conflicts parent _ P Hname HP _ Hcl). intros g Hg.
    apply (ungrouped_spec "generate-ldscores"); [by vm_compute|exact Hg]. }
  destruct (consume_append_store py_int py_float n_blocks_ok parent _ P
              Hname HP [] (start P) _ b (VStr b) "bfile"
              (not_elem_of_nil _) eq_refl Hcb eq_refl eq_refl eq_refl eq_refl
              Hb eq_refl) as [Hcls1 Hst1].
  { cbn [flag]. rewrite Hfb. intros y Hy. by apply not_elem_of_nil in Hy. }
  cbn [flag app] in Hcls1, Hst1.
  assert ("--" ∉ ["--bfile"; b]) as Hdash.
  { intros H. apply elem_of_cons in H as [H|H]; [discriminate|].
    apply list_elem_of_singleton in H. subst b. discriminate. }
  destruct (consume_append_flag py_int py_float n_blocks_ok parent _ P
              Hname HP ["--bfile"; b] _ _ "l2" Hdash Hst1 Hcl eq_refl eq_refl
              eq_refl) as [Hcls2 Hst2].
  { cbn [flag]. rewrite Hfl. intros y Hy. by apply not_elem_of_nil in Hy. }
  cbn [flag app] in Hcls2, Hst2.
  apply parse_args_Done_iff. eexists.
  split; [rewrite Hcls2, Hcls1; reflexivity|].
  split; [exact Hst2|]. cbn [seen_actions seen_non_default_actions extras namespace start].
  split.
  { apply (built_nothing_missing parent _ P Hname HP); [exact Hreq|].
    intros _. cbn [seen_actions]. clear. set_solver. }
  split.
  { apply unmet_groups_none.
    by apply (built_groups_optional parent _ P Hname HP). }
  split; reflexivity.
Qed.

Lemma bfile_l2_no_dash b :
  starts_with_prefix_char b = false → "--" ∉ ["--bfile"; b; "--l2"].
Proof.
  intros Hb H. apply elem_of_cons in H as [H|H]; [discriminate|].
  apply elem_of_cons in H as [H|H].
  - subst b. discriminate.
  - apply list_elem_of_singleton in H. discriminate.
Qed.

(** It supplies [--bfile] and [--l2] and nothing else. *)
Lemma bfile_l2_supplies parent P b o :
  built parent "generate-ldscores" P →
  starts_with_prefix_char b = false →
  o ≠ "--bfile" → o ≠ "--l2" →
  supplies P o ["--bfile"; b; "--l2"] = false.
Proof.
  intros HP Hb Ho1 Ho2.
  pose proof generate_ldscores_subcommand as Hname.
  destruct (own_action_Some _ _ _ found_bfile) as [Hcb _].
  destruct (own_action_Some _ _ _ found_l2) as [Hcl _].
  unfold supplies. cbn [classify String.eqb Ascii.eqb Bool.eqb].
  rewrite (argument_not_dash b Hb), (parse_optional_argument P b Hb).
  rewrite (parse_optional_exact parent _ P Hname HP _ "--bfile" Hcb)
    by (apply elem_of_cons; by left).
  rewrite (parse_optional_exact parent _ P Hname HP _ "--l2" Hcl)
    by (apply elem_of_cons; by left).
  cbn [map resolved_flag flag]. apply bool_decide_eq_false. intros H.
  apply elem_of_cons in H as [H|H]; [inversion H; by apply Ho1|].
  apply elem_of_cons in H as [H|H]; [discriminate|].
  apply list_elem_of_singleton in H. inversion H. by apply Ho2.
Qed.

(** ** One member of an exclusive pair *)

Section PairMember.

Context (parent : ArgumentParser) (name : string) (P : ArgumentParser).
Context (Hname : name ∈ subcommands) (HP : built parent name P).
Context (fa fb : string) (Hpair : pair_ok name fa fb = true).

Lemma pair_conflicts_of x y :
  x ∈ [fa; fb] → y ∈ action_conflicts P x →
  (x = fa ∧ y = fb) ∨ (x = fb ∧ y = fa).
Proof using Hname HP Hpair.
  intros Hx Hc.
  destruct (pair_tables name fa fb Hpair)
    as (ca & cb & Hca & Hcb & Hfa & Hfb & _ & _ & Hsa & Hsb & Hgroups & _).
  assert (x ∈ map flag (own_actions name)) as Hown.
  { apply list_elem_of_fmap.
    apply elem_of_cons in Hx as [->|Hx]; [by exists ca|].
    apply list_elem_of_singleton in Hx as ->. by exists cb. }
  apply (own_conflicts_inv parent name P HP) in Hc; [|by left].
  apply action_conflicts_elem in Hc as (g & Hg & Hy). simpl in Hg.
  rewrite (Hgroups g Hg) in Hy; [by apply pair_conflicts|].
  apply group_conflicts_elem in Hy as [Hxg _]. simpl in Hxg.
  apply elem_of_cons in Hx as [->|Hx]; [by left|].
  apply list_elem_of_singleton in Hx as ->. by right.
Qed.

(** A member of the pair conflicts with its partner only. *)
Lemma pair_partner_free args :
  fa ≠ fb →
  (supplies P fb args = false →
   ∀ y, y ∈ action_conflicts P fa →
     ∃ cy, cy ∈ own_actions name ∧ flag cy = y ∧ short_option cy = false
           ∧ y ≠ fa ∧ supplies P y args = false)
  ∧ (supplies P fa args = false →
     ∀ y, y ∈ action_conflicts P fb →
       ∃ cy, cy ∈ own_actions name ∧ flag cy = y ∧ short_option cy = false
             ∧ y ≠ fb ∧ supplies P y args = false).
Proof using Hname HP Hpair.
  intros Hne.
  destruct (pair_tables name fa fb Hpair)
    as (ca & cb & Hca & Hcb & Hfa & Hfb & _ & _ & Hsa & Hsb & _).
  split; intros Hs y Hy.
  - destruct (pair_conflicts_of fa y) as [[_ ->]|[Hab _]];
      [apply elem_of_cons; by left|exact Hy| |by destruct Hne].
    exists cb. repeat split; try assumption. by apply not_eq_sym.
  - destruct (pair_conflicts_of fb y) as [[Hab _]|[_ ->]];
      [apply elem_of_cons; right; apply elem_of_cons; by left|exact Hy
      |by destruct Hne; symmetry|].
    exists ca. repeat split; try assumption.
Qed.

End PairMember.

(** ** Where a one-of-required error comes from *)

Section Unmet.

Context (py_int : string → option Z) (py_float : string → option float)
        (n_blocks_ok : value → bool) (p : ArgumentParser).

Abbreviation take_action' := (take_action py_int py_float n_blocks_ok p).
Abbreviation take_actions' := (take_actions py_int py_float n_blocks_ok p).
Abbreviation consume' := (consume py_int py_float n_blocks_ok p).
Abbreviation parse_args' := (parse_args py_int py_float n_blocks_ok p).

Lemma take_action_OneOfRequired a args st names :
  take_action' a args st ≠ Fail (OneOfRequired names).
Proof.
  unfold take_action. intros H.
  apply bind_Fail in H as [H|(v & _ & H)].
  { apply get_values_Fail in H as (t & s & H). discriminate. }
  apply bind_Fail in H as [H|(nd & _ & H)].
  - destruct (same_object v (default_ a)); [discriminate|].
    destruct (filter _ _); discriminate.
  - apply bind_Fail in H as [H|(ns & _ & H)]; [|discriminate].
    apply call_action_Fail in H as [[m H]|(f & w & H)]; discriminate.
Qed.

Lemma take_actions_OneOfRequired tuples : ∀ st names,
  take_actions' tuples st ≠ Fail (OneOfRequired names).
Proof.
  unfold take_actions.
  induction tuples as [|[a args] tuples IH]; simpl; intros st names H;
    [discriminate|].
  apply bind_Fail in H as [H|(st1 & _ & H)].
  - by apply take_action_OneOfRequired in H.
  - by apply IH in H.
Qed.

Lemma explicit_loop_OneOfRequired next e : ∀ a os acc names,
  explicit_loop p next a os e acc ≠ Fail (OneOfRequired names).
Proof.
  induction e as [|c e IH]; intros a os acc names H; simpl in H.
  - destruct (nargs a); [discriminate|].
    destruct os as [|c0 [|c1 ?]]; try discriminate.
    destruct (is_prefix_char c1); discriminate.
  - destruct (nargs a); [discriminate|].
    destruct os as [|c0 [|c1 ?]]; try discriminate.
    destruct (is_prefix_char c1); try discriminate.
    destruct (_option_string_actions p _) as [a'|]; try discriminate.
    destruct e as [|c' e'].
    + apply bind_Fail in H as [H|(m & _ & H)]; [|discriminate].
      apply match_following_Fail in H. discriminate.
    + by eapply IH.
Qed.

Lemma consume_optional_OneOfRequired next a os e names :
  consume_optional p next a os e ≠ Fail (OneOfRequired names).
Proof.
  unfold consume_optional. destruct e as [e|].
  - apply explicit_loop_OneOfRequired.
  - intros H. apply bind_Fail in H as [H|(m & _ & H)]; [|discriminate].
    apply match_following_Fail in H. discriminate.
Qed.

Lemma consume_OneOfRequired toks : ∀ st names,
  consume' toks st ≠ Fail (OneOfRequired names).
Proof.
  remember (length toks) as n eqn:Hn. revert toks Hn.
  induction n as [n IH] using lt_wf_ind. intros toks Hn st names H.
  destruct toks as [|[s c] rest]; [discriminate|].
  destruct (resolved_flag c) as [f|] eqn:Hc.
  - destruct c as [| |[a|] os e|]; try discriminate.
    rewrite consume_option_eq in H.
    apply bind_Fail in H as [H|([tuples b] & _ & H)].
    { by apply consume_optional_OneOfRequired in H. }
    simpl in H. apply bind_Fail in H as [H|(st1 & _ & H)].
    + by apply take_actions_OneOfRequired in H.
    + eapply (IH (length (if b then tl rest else rest))); [| |exact H];
        [subst n|reflexivity].
      destruct b, rest; simpl; lia.
  - rewrite consume_extra_eq in H by done.
    eapply (IH (length rest)); [| |exact H]; [subst n; simpl; lia|reflexivity].
Qed.

(** The error names the options of a required group of the parser. *)
Lemma parse_args_OneOfRequired args names :
  parse_args' args = Fail (OneOfRequired names) →
  ∃ g, g ∈ _mutually_exclusive_groups p ∧ group_required g = true
       ∧ names = _group_actions g.
Proof.
  unfold parse_args, parse_known_args. intros H.
  apply bind_Fail in H as [H|([ns ex] & _ & H)].
  2: { simpl in H. destruct ex; discriminate. }
  destruct (first_ambiguous _) as [e|] eqn:Hamb.
  { apply first_ambiguous_Some in Hamb. destruct Hamb as (? & ? & ->).
    discriminate. }
  apply bind_Fail in H as [H|(st & _ & H)].
  { by apply consume_OneOfRequired in H. }
  destruct (missing_required p st); [|discriminate].
  destruct (unmet_groups p st) as [|g l] eqn:Hu; [discriminate|].
  inversion H; subst names. exists g.
  assert (g ∈ unmet_groups p st) as Hg by (rewrite Hu; apply elem_of_cons; by left).
  unfold unmet_groups in Hg. apply list_elem_of_filter in Hg as [Hreq Hg].
  split; [exact Hg|]. split; [|reflexivity].
  apply Is_true_true in Hreq. by apply andb_true_iff in Hreq as [Hreq _].
Qed.

End Unmet.

(** In a built subparser the error names options of the parent parser only. *)
Lemma built_OneOfRequired py_int py_float n_blocks_ok parent name P args names c :
  name ∈ subcommands → built parent name P →
  parse_args py_int py_float n_blocks_ok P args = Fail (OneOfRequired names) →
  c ∈ own_actions name → flag c ∉ names.
Proof.
  intros Hname HP H Hc Hin.
  apply parse_args_OneOfRequired in H as (g & Hg & Hreq & ->).
  rewrite (built_groups _ _ _ HP) in Hg.
  assert (∀ g, g ∈ own_groups name → group_required g = true → False) as Hown.
  { intros g0 Hg0 Hr. rewrite (own_groups_optional name g0 Hname Hg0) in Hr.
    discriminate. }
  apply elem_of_app in Hg as [Hg|Hg].
  { apply (Hown g); [|exact Hreq]. unfold own_groups. apply elem_of_app. by left. }
  apply elem_of_app in Hg as [Hg|Hg].
  - apply (copy_groups_members _ _ _ _ _ Hg) in Hin.
    apply list_elem_of_fmap in Hin as (a0 & Hf & Ha0).
    apply (built_fresh _ _ _ HP a0 (flag c) c Ha0).
    + rewrite Hf. unfold option_strings. apply elem_of_cons; by left.
    + exact Hc.
    + unfold option_strings. apply elem_of_cons; by left.
  - apply (Hown g); [|exact Hreq]. unfold own_groups. apply elem_of_app. by right.
Qed.

(** * The exclusive pairs of [generate-ldscores] *)

Lemma found_extract :
  own_action "generate-ldscores" "--extract"
  = Some (mkAction "--extract" [] (Some "extract") NargsNone Store TStr DNone
            false).
Proof. by vm_compute. Qed.

Lemma found_annot :
  own_action "generate-ldscores" "--annot"
  = Some (mkAction "--annot" [] (Some "annot") NargsNone Store TStr DNone
            false).
Proof. by vm_compute. Qed.

Lemma found_per_allele :
  own_action "generate-ldscores" "--per-allele"
  = Some (mkAction "--per-allele" [] (Some "per_allele") NargsZero StoreTrue
            TNone (DBool false) false).
Proof. by vm_compute. Qed.

Lemma found_pq_exp :
  own_action "generate-ldscores" "--pq-exp"
  = Some (mkAction "--pq-exp" [] (Some "pq_exp") NargsNone Store TFloat DNone
            false).
Proof. by vm_compute. Qed.

(** C8: for every [generate-ldscores] invocation, [--extract] and [--annot]
    are mutually exclusive, and at most one of them may be supplied.
    A command line that supplies both is not accepted: [parse_args] ends with
    an error (or with the help exit, when a help flag comes first).  The
    exclusion error is raised only when both are supplied, and no
    one-of-required error ever names either option: the group is optional.
    Supplying one is accepted: an accepted command line that does not supply
    the partner stays accepted when [--extract v] (or [--annot v]) is added
    at its end, and the value is stored.  When the parent parser requires
    nothing, [--bfile b --l2], which supplies neither, is accepted, and so is
    [--bfile b --l2] followed by either one. *)
Theorem extract_annot_mutually_exclusive
  (py_int : string → option Z) (py_float : string → option float)
  (n_blocks_ok : value → bool) (parent_parser : ArgumentParser)
  (subparsers : list (string * ArgumentParser)) (arg_strings : list string) :
  configure_parser parent_parser = Done subparsers →
  let P := subparser subparsers "generate-ldscores" in
  let run := invoke py_int py_float n_blocks_ok subparsers "generate-ldscores"
  in
  let out := run arg_strings in
  (supplies P "--extract" arg_strings = true →
   supplies P "--annot" arg_strings = true →
   out = HelpExit ∨ ∃ e, out = Fail e)
  ∧ (∀ x y, out = Fail (NotAllowedWith x y) →
       x ∈ ["--extract"; "--annot"] ∨ y ∈ ["--extract"; "--annot"] →
       supplies P "--extract" arg_strings = true
       ∧ supplies P "--annot" arg_strings = true)
  ∧ (∀ names, out = Fail (OneOfRequired names) →
       ("--extract" ∉ names) ∧ ("--annot" ∉ names))
  ∧ (∀ ns v, out = Done ns → "--" ∉ arg_strings →
       starts_with_prefix_char v = false →
       (supplies P "--annot" arg_strings = false →
        run (arg_strings ++ ["--extract"; v])
        = Done (<["extract" := VStr v]> ns))
       ∧ (supplies P "--extract" arg_strings = false →
          run (arg_strings ++ ["--annot"; v])
          = Done (<["annot" := VStr v]> ns)))
  ∧ (List.filter required (_actions parent_parser) = [] →
     List.filter group_required (_mutually_exclusive_groups parent_parser) = [] →
     ∀ b, starts_with_prefix_char b = false →
       let base :=
         <["l2" := VBool true]> (<["bfile" := VStr b]> (initial_namespace P))
       in
       run ["--bfile"; b; "--l2"] = Done base
       ∧ ∀ v, starts_with_prefix_char v = false →
           run ["--bfile"; b; "--l2"; "--extract"; v]
           = Done (<["extract" := VStr v]> base)
           ∧ run ["--bfile"; b; "--l2"; "--annot"; v]
             = Done (<["annot" := VStr v]> base)).
Proof.
  intros Hbuild P run out.
  pose proof generate_ldscores_subcommand as Hname.
  destruct (exclusive_pair py_int py_float n_blocks_ok parent_parser subparsers
              "generate-ldscores" "--extract" "--annot" arg_strings Hbuild
              Hname pair_ok_extract_annot) as [Hboth Herr].
  destruct (built_subparser _ _ _ Hbuild Hname) as [HP Hinv].
  clear Hbuild.
  destruct (own_action_Some _ _ _ found_extract) as [Hce _].
  destruct (own_action_Some _ _ _ found_annot) as [Hca _].
  split; [exact Hboth|]. split; [exact Herr|]. clear Hboth Herr.
  subst run out. fold P in HP. split; [|split].
  - intros names H. rewrite Hinv in H. split.
    + exact (built_OneOfRequired _ _ _ _ _ _ _ _ _ Hname HP H Hce).
    + exact (built_OneOfRequired _ _ _ _ _ _ _ _ _ Hname HP H Hca).
  - intros ns v Hns Hdash Hv. rewrite Hinv in Hns. rewrite !Hinv.
    destruct (pair_partner_free parent_parser _ P Hname HP _ _
                pair_ok_extract_annot arg_strings) as [Ha Hb];
      [discriminate|].
    split; intros Hs.
    + exact (accepted_append_store py_int py_float n_blocks_ok parent_parser
               _ P Hname HP arg_strings ns _ v (VStr v) "extract" Hns Hdash
               Hce eq_refl eq_refl eq_refl eq_refl Hv eq_refl (Ha Hs)).
    + exact (accepted_append_store py_int py_float n_blocks_ok parent_parser
               _ P Hname HP arg_strings ns _ v (VStr v) "annot" Hns Hdash
               Hca eq_refl eq_refl eq_refl eq_refl Hv eq_refl (Hb Hs)).
  - intros Hreq Hgroups b Hb base.
    pose proof (bfile_l2_accepted py_int py_float n_blocks_ok parent_parser P b
                  HP Hreq Hgroups Hb) as Hbase.
    fold base in Hbase. rewrite !Hinv. split; [exact Hbase|].
    intros v Hv. rewrite !Hinv.
    destruct (pair_partner_free parent_parser _ P Hname HP _ _
                pair_ok_extract_annot ["--bfile"; b; "--l2"]) as [Ha Hp];
      [discriminate|].
    split.
    + exact (accepted_append_store py_int py_float n_blocks_ok parent_parser
               _ P Hname HP ["--bfile"; b; "--l2"] base _ v (VStr v) "extract"
               Hbase (bfile_l2_no_dash b Hb) Hce eq_refl eq_refl eq_refl
               eq_refl Hv eq_refl
               (Ha (bfile_l2_supplies parent_parser P b "--annot" HP Hb
                      ltac:(discriminate) ltac:(discriminate)))).
    + exact (accepted_append_store py_int py_float n_blocks_ok parent_parser
               _ P Hname HP ["--bfile"; b; "--l2"] base _ v (VStr v) "annot"
               Hbase (bfile_l2_no_dash b Hb) Hca eq_refl eq_refl eq_refl
               eq_refl Hv eq_refl
               (Hp (bfile_l2_supplies parent_parser P b "--extract" HP Hb
                      ltac:(discriminate) ltac:(discriminate)))).
Qed.

(** C2: for every [generate-ldscores] invocation, [--per-allele] and
    [--pq-exp] are mutually exclusive, and at most one of them may be
    supplied.  A command line that supplies both is not accepted; the
    exclusion error is raised only when both are supplied, and no
    one-of-required error ever names either option.  Supplying one is
    accepted: an accepted command line that does not supply the partner stays
    accepted when [--per-allele] (or [--pq-exp v], with [v] a number) is
    added at its end, and the value is stored.  When the parent parser
    requires nothing, [--bfile b --l2], which supplies neither, is accepted,
    and so is [--bfile b --l2] followed by either one. *)
Theorem per_allele_pq_exp_mutually_exclusive
  (py_int : string → option Z) (py_float : string → option float)
  (n_blocks_ok : value → bool) (parent_parser : ArgumentParser)
  (subparsers : list (string * ArgumentParser)) (arg_strings : list string) :
  configure_parser parent_parser = Done subparsers →
  let P := subparser subparsers "generate-ldscores" in
  let run := invoke py_int py_float n_blocks_ok subparsers "generate-ldscores"
  in
  let out := run arg_strings in
  (supplies P "--per-allele" arg_strings = true →
   supplies P "--pq-exp" arg_strings = true →
   out = HelpExit ∨ ∃ e, out = Fail e)
  ∧ (∀ x y, out = Fail (NotAllowedWith x y) →
       x ∈ ["--per-allele"; "--pq-exp"] ∨ y ∈ ["--per-allele"; "--pq-exp"] →
       supplies P "--per-allele" arg_strings = true
       ∧ supplies P "--pq-exp" arg_strings = true)
  ∧ (∀ names, out = Fail (OneOfRequired names) →
       ("--per-allele" ∉ names) ∧ ("--pq-exp" ∉ names))
  ∧ (∀ ns, out = Done ns → "--" ∉ arg_strings →
       (supplies P "--pq-exp" arg_strings = false →
        run (arg_strings ++ ["--per-allele"])
        = Done (<["per_allele" := VBool true]> ns))
       ∧ (supplies P "--per-allele" arg_strings = false →
          ∀ v x, starts_with_prefix_char v = false → py_float v = Some x →
            run (arg_strings ++ ["--pq-exp"; v])
            = Done (<["pq_exp" := VFloat x]> ns)))
  ∧ (List.filter required (_actions parent_parser) = [] →
     List.filter group_required (_mutually_exclusive_groups parent_parser) = [] →
     ∀ b, starts_with_prefix_char b = false →
       let base :=
         <["l2" := VBool true]> (<["bfile" := VStr b]> (initial_namespace P))
       in
       run ["--bfile"; b; "--l2"] = Done base
       ∧ run ["--bfile"; b; "--l2"; "--per-allele"]
         = Done (<["per_allele" := VBool true]> base)
       ∧ ∀ v x, starts_with_prefix_char v = false → py_float v = Some x →
           run ["--bfile"; b; "--l2"; "--pq-exp"; v]
           = Done (<["pq_exp" := VFloat x]> base)).
Proof.
  intros Hbuild P run out.
  pose proof generate_ldscores_subcommand as Hname.
  destruct (exclusive_pair py_int py_float n_blocks_ok parent_parser subparsers
              "generate-ldscores" "--per-allele" "--pq-exp" arg_strings Hbuild
              Hname pair_ok_per_allele_pq_exp) as [Hboth Herr].
  destruct (built_subparser _ _ _ Hbuild Hname) as [HP Hinv].
  clear Hbuild.
  destruct (own_action_Some _ _ _ found_per_allele) as [Hca _].
  destruct (own_action_Some _ _ _ found_pq_exp) as [Hcq _].
  split; [exact Hboth|]. split; [exact Herr|]. clear Hboth Herr.
  subst run out. fold P in HP. split; [|split].
  - intros names H. rewrite Hinv in H. split.
    + exact (built_OneOfRequired _ _ _ _ _ _ _ _ _ Hname HP H Hca).
    + exact (built_OneOfRequired _ _ _ _ _ _ _ _ _ Hname HP H Hcq).
  - intros ns Hns Hdash. rewrite Hinv in Hns.
    destruct (pair_partner_free parent_parser _ P Hname HP _ _
                pair_ok_per_allele_pq_exp arg_strings) as [Ha Hb];
      [discriminate|].
    split; intros Hs.
    + rewrite Hinv.
      exact (accepted_append_flag py_int py_float n_blocks_ok parent_parser
               _ P Hname HP arg_strings ns _ "per_allele" Hns Hdash
               Hca eq_refl eq_refl eq_refl (Ha Hs)).
    + intros v x Hv Hx. rewrite Hinv.
      assert (_get_value py_int py_float
                (mkAction "--pq-exp" [] (Some "pq_exp") NargsNone Store TFloat
                   DNone false) v = Done (VFloat x)) as Hw.
      { unfold _get_value. cbn [type_]. rewrite Hx. reflexivity. }
      exact (accepted_append_store py_int py_float n_blocks_ok parent_parser
               _ P Hname HP arg_strings ns _ v (VFloat x) "pq_exp" Hns Hdash
               Hcq eq_refl eq_refl eq_refl eq_refl Hv Hw (Hb Hs)).
  - intros Hreq Hgroups b Hb base.
    pose proof (bfile_l2_accepted py_int py_float n_blocks_ok parent_parser P b
                  HP Hreq Hgroups Hb) as Hbase.
    fold base in Hbase. rewrite !Hinv. split; [exact Hbase|].
    destruct (pair_partner_free parent_parser _ P Hname HP _ _
                pair_ok_per_allele_pq_exp ["--bfile"; b; "--l2"]) as [Ha Hp];
      [discriminate|].
    split.
    + exact (accepted_append_flag py_int py_float n_blocks_ok parent_parser
               _ P Hname HP ["--bfile"; b; "--l2"] base _ "per_allele"
               Hbase (bfile_l2_no_dash b Hb) Hca eq_refl eq_refl eq_refl
               (Ha (bfile_l2_supplies parent_parser P b "--pq-exp" HP Hb
                      ltac:(discriminate) ltac:(discriminate)))).
    + intros v x Hv Hx. rewrite Hinv.
      assert (_get_value py_int py_float
                (mkAction "--pq-exp" [] (Some "pq_exp") NargsNone Store TFloat
                   DNone false) v = Done (VFloat x)) as Hw.
      { unfold _get_value. cbn [type_]. rewrite Hx. reflexivity. }
      exact (accepted_append_store py_int py_float n_blocks_ok parent_parser
               _ P Hname HP ["--bfile"; b; "--l2"] base _ v (VFloat x) "pq_exp"
               Hbase (bfile_l2_no_dash b Hb) Hcq eq_refl eq_refl eq_refl
               eq_refl Hv Hw
               (Hp (bfile_l2_supplies parent_parser P b "--per-allele" HP Hb
                      ltac:(discriminate) ltac:(discriminate)))).
Qed.

Lemma ldscore_argv_no_dash : "--" ∉ ldscore_argv.
Proof.
  unfold ldscore_argv. intros H.
  repeat (apply elem_of_cons in H as [H|H]; [discriminate|]).
  by apply not_elem_of_nil in H.
Qed.

Lemma one_inclusion_option_at_ldscore :
  configure_parser sample_parent = Done sample_subparsers
  ∧ supplies (subparser sample_subparsers "generate-ldscores") "--extract"
      both_inclusion_argv = true
  ∧ supplies (subparser sample_subparsers "generate-ldscores") "--annot"
      both_inclusion_argv = true
  ∧ (invoke sample_int sample_float sample_check sample_subparsers
       "generate-ldscores" both_inclusion_argv = HelpExit
     ∨ ∃ e, invoke sample_int sample_float sample_check sample_subparsers
              "generate-ldscores" both_inclusion_argv = Fail e)
  ∧ invoke sample_int sample_float sample_check sample_subparsers
      "generate-ldscores" ldscore_argv = Done ldscore_namespace
  ∧ ("--" ∉ ldscore_argv)
  ∧ starts_with_prefix_char "snps.txt" = false
  ∧ supplies (subparser sample_subparsers "generate-ldscores") "--annot"
      ldscore_argv = false
  ∧ invoke sample_int sample_float sample_check sample_subparsers
      "generate-ldscores" (ldscore_argv ++ ["--extract"; "snps.txt"])
    = Done (<["extract" := VStr "snps.txt"]> ldscore_namespace).
Proof.
  assert (supplies (subparser sample_subparsers "generate-ldscores") "--extract"
            both_inclusion_argv = true) as Ha by (vm_compute; reflexivity).
  assert (supplies (subparser sample_subparsers "generate-ldscores") "--annot"
            both_inclusion_argv = true) as Hb by (vm_compute; reflexivity).
  assert (supplies (subparser sample_subparsers "generate-ldscores") "--annot"
            ldscore_argv = false) as Hs by (vm_compute; reflexivity).
  split; [exact sample_subparsers_built|]. split; [exact Ha|]. split; [exact Hb|].
  split.
  { exact (proj1 (extract_annot_mutually_exclusive sample_int sample_float
                    sample_check sample_parent sample_subparsers
                    both_inclusion_argv sample_subparsers_built)
                 Ha Hb). }
  split; [exact ldscore_accepted|]. split; [exact ldscore_argv_no_dash|].
  split; [reflexivity|]. split; [exact Hs|].
  exact (proj1 (proj1 (proj2 (proj2 (proj2
           (extract_annot_mutually_exclusive sample_int sample_float
              sample_check sample_parent sample_subparsers ldscore_argv
              sample_subparsers_built))))
           ldscore_namespace "snps.txt" ldscore_accepted ldscore_argv_no_dash
           eq_refl) Hs).
Defined.

Lemma one_weight_option_at_ldscore :
  configure_parser sample_parent = Done sample_subparsers
  ∧ supplies (subparser sample_subparsers "generate-ldscores") "--per-allele"
      both_weights_argv = true
  ∧ supplies (subparser sample_subparsers "generate-ldscores") "--pq-exp"
      both_weights_argv = true
  ∧ (invoke sample_int sample_float sample_check sample_subparsers
       "generate-ldscores" both_weights_argv = HelpExit
     ∨ ∃ e, invoke sample_int sample_float sample_check sample_subparsers
              "generate-ldscores" both_weights_argv = Fail e)
  ∧ invoke sample_int sample_float sample_check sample_subparsers
      "generate-ldscores" ldscore_argv = Done ldscore_namespace
  ∧ ("--" ∉ ldscore_argv)
  ∧ supplies (subparser sample_subparsers "generate-ldscores") "--pq-exp"
      ldscore_argv = false
  ∧ invoke sample_int sample_float sample_check sample_subparsers
      "generate-ldscores" (ldscore_argv ++ ["--per-allele"])
    = Done (<["per_allele" := VBool true]> ldscore_namespace).
Proof.
  assert (supplies (subparser sample_subparsers "generate-ldscores")
            "--per-allele" both_weights_argv = true) as Ha
    by (vm_compute; reflexivity).
  assert (supplies (subparser sample_subparsers "generate-ldscores") "--pq-exp"
            both_weights_argv = true) as Hb by (vm_compute; reflexivity).
  assert (supplies (subparser sample_subparsers "generate-ldscores") "--pq-exp"
            ldscore_argv = false) as Hs by (vm_compute; reflexivity).
  split; [exact sample_subparsers_built|]. split; [exact Ha|]. split; [exact Hb|].
  split.
  { exact (proj1 (per_allele_pq_exp_mutually_exclusive sample_int sample_float
                    sample_check sample_parent sample_subparsers
                    both_weights_argv sample_subparsers_built)
                 Ha Hb). }
  split; [exact ldscore_accepted|]. split; [exact ldscore_argv_no_dash|].
  split; [exact Hs|].
  exact (proj1 (proj1 (proj2 (proj2 (proj2
           (per_allele_pq_exp_mutually_exclusive sample_int sample_float
              sample_check sample_parent sample_subparsers ldscore_argv
              sample_subparsers_built))))
           ldscore_namespace ldscore_accepted ldscore_argv_no_dash) Hs).
Defined.

(** * One more option on an accepted command line *)

(** An accepted command line of a subcommand, followed by a declared option
    that no group lists and by its argument. *)
Lemma run_appended_ungrouped py_int py_float n_blocks_ok parent_parser
  subparsers name f c arg_strings ns v w :
  configure_parser parent_parser = Done subparsers →
  name ∈ subcommands →
  own_action name f = Some c → nargs c = NargsNone →
  ungrouped name f = true →
  invoke py_int py_float n_blocks_ok subparsers name arg_strings = Done ns →
  "--" ∉ arg_strings →
  starts_with_prefix_char v = false →
  _get_value py_int py_float c v = Done w →
  invoke py_int py_float n_blocks_ok subparsers name (arg_strings ++ [f; v])
  = call_action n_blocks_ok c ns w.
Proof.
  intros Hbuild Hname Hown Hn Hu Hns Hdash Hv Hw.
  destruct (built_subparser _ _ _ Hbuild Hname) as [HP Hinv]. clear Hbuild.
  destruct (own_action_Some _ _ _ Hown) as [Hc <-].
  rewrite Hinv in Hns. rewrite Hinv.
  exact (appended_ungrouped py_int py_float n_blocks_ok parent_parser name _
           Hname HP arg_strings ns c v w Hns Hdash Hc Hn Hu Hv Hw).
Qed.

Lemma ungrouped_common name :
  name ∈ subcommands →
  forallb (ungrouped name) ["--n-blocks"; "--samp-prev"; "--pop-prev"; "--M"]
  = true.
Proof.
  unfold subcommands. intros H.
  repeat (apply elem_of_cons in H as [->|H]; [by vm_compute|]).
  by apply not_elem_of_nil in H.
Qed.

(** * The block count *)



Lemma h2_argv_no_dash : "--" ∉ h2_argv.
Proof.
  unfold h2_argv. intros H.
  repeat (apply elem_of_cons in H as [H|H]; [discriminate|]).
  by apply not_elem_of_nil in H.
Qed.


(** * The window units *)

Lemma get_value_not_none py_int py_float a s v :
  _get_value py_int py_float a s = Done v → v ≠ VNone.
Proof.
  unfold _get_value. destruct (type_ a); intros H; try (by inversion H).
  - destruct (py_int s); by inversion H.
  - destruct (py_float s); by inversion H.
Qed.

Lemma get_values_not_none py_int py_float a args v :
  _get_values py_int py_float a args = Done v → v ≠ VNone.
Proof.
  unfold _get_values. intros H.
  destruct (nargs a), (remove_first "--" args) as [|s [|s' l]];
    try (by apply get_value_not_none in H);
    (apply bind_Done in H as (vs & _ & H); by inversion H).
Qed.

(** An option that stores its argument and starts at [None]: in an accepted
    configuration its attribute is given exactly when the command line
    supplies the option. *)
Lemma store_given_iff_supplied py_int py_float n_blocks_ok parent_parser
  subparsers name f c d arg_strings ns :
  configure_parser parent_parser = Done subparsers →
  parent_dests_fresh parent_parser = true →
  name ∈ subcommands →
  own_action name f = Some c → short_option c = false → dest c = Some d →
  kind c = Store → default_ c = DNone →
  invoke py_int py_float n_blocks_ok subparsers name arg_strings = Done ns →
  is_given ns d = supplies (subparser subparsers name) f arg_strings.
Proof.
  intros Hbuild Hfresh Hname Hown Hlong Hd Hk Hdef Hns.
  destruct (supplies _ f arg_strings) eqn:Hs.
  - destruct (named_stored py_int py_float n_blocks_ok parent_parser subparsers
                Hbuild name Hname f c Hown Hlong Hfresh d Hd
                (λ w, w ≠ VNone) arg_strings ns) as (w & Hw & Hne);
      [|exact Hns|exact Hs|].
    + intros args0 v ns0 ns' Hv Hcall. unfold call_action in Hcall.
      rewrite Hk in Hcall. inversion Hcall; subst ns'.
      exists v. split; [|by eapply get_values_not_none].
      unfold dest_attr. rewrite Hd. apply lookup_insert_eq.
    + unfold is_given. rewrite Hw. clear -Hne.
      destruct w; [destruct (Hne eq_refl)|reflexivity..].
  - unfold is_given.
    rewrite (named_default py_int py_float n_blocks_ok parent_parser subparsers
               Hbuild name Hname f c Hown Hlong Hfresh d Hd arg_strings ns
               VNone); [reflexivity| |exact Hns|exact Hs].
    rewrite Hdef. reflexivity.
Qed.

Lemma found_ld_wind_snps :
  own_action "generate-ldscores" "--ld-wind-snps"
  = Some (mkAction "--ld-wind-snps" [] (Some "ld_wind_snps") NargsNone Store
            TInt DNone false).
Proof. by vm_compute. Qed.

Lemma found_ld_wind_kb :
  own_action "generate-ldscores" "--ld-wind-kb"
  = Some (mkAction "--ld-wind-kb" [] (Some "ld_wind_kb") NargsNone Store
            TFloat DNone false).
Proof. by vm_compute. Qed.

Lemma found_ld_wind_cm :
  own_action "generate-ldscores" "--ld-wind-cm"
  = Some (mkAction "--ld-wind-cm" [] (Some "ld_wind_cm") NargsNone Store
            TFloat DNone false).
Proof. by vm_compute. Qed.

Lemma ungrouped_windows :
  forallb (λ u, ungrouped "generate-ldscores" u.1) window_units = true.
Proof. by vm_compute. Qed.

(** C1: exactly one window unit is active per run.  In an accepted
    [generate-ldscores] configuration the window units that are set are
    exactly those whose option the command line supplies.  The parser itself
    attaches no check to the window options: an accepted command line stays
    accepted when a window option is added at its end, whatever it supplied
    before.  The check is the one at the boundary of the LD Score stage: when
    the command line supplies exactly one window option the stage computes,
    and when it supplies two or more (or none) the stage reports a
    ConfigurationError naming the units, whatever the computation is, so
    before any computation starts. *)
Theorem exactly_one_window_unit
  (py_int : string → option Z) (py_float : string → option float)
  (n_blocks_ok : value → bool) (parent_parser : ArgumentParser)
  (subparsers : list (string * ArgumentParser)) (arg_strings : list string)
  (ns : gmap string value) :
  configure_parser parent_parser = Done subparsers →
  parent_dests_fresh parent_parser = true →
  let P := subparser subparsers "generate-ldscores" in
  let run := invoke py_int py_float n_blocks_ok subparsers "generate-ldscores"
  in
  let supplied := List.filter (λ u, supplies P u.1 arg_strings) window_units in
  run arg_strings = Done ns →
  active_window_units ns = supplied
  ∧ (∀ (A : Type) (compute : gmap string value → A),
       (length supplied = 1%nat → ldscore_stage compute ns = Done (compute ns))
       ∧ (length supplied ≠ 1%nat →
          ldscore_stage compute ns
          = Fail (ConfigurationError "--ld-wind"
                    (VList (map (λ u, VStr u.1) supplied)))))
  ∧ ("--" ∉ arg_strings →
     ∀ v, starts_with_prefix_char v = false →
       (∀ n, py_int v = Some n →
          run (arg_strings ++ ["--ld-wind-snps"; v])
          = Done (<["ld_wind_snps" := VInt n]> ns))
       ∧ (∀ x, py_float v = Some x →
            run (arg_strings ++ ["--ld-wind-kb"; v])
            = Done (<["ld_wind_kb" := VFloat x]> ns)
            ∧ run (arg_strings ++ ["--ld-wind-cm"; v])
              = Done (<["ld_wind_cm" := VFloat x]> ns))).
Proof.
  intros Hbuild Hfresh P run supplied Hns.
  pose proof generate_ldscores_subcommand as Hname.
  assert (active_window_units ns = supplied) as Hactive.
  { unfold active_window_units, supplied, window_units. cbn [List.filter fst snd].
    rewrite (store_given_iff_supplied py_int py_float n_blocks_ok parent_parser
               subparsers _ _ _ "ld_wind_snps" arg_strings ns Hbuild Hfresh
               Hname found_ld_wind_snps eq_refl eq_refl eq_refl eq_refl Hns).
    rewrite (store_given_iff_supplied py_int py_float n_blocks_ok parent_parser
               subparsers _ _ _ "ld_wind_kb" arg_strings ns Hbuild Hfresh
               Hname found_ld_wind_kb eq_refl eq_refl eq_refl eq_refl Hns).
    rewrite (store_given_iff_supplied py_int py_float n_blocks_ok parent_parser
               subparsers _ _ _ "ld_wind_cm" arg_strings ns Hbuild Hfresh
               Hname found_ld_wind_cm eq_refl eq_refl eq_refl eq_refl Hns).
    reflexivity. }
  split; [exact Hactive|]. split.
  - intros A compute. unfold ldscore_stage. rewrite Hactive. clear.
    destruct supplied as [|u [|u' l]]; split; intros H;
      try reflexivity; try discriminate; by destruct H.
  - intros Hdash v Hv. subst run.
    pose proof ungrouped_windows as Hu. cbn [forallb window_units fst] in Hu.
    apply andb_true_iff in Hu as [Hu1 Hu]. apply andb_true_iff in Hu as [Hu2 Hu].
    apply andb_true_iff in Hu as [Hu3 _].
    split; [intros n Hn|intros x Hx; split].
    + rewrite (run_appended_ungrouped py_int py_float n_blocks_ok parent_parser
                 subparsers _ _ _ arg_strings ns v (VInt n) Hbuild Hname
                 found_ld_wind_snps eq_refl Hu1 Hns Hdash Hv); [reflexivity|].
      unfold _get_value. cbn [type_]. by rewrite Hn.
    + rewrite (run_appended_ungrouped py_int py_float n_blocks_ok parent_parser
                 subparsers _ _ _ arg_strings ns v (VFloat x) Hbuild Hname
                 found_ld_wind_kb eq_refl Hu2 Hns Hdash Hv); [reflexivity|].
      unfold _get_value. cbn [type_]. by rewrite Hx.
    + rewrite (run_appended_ungrouped py_int py_float n_blocks_ok parent_parser
                 subparsers _ _ _ arg_strings ns v (VFloat x) Hbuild Hname
                 found_ld_wind_cm eq_refl Hu3 Hns Hdash Hv); [reflexivity|].
      unfold _get_value. cbn [type_]. by rewrite Hx.
Qed.

Lemma two_windows_accepted :
  invoke sample_int sample_float sample_check sample_subparsers
    "generate-ldscores" two_windows_argv
  = Done two_windows_namespace.
Proof. vm_cast_no_check (eq_refl (Done two_windows_namespace)). Qed.

Lemma window_units_at_ldscore :
  configure_parser sample_parent = Done sample_subparsers
  ∧ parent_dests_fresh sample_parent = true
  ∧ invoke sample_int sample_float sample_check sample_subparsers
      "generate-ldscores" two_windows_argv = Done two_windows_namespace
  ∧ invoke sample_int sample_float sample_check sample_subparsers
      "generate-ldscores" ldscore_argv = Done ldscore_namespace
  ∧ ldscore_stage (λ ns, ns !! "ld_wind_cm") two_windows_namespace
    = Fail (ConfigurationError "--ld-wind"
              (VList [VStr "--ld-wind-snps"; VStr "--ld-wind-kb"]))
  ∧ ldscore_stage (λ ns, ns !! "ld_wind_cm") ldscore_namespace
    = Done (Some (VFloat 1)).
Proof.
  split; [exact sample_subparsers_built|]. split; [exact sample_parent_fresh|].
  split; [exact two_windows_accepted|]. split; [exact ldscore_accepted|].
  split.
  - refine (proj2 (proj1 (proj2 (exactly_one_window_unit sample_int sample_float
                     sample_check sample_parent sample_subparsers
                     two_windows_argv two_windows_namespace
                     sample_subparsers_built sample_parent_fresh
                     two_windows_accepted))
                   _ (λ ns, ns !! "ld_wind_cm")) _).
    vm_compute. discriminate.
  - refine (proj1 (proj1 (proj2 (exactly_one_window_unit sample_int sample_float
                     sample_check sample_parent sample_subparsers
                     ldscore_argv ldscore_namespace
                     sample_subparsers_built sample_parent_fresh
                     ldscore_accepted))
                   _ (λ ns, ns !! "ld_wind_cm")) _).
    vm_compute. reflexivity.
Defined.

(** * The prevalences *)

Lemma to_liability_scale_outside corr (k_s k_p h2 : Q) :
  ¬ ((0 < k_s)%Q ∧ (k_s < 1)%Q) ∨ ¬ ((0 < k_p)%Q ∧ (k_p < 1)%Q) →
  to_liability_scale corr k_s k_p h2 = InvalidPrevalence.
Proof.
  intros Hout. unfold to_liability_scale.
  pose proof (in_open_unit_interval_spec k_s) as Hs.
  pose proof (in_open_unit_interval_spec k_p) as Hp.
  assert (in_open_unit_interval k_s && in_open_unit_interval k_p = false)
    as ->; [|reflexivity].
  apply andb_false_iff.
  destruct Hout as [Hout|Hout]; [left|right];
    apply not_true_iff_false; intros Ht; apply Hout; [by apply Hs|by apply Hp].
Qed.

Lemma to_liability_scale_inside corr (k_s k_p h2 : Q) :
  (0 < k_s)%Q ∧ (k_s < 1)%Q → (0 < k_p)%Q ∧ (k_p < 1)%Q →
  to_liability_scale corr k_s k_p h2 = LiabilityScale (h2 * corr k_s k_p).
Proof.
  intros Hs Hp. unfold to_liability_scale.
  apply in_open_unit_interval_spec in Hs, Hp. by rewrite Hs, Hp.
Qed.

Lemma heritability_summary_requested corr to_number h2
  (ns : gmap string value) s p :
  ns !! "samp_prev" = Some (VStr s) → ns !! "pop_prev" = Some (VStr p) →
  heritability_summary corr to_number h2 ns
  = mkEstimate h2
      (Some (to_liability_scale corr (to_number s) (to_number p) h2)).
Proof.
  intros Hs Hp. unfold heritability_summary, prevalences, summarize.
  rewrite Hs, Hp. reflexivity.
Qed.

Lemma heritability_summary_not_requested corr to_number h2
  (ns : gmap string value) :
  ns !! "samp_prev" = Some VNone ∨ ns !! "pop_prev" = Some VNone →
  heritability_summary corr to_number h2 ns = mkEstimate h2 None.
Proof.
  intros H. unfold heritability_summary, prevalences, summarize.
  destruct H as [-> | ->]; [reflexivity|].
  destruct (ns !! "samp_prev") as [[]|]; reflexivity.
Qed.

(** C6: the liability-scale conversion and the prevalences of the command
    line.  In every subcommand, [--samp-prev] and [--pop-prev] store their
    argument as it is written: the parser converts nothing and checks no
    range, so an accepted command line stays accepted when the two options
    are added, whatever their arguments.  The conversion is requested by
    giving both: when the command line leaves one out, the summary carries
    the observed-scale estimate and no liability-scale result.  When both
    are given and either number is outside the open interval (0,1), the
    conversion fails with InvalidPrevalence and the observed-scale estimate
    is still returned; when both are inside, the estimate is rescaled. *)
Theorem invalid_prevalence_fails_the_conversion_only
  (py_int : string → option Z) (py_float : string → option float)
  (n_blocks_ok : value → bool) (parent_parser : ArgumentParser)
  (subparsers : list (string * ArgumentParser)) (name : string)
  (arg_strings : list string) (ns : gmap string value)
  (ascertainment_correction : Q → Q → Q) (to_number : string → Q)
  (h2_observed : Q) :
  configure_parser parent_parser = Done subparsers →
  parent_dests_fresh parent_parser = true →
  name ∈ subcommands →
  let P := subparser subparsers name in
  let run := invoke py_int py_float n_blocks_ok subparsers name in
  let summary :=
    heritability_summary ascertainment_correction to_number h2_observed in
  let outside (k : Q) := ¬ ((0 < k)%Q ∧ (k < 1)%Q) in
  run arg_strings = Done ns →
  (supplies P "--samp-prev" arg_strings = false
   ∨ supplies P "--pop-prev" arg_strings = false →
   summary ns = mkEstimate h2_observed None)
  ∧ (∀ s p, ns !! "samp_prev" = Some (VStr s) →
       ns !! "pop_prev" = Some (VStr p) →
       (outside (to_number s) ∨ outside (to_number p) →
        summary ns = mkEstimate h2_observed (Some InvalidPrevalence))
       ∧ (¬ outside (to_number s) → ¬ outside (to_number p) →
          summary ns
          = mkEstimate h2_observed
              (Some (LiabilityScale
                       (h2_observed
                        * ascertainment_correction (to_number s)
                            (to_number p))))))
  ∧ ("--" ∉ arg_strings →
     ∀ s p, starts_with_prefix_char s = false →
       starts_with_prefix_char p = false →
       let ns' := <["pop_prev" := VStr p]> (<["samp_prev" := VStr s]> ns) in
       run (arg_strings ++ ["--samp-prev"; s; "--pop-prev"; p]) = Done ns'
       ∧ summary ns'
         = mkEstimate h2_observed
             (Some (to_liability_scale ascertainment_correction (to_number s)
                      (to_number p) h2_observed))
       ∧ (outside (to_number s) ∨ outside (to_number p) →
          summary ns' = mkEstimate h2_observed (Some InvalidPrevalence))).
Proof.
  intros Hbuild Hfresh Hname P run summary outside Hns.
  pose proof (common_own_action name _ _ found_samp_prev) as Hos.
  pose proof (common_own_action name _ _ found_pop_prev) as Hop.
  split; [|split].
  - intros Hs. apply heritability_summary_not_requested.
    destruct Hs as [Hs|Hs]; [left|right].
    + exact (named_default py_int py_float n_blocks_ok parent_parser subparsers
               Hbuild name Hname "--samp-prev" _ Hos eq_refl Hfresh
               "samp_prev" eq_refl arg_strings ns VNone eq_refl Hns Hs).
    + exact (named_default py_int py_float n_blocks_ok parent_parser subparsers
               Hbuild name Hname "--pop-prev" _ Hop eq_refl Hfresh
               "pop_prev" eq_refl arg_strings ns VNone eq_refl Hns Hs).
  - clear Hbuild Hns. intros s p Hs Hp. subst summary.
    rewrite (heritability_summary_requested _ _ _ _ s p Hs Hp). split.
    + intros Hout. by rewrite to_liability_scale_outside.
    + intros Hin_s Hin_p. rewrite to_liability_scale_inside; [reflexivity| |].
      * unfold outside in Hin_s.
        destruct (in_open_unit_interval (to_number s)) eqn:Hb.
        -- by apply in_open_unit_interval_spec.
        -- exfalso. apply Hin_s. intros Hk.
           apply in_open_unit_interval_spec in Hk. congruence.
      * unfold outside in Hin_p.
        destruct (in_open_unit_interval (to_number p)) eqn:Hb.
        -- by apply in_open_unit_interval_spec.
        -- exfalso. apply Hin_p. intros Hk.
           apply in_open_unit_interval_spec in Hk. congruence.
  - intros Hdash s p Hvs Hvp ns'.
    pose proof (ungrouped_common name Hname) as Hu. cbn [forallb] in Hu.
    apply andb_true_iff in Hu as [_ Hu]. apply andb_true_iff in Hu as [Hus Hu].
    apply andb_true_iff in Hu as [Hup _].
    assert (run (arg_strings ++ ["--samp-prev"; s])
            = Done (<["samp_prev" := VStr s]> ns)) as H1.
    { subst run.
      rewrite (run_appended_ungrouped py_int py_float n_blocks_ok parent_parser
                 subparsers name "--samp-prev" _ arg_strings ns s (VStr s)
                 Hbuild Hname Hos eq_refl Hus Hns Hdash Hvs eq_refl).
      reflexivity. }
    assert ("--" ∉ arg_strings ++ ["--samp-prev"; s]) as Hdash'.
    { clear -Hdash Hvs. intros H. apply elem_of_app in H as [H|H]; [by apply Hdash|].
      apply elem_of_cons in H as [H|H]; [discriminate|].
      apply list_elem_of_singleton in H. subst s. discriminate. }
    assert (run (arg_strings ++ ["--samp-prev"; s; "--pop-prev"; p]) = Done ns')
      as H2.
    { subst run ns'.
      change (arg_strings ++ ["--samp-prev"; s; "--pop-prev"; p])
        with (arg_strings ++ ["--samp-prev"; s] ++ ["--pop-prev"; p]).
      rewrite app_assoc.
      rewrite (run_appended_ungrouped py_int py_float n_blocks_ok parent_parser
                 subparsers name "--pop-prev" _ _ _ p (VStr p)
                 Hbuild Hname Hop eq_refl Hup H1 Hdash' Hvp eq_refl).
      reflexivity. }
    split; [exact H2|]. clear Hbuild Hns H1 H2.
    assert (summary ns'
            = mkEstimate h2_observed
                (Some (to_liability_scale ascertainment_correction
                         (to_number s) (to_number p) h2_observed))) as Hsum.
    { subst summary ns'. apply heritability_summary_requested.
      - rewrite lookup_insert_ne by discriminate. apply lookup_insert_eq.
      - apply lookup_insert_eq. }
    split; [exact Hsum|]. intros Hout. rewrite Hsum.
    by rewrite to_liability_scale_outside.
Qed.

Lemma invalid_prevalence_at_h2 :
  configure_parser sample_parent = Done sample_subparsers
  ∧ parent_dests_fresh sample_parent = true
  ∧ "h2" ∈ subcommands
  ∧ invoke sample_int sample_float sample_check sample_subparsers "h2" h2_argv
    = Done h2_namespace
  ∧ ("--" ∉ h2_argv)
  ∧ ¬ ((0 < sample_number "1.5")%Q ∧ (sample_number "1.5" < 1)%Q)
  ∧ invoke sample_int sample_float sample_check sample_subparsers "h2"
      (h2_argv ++ ["--samp-prev"; "1.5"; "--pop-prev"; "0.01"])
    = Done (<["pop_prev" := VStr "0.01"]>
              (<["samp_prev" := VStr "1.5"]> h2_namespace))
  ∧ heritability_summary sample_correction sample_number (1 # 4)%Q
      (<["pop_prev" := VStr "0.01"]>
         (<["samp_prev" := VStr "1.5"]> h2_namespace))
    = mkEstimate (1 # 4)%Q (Some InvalidPrevalence).
Proof.
  assert (¬ ((0 < sample_number "1.5")%Q ∧ (sample_number "1.5" < 1)%Q))
    as Hout.
  { intros [_ H]. revert H. vm_compute. discriminate. }
  split; [exact sample_subparsers_built|]. split; [exact sample_parent_fresh|].
  split; [exact h2_subcommand|]. split; [exact h2_accepted|].
  split; [exact h2_argv_no_dash|]. split; [exact Hout|].
  pose proof (proj2 (proj2 (invalid_prevalence_fails_the_conversion_only
                  sample_int sample_float sample_check sample_parent
                  sample_subparsers "h2" h2_argv h2_namespace sample_correction
                  sample_number (1 # 4)%Q
                  sample_subparsers_built sample_parent_fresh h2_subcommand
                  h2_accepted))
                h2_argv_no_dash "1.5" "0.01" eq_refl eq_refl) as (H1 & _ & H2).
  split; [exact H1|exact (H2 (or_introl Hout))].
Defined.

(** * The number of SNPs *)





